(** * automatic-releases-with-sha-action: a shallow embedding

    The action's three TypeScript modules (src/main.ts, src/files.ts and
    src/sha.ts) are embedded as Rocq functions in a small monad that threads
    the outside world (the hosting platform, the file system, the workflow
    inputs) and the trace of what the run did, and in which a JavaScript
    exception is a result of its own.  The third-party packages the code
    calls (semver, sha.js, globby, path, conventional-commits-parser, the
    Octokit client) are interfaces: the theorems hold for every
    implementation of them, and a small reference implementation of each is
    given at the end to run the code on concrete inputs. *)

From Stdlib Require Import String Ascii List Bool Arith Lia Permutation Sorted.
From Stdlib Require Import DecimalString ZArith.
Import ListNotations.
Open Scope string_scope.

Set Implicit Arguments.

(** ** JavaScript values the code handles *)

(** An [Error] object: the code only ever reads [err.message]; Octokit's
    request errors also carry the HTTP [status] of the response. *)
Record Error : Type := mkError {
  err_message : string;
  err_status : option nat
}.

(** [new Error(msg)] *)
Definition new_Error (msg : string) : Error := mkError msg None.

(** The outcome of evaluating a JavaScript expression or statement list:
    a value, or a thrown exception. *)
Inductive Result (A : Type) : Type :=
| Ok (a : A)
| Throw (e : Error).
Arguments Ok {A} a.
Arguments Throw {A} e.

(** Template literals print numbers in decimal. *)
Definition Number_toString (n : nat) : string :=
  NilEmpty.string_of_uint (Nat.to_uint n).

(** Template literals print an array as its elements joined by commas. *)
Definition Array_toString (l : list string) : string := String.concat "," l.

(** The characters a Rocq string literal cannot hold as they are. *)
Definition nl : string := String (ascii_of_nat 10) EmptyString.
Definition dquote : string := String (ascii_of_nat 34) EmptyString.

(** [s.substring(n)] *)
Definition substring_from (n : nat) (s : string) : string :=
  String.substring n (String.length s - n) s.

(** A string is falsy exactly when it is empty. *)
Definition truthy_string (s : string) : bool :=
  match s with EmptyString => false | _ => true end.

(** ** Request parameters and responses of the hosting platform *)

Record RepoInfo : Type := mkRepoInfo {
  repo_owner : string;
  repo_name : string
}.

Record GitCreateTagParams : Type := mkGitCreateTagParams {
  ct_repo : RepoInfo;
  ct_tag : string;
  ct_message : string;
  ct_object : string;
  ct_type : string
}.

Record GitCreateRefParams : Type := mkGitCreateRefParams {
  cr_repo : RepoInfo;
  cr_ref : string;
  cr_sha : string
}.

Record GitUpdateRefParams : Type := mkGitUpdateRefParams {
  ur_repo : RepoInfo;
  ur_ref : string;
  ur_sha : string;
  ur_force : bool
}.

Record ReposGetReleaseByTagParams : Type := mkReposGetReleaseByTagParams {
  rt_repo : RepoInfo;
  rt_tag : string
}.

Record ReposDeleteReleaseParams : Type := mkReposDeleteReleaseParams {
  dr_repo : RepoInfo;
  dr_release_id : nat
}.

Record GitGetRefParams : Type := mkGitGetRefParams {
  gr_repo : RepoInfo;
  gr_ref : string
}.

Record ReposCompareCommitsParams : Type := mkReposCompareCommitsParams {
  cc_repo : RepoInfo;
  cc_base : string;
  cc_head : string
}.

Record ListPullRequestsParams : Type := mkListPullRequestsParams {
  lp_repo : RepoInfo;
  lp_commit_sha : string
}.

(** An entry of the tag listing. *)
Record Tag : Type := mkTag {
  tag_name : string;
  tag_commit_sha : string
}.

(** An entry of a commit comparison. *)
Record Commit : Type := mkCommit {
  commit_sha : string;
  commit_message : string
}.

Record PullRequest : Type := mkPullRequest {
  pr_number : nat;
  pr_html_url : string
}.

(** ** What the run leaves behind: the calls of [@actions/core] *)

Inductive CoreEvent : Type :=
| StartGroup (name : string)
| EndGroup
| Debug (msg : string)
| Info (msg : string)
| Warning (msg : string)
| ErrorAnnotation (msg : string)
| SetFailed (msg : string)
| ExportVariable (name value : string)
| SetOutput (name value : string).

(** What [JSON.parse] yields for the action's inputs.  The inputs it is
    applied to are documented as booleans; the code tests the value for
    truthiness ([is_tag_static]) or forwards it ([draft], [prerelease]).
    Numbers are kept as naturals and arrays are not told from objects. *)
Inductive JsValue : Type :=
| JsNull
| JsBool (b : bool)
| JsNumber (n : nat)
| JsString (s : string)
| JsObject.

Definition truthy (v : JsValue) : bool :=
  match v with
  | JsNull => false
  | JsBool b => b
  | JsNumber n => negb (Nat.eqb n 0)
  | JsString s => truthy_string s
  | JsObject => true
  end.

Record ReposCreateReleaseParams : Type := mkReposCreateReleaseParams {
  nr_repo : RepoInfo;
  nr_tag_name : string;
  nr_name : string;
  nr_draft : JsValue;
  nr_prerelease : JsValue;
  nr_body : string
}.

(** ** The operations of the outside world

    Every asynchronous operation the run awaits on the hosting platform.
    [UploadReleaseArtifacts] and [DumpGitHubEventPayload] stand for the
    functions of the same names that main.ts imports from
    ./uploadReleaseArtifacts and ./utils. *)
Inductive Call : Type :=
| Git_createTag (p : GitCreateTagParams)
| Git_createRef (p : GitCreateRefParams)
| Git_updateRef (p : GitUpdateRefParams)
| Repos_getReleaseByTag (p : ReposGetReleaseByTagParams)
| Repos_deleteRelease (p : ReposDeleteReleaseParams)
| Repos_createRelease (p : ReposCreateReleaseParams)
| Paginate_listTags (p : RepoInfo)
| Git_getRef (p : GitGetRefParams)
| Repos_compareCommits (p : ReposCompareCommitsParams)
| Repos_listPullRequestsAssociatedWithCommit (p : ListPullRequestsParams)
| UploadReleaseArtifacts (uploadUrl : string) (paths : list string)
| DumpGitHubEventPayload.

(** The part of each response the code reads: [data.sha] of a created tag
    object, [data.id] of a release, [data.upload_url] of a created release,
    the merged pages of the tag listing, [data.commits] of a comparison,
    [data] of the pull-request lookup. *)
Definition Resp (c : Call) : Type :=
  match c with
  | Git_createTag _ => string
  | Git_createRef _ => unit
  | Git_updateRef _ => unit
  | Repos_getReleaseByTag _ => nat
  | Repos_deleteRelease _ => unit
  | Repos_createRelease _ => string
  | Paginate_listTags _ => list Tag
  | Git_getRef _ => unit
  | Repos_compareCommits _ => list Commit
  | Repos_listPullRequestsAssociatedWithCommit _ => list PullRequest
  | UploadReleaseArtifacts _ _ => unit
  | DumpGitHubEventPayload => unit
  end.

(** The trace of a run: the calls of [@actions/core], the platform calls
    in the order they were made, and after a call that failed the error it
    was rejected with. *)
Inductive Event : Type :=
| Core (e : CoreEvent)
| Called (c : Call)
| Rejected (c : Call) (e : Error).

(** The world the action runs in.  [perform] answers a platform call and
    moves the world on (a call may fail and still have changed it);
    [globby] and [readFileSync] read the file system; [core_getInput] is
    [core.getInput(name, {required})] of @actions/core, which throws when a
    required input is not supplied; the [context_] fields are those of [new Context()], whose [repo] getter
    throws when the repository is not known. *)
Class Platform (World : Type) : Type := {
  perform : forall c : Call, World -> Result (Resp c) * World;
  globby : string -> World -> Result (list string);
  readFileSync : string -> World -> Result (list Byte.byte);
  core_getInput : string -> bool -> World -> Result string;
  context_ref : World -> string;
  context_sha : World -> string;
  context_repo : World -> Result RepoInfo
}.

(** The semver package: [semverValid] is [semver/functions/valid] (the
    normalised version text, or [None] for JavaScript's [null]), and
    [semverCompare] is [semver/functions/compare] with [Lt], [Eq], [Gt] for
    -1, 0, 1.  The package raises on text that is not a version; the code
    below applies the comparison to validated text only. *)
Class SemVer : Type := {
  semverValid : string -> option string;
  semverCompare : string -> string -> comparison
}.

(** semver/functions/rcompare: [compare(b, a)]. *)
Definition semverRcompare `{SemVer} (a b : string) : comparison :=
  semverCompare b a.

(** semver/functions/lt: [compare(a, b) < 0]. *)
Definition semverLt `{SemVer} (a b : string) : bool :=
  match semverCompare a b with Lt => true | _ => false end.

(** The other packages and built-ins: sha.js ([digest('hex')] of the
    updated hash), [path.basename], [JSON.parse] and [JSON.stringify]. *)
Class Packages : Type := {
  sha256_hex : list Byte.byte -> string;
  path_basename : string -> string;
  JSON_parse : string -> Result JsValue;
  JSON_stringify : forall A : Type, A -> string
}.

(** ** The monad of a run

    A computation takes the world and the trace so far and gives a result
    with the world and trace after it.  A JavaScript exception keeps the
    state reached when it was thrown: nothing is rolled back. *)
Record Store (World : Type) : Type := mkStore {
  world : World;
  trace : list Event
}.

Definition M (World A : Type) : Type := Store World -> Result A * Store World.

Section Monad.
Context {World : Type}.

Definition ret {A} (a : A) : M World A := fun s => (Ok a, s).

Definition throw {A} (e : Error) : M World A := fun s => (Throw e, s).

Definition bind {A B} (m : M World A) (k : A -> M World B) : M World B :=
  fun s =>
    match m s with
    | (Ok a, s') => k a s'
    | (Throw e, s') => (Throw e, s')
    end.

(** [try { m } catch (err) { h err }] *)
Definition try_catch {A} (m : M World A) (h : Error -> M World A) : M World A :=
  fun s =>
    match m s with
    | (Ok a, s') => (Ok a, s')
    | (Throw e, s') => h e s'
    end.

(** A synchronous expression that may throw. *)
Definition lift {A} (r : Result A) : M World A := fun s => (r, s).

(** A call of [@actions/core]: recorded, never failing. *)
Definition core (e : CoreEvent) : M World unit :=
  fun s => (Ok tt, mkStore (world s) (trace s ++ [Core e])).

(** Reading the world without changing it. *)
Definition read {A} (f : World -> A) : M World A := fun s => (Ok (f (world s)), s).

Definition read_result {A} (f : World -> Result A) : M World A :=
  fun s => (f (world s), s).

(** [await] of a platform call: the call is recorded and answered, and
    a rejection is recorded and thrown. *)
Definition request `{Platform World} (c : Call) : M World (Resp c) :=
  fun s =>
    let (r, w') := perform c (world s) in
    (r, mkStore w' (trace s ++ Called c
                             :: match r with Throw e => [Rejected c e] | Ok _ => [] end)).

(** [xs.map(f)] for a callback with effects. *)
Fixpoint Array_map {A B} (f : A -> M World B) (xs : list A) : M World (list B) :=
  match xs with
  | [] => ret []
  | x :: rest =>
      bind (f x) (fun y => bind (Array_map f rest) (fun ys => ret (y :: ys)))
  end.

(** [for (const x of xs) { acc = body(acc, x) }], leaving at the first
    exception. *)
Fixpoint for_of {A B} (xs : list A) (body : B -> A -> M World B) (acc : B)
  : M World B :=
  match xs with
  | [] => ret acc
  | x :: rest => bind (body acc x) (fun acc' => for_of rest body acc')
  end.
End Monad.

Declare Scope run_scope.
Delimit Scope run_scope with run.
Notation "x <- m ;; k" := (bind m (fun x => k))
  (at level 61, m at next level, right associativity) : run_scope.
Notation "' pat <- m ;; k" := (bind m (fun x => match x with pat => k end))
  (at level 61, pat pattern, m at next level, right associativity) : run_scope.
Notation "m ;; k" := (bind m (fun _ => k))
  (at level 61, right associativity) : run_scope.
Open Scope run_scope.

(** ** src/files.ts *)
Module Files.
Section Files.
Context {World : Type} `{Platform World}.

(** Insertion into a JavaScript [Set] of strings, kept in insertion
  order: a value already present is not added again. *)
Definition Set_add (s : list string) (x : string) : list string :=
if in_dec string_dec x s then s else s ++ [x].

(** [[...new Set(xs)]] *)
Definition new_Set (xs : list string) : list string :=
fold_left Set_add xs [].

Definition getPaths (files : list string) : M World (list string) :=
core (StartGroup "Getting artifact paths from file globs") ;;
paths <- for_of files (fun paths fileGlob =>
  gpaths <- read_result (globby fileGlob) ;;
  if Nat.eqb (List.length gpaths) 0 then
    core (ErrorAnnotation (fileGlob ++ " doesn't match any files")) ;;
    ret paths
  else
    ret (new_Set (paths ++ gpaths))) [] ;;
core (Debug ("Artifact paths: " ++ Array_toString paths)) ;;
core EndGroup ;;
ret paths.
End Files.
End Files.

(** ** src/sha.ts *)
Module Sha.
Section Sha.
Context {World : Type} `{Platform World} `{Packages}.

Definition getChecksums (paths : list string) : M World string :=
let markdown := "" in
if Nat.ltb (List.length paths) 0 then ret markdown else
core (StartGroup "Generating checksums for artifacts") ;;
let markdown := markdown ++ "## Checksums" ++ nl ++ "sha256" ++ nl ++ "```" ++ nl in
markdown <- for_of paths (fun markdown filePath =>
  buffer <- read_result (readFileSync filePath) ;;
  let checksum := sha256_hex buffer in
  ret (markdown ++ checksum ++ "  " ++ path_basename filePath ++ nl)) markdown ;;
let markdown := markdown ++ "```" in
core EndGroup ;;
ret markdown.
End Sha.
End Sha.

(** ** Built-ins used by src/main.ts *)

(** [xs.sort(comparefn)].  ECMAScript requires the sort to be stable, so
    for a comparison function that orders its arguments consistently the
    result is determined: the stable arrangement, computed here by
    insertion.  [Lt] stands for a negative result ([a] goes first), [Gt]
    for a positive one. *)
Section Array_sort.
Variable A : Type.
Variable comparefn : A -> A -> comparison.

Fixpoint sort_insert (x : A) (l : list A) : list A :=
  match l with
  | [] => [x]
  | y :: l' =>
      match comparefn x y with
      | Gt => y :: sort_insert x l'
      | _ => x :: l
      end
  end.

Definition Array_sort (l : list A) : list A := fold_right sort_insert [] l.
End Array_sort.

(** [s.split(/\r?\n/)] *)
Fixpoint split_lines (s : string) : list string :=
  match s with
  | EmptyString => [EmptyString]
  | String c rest =>
      if Ascii.eqb c (ascii_of_nat 10) then EmptyString :: split_lines rest
      else
        match rest with
        | String c' rest' =>
            if Ascii.eqb c (ascii_of_nat 13) && Ascii.eqb c' (ascii_of_nat 10)
            then EmptyString :: split_lines rest'
            else
              match split_lines rest with
              | line :: lines => String c line :: lines
              | [] => [String c EmptyString]
              end
        | EmptyString => [String c EmptyString]
        end
  end.

(** How a template literal prints a value that may be [null]. *)
Definition nullable_toString (o : option string) : string :=
  match o with Some s => s | None => "null" end.

(** The commit object conventional-commits-parser returns, with the
    fields the code reads. *)
Record ParsedCommitMsg : Type := mkParsedCommitMsg {
  pc_type : option string;
  pc_scope : option string;
  pc_subject : option string;
  pc_merge : option string;
  pc_header : option string;
  pc_body : option string;
  pc_footer : option string
}.

Record PullRequestLink : Type := mkPullRequestLink {
  link_number : nat;
  link_url : string
}.

(** [parsedCommitMsg.extra] *)
Record Extra : Type := mkExtra {
  extra_commit : Commit;
  extra_pullRequests : list PullRequestLink;
  extra_breakingChange : bool
}.

(** A parsed commit once [extra] has been attached. *)
Record ParsedCommits : Type := mkParsedCommits {
  parsed_msg : ParsedCommitMsg;
  parsed_extra : Extra
}.

(** What main.ts imports from ./utils (not among the sources at hand) and
    from conventional-commits-parser, taken as given.  [commitParser] is
    the package's [sync] parser, which throws a [TypeError] on a message
    that is empty or blank. *)
Class Helpers : Type := {
  ChangelogOptions : Type;
  getChangelogOptions : ChangelogOptions;
  commitParser : string -> ChangelogOptions -> Result ParsedCommitMsg;
  isBreakingChange : option string -> option string -> bool;
  generateChangelogFromParsedCommits : list ParsedCommits -> string;
  parseGitTag : string -> string;
  appendFullChangelogLink : string -> string -> string -> string -> string -> string
}.

(** ** src/main.ts *)
Module Main.

Record Args : Type := mkArgs {
repoToken : string;
automaticReleaseTag : string;
isTagStatic : JsValue;
draftRelease : JsValue;
preRelease : JsValue;
releaseTitle : string;
tagAnnotation : string;
files : list string
}.

(** A tag of the listing with the [semverTag] field the resolver adds. *)
Record SemverTagged : Type := mkSemverTagged {
tagged : Tag;
semverTag : option string
}.

(** The two responses [getCommitsSinceRelease] keeps in its one [resp]
  variable: that of [git.getRef], whose [data] has no [commits], and that
  of [repos.compareCommits]. *)
Inductive Response : Type :=
| RefResponse
| CompareResponse (commits : list Commit).

(** [resp?.data?.commits] *)
Definition data_commits (resp : option Response) : option (list Commit) :=
match resp with
| Some (CompareResponse commits) => Some commits
| _ => None
end.

Section Main.
Context {World : Type} `{Platform World} `{SemVer} `{Packages} `{Helpers}.

Definition getAndValidateArgs : M World Args :=
repoToken <- read_result (core_getInput "repo_token" true) ;;
automaticReleaseTag <- read_result (core_getInput "automatic_release_tag" false) ;;
is_tag_static <- read_result (core_getInput "is_tag_static" false) ;;
isTagStatic <- lift (JSON_parse is_tag_static) ;;
draft <- read_result (core_getInput "draft" true) ;;
draftRelease <- lift (JSON_parse draft) ;;
prerelease <- read_result (core_getInput "prerelease" true) ;;
preRelease <- lift (JSON_parse prerelease) ;;
releaseTitle <- read_result (core_getInput "title" false) ;;
tagAnnotation <- read_result (core_getInput "tag_annotation" false) ;;
inputFilesStr <- read_result (core_getInput "files" false) ;;
let files := if truthy_string inputFilesStr then split_lines inputFilesStr else [] in
ret (mkArgs repoToken automaticReleaseTag isTagStatic draftRelease preRelease
            releaseTitle tagAnnotation files).

Definition createReleaseTag (refInfo : GitCreateRefParams) (message : string)
: M World unit :=
core (StartGroup "Generating release tag") ;;
let friendlyTagName := substring_from 10 (cr_ref refInfo) in
core (Info ("Attempting to create or update release tag " ++ dquote
            ++ friendlyTagName ++ dquote)) ;;
tagResponse <- request (Git_createTag
  (mkGitCreateTagParams (cr_repo refInfo) friendlyTagName message
                        (cr_sha refInfo) "commit")) ;;
let refInfo := mkGitCreateRefParams (cr_repo refInfo) (cr_ref refInfo) tagResponse in
try_catch
  (request (Git_createRef refInfo))
  (fun err =>
     let existingTag := substring_from 5 (cr_ref refInfo) in
     core (Info ("Could not create new tag " ++ dquote ++ cr_ref refInfo ++ dquote
                 ++ " (" ++ err_message err ++ ") therefore updating existing tag "
                 ++ dquote ++ existingTag ++ dquote)) ;;
     request (Git_updateRef
       (mkGitUpdateRefParams (cr_repo refInfo) existingTag (cr_sha refInfo) true))) ;;
core (Info ("Successfully created or updated the release tag " ++ dquote
            ++ friendlyTagName ++ dquote)) ;;
core EndGroup.

Definition deletePreviousGitHubRelease (releaseInfo : ReposGetReleaseByTagParams)
: M World unit :=
core (StartGroup ("Deleting GitHub releases associated with the tag " ++ dquote
                  ++ rt_tag releaseInfo ++ dquote)) ;;
try_catch
  (core (Info ("Searching for releases corresponding to the " ++ dquote
               ++ rt_tag releaseInfo ++ dquote ++ " tag")) ;;
   resp <- request (Repos_getReleaseByTag releaseInfo) ;;
   core (Info ("Deleting release: " ++ Number_toString resp)) ;;
   request (Repos_deleteRelease
     (mkReposDeleteReleaseParams (rt_repo releaseInfo) resp)))
  (fun err =>
     core (Info ("Could not find release associated with tag " ++ dquote
                 ++ rt_tag releaseInfo ++ dquote ++ " (" ++ err_message err ++ ")"))) ;;
core EndGroup.

Definition generateNewGitHubRelease (releaseInfo : ReposCreateReleaseParams)
: M World string :=
core (StartGroup ("Generating new GitHub release for the " ++ dquote
                  ++ nr_tag_name releaseInfo ++ dquote ++ " tag")) ;;
core (Info "Creating new release") ;;
resp <- request (Repos_createRelease releaseInfo) ;;
core EndGroup ;;
ret resp.

(** The [semverTag] of an entry that passed the filter. *)
Definition version_of (tag : SemverTagged) : string :=
match semverTag tag with Some v => v | None => EmptyString end.

(** [tl.map(...).filter(...).sort(...)]: the listing with each entry's
  [semverTag], without the entries whose name is not a version, newest
  version first. *)
Definition tagList (tl : list Tag) : M World (list SemverTagged) :=
mapped <- Array_map (fun tag =>
  core (Debug ("Currently processing tag " ++ tag_name tag)) ;;
  let t := semverValid (tag_name tag) in
  ret (mkSemverTagged tag t)) tl ;;
let filtered :=
  filter (fun tag => match semverTag tag with Some _ => true | None => false end)
         mapped in
ret (Array_sort (fun a b => semverRcompare (version_of a) (version_of b)) filtered).

(** The loop that leaves at the first entry older than the current tag. *)
Fixpoint previousReleaseTag (currentReleaseTag : string) (tagList : list SemverTagged)
: string :=
match tagList with
| [] => EmptyString
| tag :: rest =>
    if semverLt (version_of tag) currentReleaseTag
    then tag_name (tagged tag)
    else previousReleaseTag currentReleaseTag rest
end.

Definition searchForPreviousReleaseTag (currentReleaseTag : string) (tagInfo : RepoInfo)
: M World string :=
let validSemver := semverValid currentReleaseTag in
match validSemver with
| None =>
    throw (new_Error "Cannot find previous release tag because the tag does not appear to conform to semantic versioning.")
| Some _ =>
    tl <- request (Paginate_listTags tagInfo) ;;
    tagList <- tagList tl ;;
    ret (previousReleaseTag currentReleaseTag tagList)
end.

Definition getCommitsSinceRelease (tagInfo : GitGetRefParams) (currentSha : string)
: M World (list Commit) :=
core (StartGroup "Retrieving commit history") ;;
core (Info "Determining state of the previous release") ;;
core (Info ("Searching for SHA corresponding to previous " ++ dquote
            ++ gr_ref tagInfo ++ dquote ++ " release tag")) ;;
'(resp, previousReleaseRef) <- try_catch
  (request (Git_getRef tagInfo) ;;
   ret (Some RefResponse, parseGitTag (gr_ref tagInfo)))
  (fun err =>
     core (Info ("Could not find SHA corresponding to tag " ++ dquote
                 ++ gr_ref tagInfo ++ dquote ++ " (" ++ err_message err
                 ++ "). Assuming this is the first release.")) ;;
     ret (None, "HEAD")) ;;
core (Info ("Retrieving commits between " ++ previousReleaseRef ++ " and "
            ++ currentSha)) ;;
resp <- try_catch
  (commits <- request (Repos_compareCommits
     (mkReposCompareCommitsParams (gr_repo tagInfo) previousReleaseRef currentSha)) ;;
   core (Info ("Successfully retrieved " ++ Number_toString (List.length commits)
               ++ " commits between " ++ previousReleaseRef ++ " and "
               ++ currentSha)) ;;
   ret (Some (CompareResponse commits)))
  (fun err =>
     core (Warning ("Could not find any commits between " ++ previousReleaseRef
                    ++ " and " ++ currentSha)) ;;
     ret resp) ;;
let commits := match data_commits resp with Some cs => cs | None => [] end in
core (Debug ("Currently " ++ Number_toString (List.length commits)
             ++ " number of commits between " ++ previousReleaseRef ++ " and "
             ++ currentSha)) ;;
core EndGroup ;;
ret commits.

Definition getChangelog (owner repo : string) (commits : list Commit)
: M World string :=
core (StartGroup "Generating changelog") ;;
parsedCommits <- for_of commits (fun parsedCommits commit =>
  core (Debug ("Processing commit: " ++ JSON_stringify commit)) ;;
  core (Debug ("Searching for pull requests associated with commit "
               ++ commit_sha commit)) ;;
  pulls <- request (Repos_listPullRequestsAssociatedWithCommit
    (mkListPullRequestsParams (mkRepoInfo owner repo) (commit_sha commit))) ;;
  (if Nat.eqb (List.length pulls) 0 then ret tt
   else core (Info ("Found " ++ Number_toString (List.length pulls)
                    ++ " pull request(s) associated with commit "
                    ++ commit_sha commit))) ;;
  let clOptions := getChangelogOptions in
  parsedCommitMsg <- lift (commitParser (commit_message commit) clOptions) ;;
  match pc_merge parsedCommitMsg with
  | Some (String c merge) =>
      core (Debug ("Ignoring merge commit: " ++ String c merge)) ;;
      ret parsedCommits
  | _ =>
      let extra :=
        mkExtra commit
                (map (fun pr => mkPullRequestLink (pr_number pr) (pr_html_url pr)) pulls)
                (isBreakingChange (pc_body parsedCommitMsg) (pc_footer parsedCommitMsg)) in
      let parsedCommitMsg := mkParsedCommits parsedCommitMsg extra in
      core (Debug ("Parsed commit: " ++ JSON_stringify parsedCommitMsg)) ;;
      core (Info ("Adding commit " ++ dquote
                  ++ nullable_toString (pc_header (parsed_msg parsedCommitMsg))
                  ++ dquote ++ " to the changelog")) ;;
      ret (parsedCommits ++ [parsedCommitMsg])%list
  end) [] ;;
let changelog := generateChangelogFromParsedCommits parsedCommits in
core (Debug "Changelog:") ;;
core (Debug changelog) ;;
core EndGroup ;;
ret changelog.

(** The statements of [main]'s [try] block. *)
Definition main_try : M World unit :=
args <- getAndValidateArgs ;;
core (StartGroup "Initializing the Automatic Releases action") ;;
request DumpGitHubEventPayload ;;
ref <- read context_ref ;;
sha <- read context_sha ;;
core (Debug ("Github context: " ++ JSON_stringify (ref, sha))) ;;
core EndGroup ;;
core (StartGroup "Determining release tags") ;;
let releaseTag :=
  if truthy_string (automaticReleaseTag args) then automaticReleaseTag args
  else parseGitTag ref in
(if truthy_string releaseTag then ret tt
 else throw (new_Error ("The parameter " ++ dquote ++ "automatic_release_tag" ++ dquote
                        ++ " was not set and this does not appear to be a GitHub tag event. (Event: "
                        ++ ref ++ ")"))) ;;
repoInfo <- read_result context_repo ;;
previousReleaseTag <-
  (if truthy (isTagStatic args) then ret (automaticReleaseTag args)
   else searchForPreviousReleaseTag releaseTag repoInfo) ;;
core EndGroup ;;
commitsSinceRelease <- getCommitsSinceRelease
  (mkGitGetRefParams repoInfo ("tags/" ++ previousReleaseTag)) sha ;;
changelog <- getChangelog (repo_owner repoInfo) (repo_name repoInfo)
                          commitsSinceRelease ;;
let changelog := appendFullChangelogLink changelog (repo_owner repoInfo)
                   (repo_name repoInfo) previousReleaseTag releaseTag in
artifactPaths <- Files.getPaths (files args) ;;
checksums <- Sha.getChecksums artifactPaths ;;
(if truthy_string (automaticReleaseTag args) then
   createReleaseTag
     (mkGitCreateRefParams repoInfo ("refs/tags/" ++ automaticReleaseTag args) sha)
     (if truthy_string (tagAnnotation args) then tagAnnotation args else EmptyString) ;;
   deletePreviousGitHubRelease
     (mkReposGetReleaseByTagParams repoInfo (automaticReleaseTag args))
 else ret tt) ;;
releaseUploadUrl <- generateNewGitHubRelease
  (mkReposCreateReleaseParams repoInfo releaseTag
     (if truthy_string (releaseTitle args) then releaseTitle args else releaseTag)
     (draftRelease args) (preRelease args)
     (changelog ++ nl ++ nl ++ checksums)) ;;
request (UploadReleaseArtifacts releaseUploadUrl artifactPaths) ;;
core (Debug ("Exporting environment variable AUTOMATIC_RELEASES_TAG with value "
             ++ releaseTag)) ;;
core (ExportVariable "AUTOMATIC_RELEASES_TAG" releaseTag) ;;
core (SetOutput "automatic_releases_tag" releaseTag) ;;
core (SetOutput "upload_url" releaseUploadUrl).

(** The statements of [main]'s [catch] block. *)
Definition main_catch (error : Error) : M World unit :=
core (SetFailed (err_message error)) ;;
throw error.

Definition main : M World unit := try_catch main_try main_catch.
End Main.
End Main.

(** * Reference implementations

    One implementation of each interface, to run the embedding on concrete
    inputs.  The theorems below do not depend on them. *)

(** ** SHA-256 (FIPS 180-4), as sha.js computes it: 32-bit words as [Z]
    with the wrap-around written out. *)
Module Sha256.
Local Open Scope Z_scope.

Definition w32 (x : Z) : Z := x mod 2 ^ 32.
Definition add32 (x y : Z) : Z := w32 (x + y).
Definition rotr (n x : Z) : Z := Z.lor (Z.shiftr x n) (w32 (Z.shiftl x (32 - n))).
Definition not32 (x : Z) : Z := Z.lxor x (2 ^ 32 - 1).

Definition Ch (x y z : Z) : Z := Z.lxor (Z.land x y) (Z.land (not32 x) z).
Definition Maj (x y z : Z) : Z :=
  Z.lxor (Z.lxor (Z.land x y) (Z.land x z)) (Z.land y z).
Definition Sigma0 (x : Z) : Z := Z.lxor (Z.lxor (rotr 2 x) (rotr 13 x)) (rotr 22 x).
Definition Sigma1 (x : Z) : Z := Z.lxor (Z.lxor (rotr 6 x) (rotr 11 x)) (rotr 25 x).
Definition sigma0 (x : Z) : Z := Z.lxor (Z.lxor (rotr 7 x) (rotr 18 x)) (Z.shiftr x 3).
Definition sigma1 (x : Z) : Z := Z.lxor (Z.lxor (rotr 17 x) (rotr 19 x)) (Z.shiftr x 10).

(** The primes up to 311: the first sixty-four. *)
Definition is_prime (n : nat) : bool :=
  forallb (fun d => negb (Nat.eqb (Nat.modulo n d) 0)) (seq 2 (n - 2)).

Definition primes : list Z := map Z.of_nat (filter is_prime (seq 2 310)).

(** The integer cube root, one bit at a time from bit [bits] down. *)
Fixpoint cube_root (bits : nat) (x r : Z) : Z :=
  match bits with
  | O => r
  | S bits' =>
      let r' := r + 2 ^ Z.of_nat bits' in
      cube_root bits' x (if r' * r' * r' <=? x then r' else r)
  end.

(** The round constants: the first 32 bits of the fractional part of the
    cube root of each prime. *)
Definition K : list Z :=
  map (fun p => w32 (cube_root 40 (p * 2 ^ 96) 0)) primes.

(** The initial hash value: the same of the square roots of the first
    eight. *)
Definition H0 : list Z :=
  map (fun p => w32 (Z.sqrt (p * 2 ^ 64))) (firstn 8 primes).

(** Big-endian bytes of [x], [n] of them. *)
Fixpoint be_bytes (n : nat) (x : Z) : list Z :=
  match n with
  | O => []
  | S n' => (Z.shiftr x (8 * Z.of_nat n')) mod 256 :: be_bytes n' x
  end.

Definition pad (msg : list Z) : list Z :=
  let len := Z.of_nat (List.length msg) in
  let zeros := Z.to_nat ((55 - len) mod 64) in
  msg ++ [0x80] ++ repeat 0 zeros ++ be_bytes 8 (8 * len).

(** Big-endian 32-bit words of a byte list. *)
Fixpoint words (fuel : nat) (bs : list Z) : list Z :=
  match fuel, bs with
  | S fuel', b0 :: b1 :: b2 :: b3 :: rest =>
      (b0 * 2 ^ 24 + b1 * 2 ^ 16 + b2 * 2 ^ 8 + b3) :: words fuel' rest
  | _, _ => []
  end.

(** The message schedule, newest word first. *)
Fixpoint schedule (n : nat) (rev_w : list Z) : list Z :=
  match n with
  | O => rev_w
  | S n' =>
      let w := add32 (add32 (sigma1 (nth 1 rev_w 0)) (nth 6 rev_w 0))
                     (add32 (sigma0 (nth 14 rev_w 0)) (nth 15 rev_w 0)) in
      schedule n' (w :: rev_w)
  end.

Definition round (st : list Z) (kw : Z * Z) : list Z :=
  match st with
  | [a; b; c; d; e; f; g; h] =>
      let t1 := add32 (add32 (add32 h (Sigma1 e)) (add32 (Ch e f g) (fst kw))) (snd kw) in
      let t2 := add32 (Sigma0 a) (Maj a b c) in
      [add32 t1 t2; a; b; c; add32 d t1; e; f; g]
  | _ => st
  end.

Definition compress (st : list Z) (block : list Z) : list Z :=
  let w := rev (schedule 48 (rev block)) in
  map (fun p => add32 (fst p) (snd p)) (combine st (fold_left round (combine K w) st)).

Fixpoint blocks (fuel : nat) (ws : list Z) (st : list Z) : list Z :=
  match fuel with
  | O => st
  | S fuel' =>
      match ws with
      | [] => st
      | _ => blocks fuel' (skipn 16 ws) (compress st (firstn 16 ws))
      end
  end.

Definition digest (msg : list Z) : list Z :=
  let ws := let p := pad msg in words (List.length p) p in
  blocks (List.length ws) ws H0.

Definition hex_digit (d : Z) : ascii :=
  ascii_of_nat (Z.to_nat (if d <? 10 then 48 + d else 87 + d)).

Fixpoint hex (n : nat) (x : Z) : string :=
  match n with
  | O => EmptyString
  | S n' => String (hex_digit ((Z.shiftr x (4 * Z.of_nat n')) mod 16)) (hex n' x)
  end.

Definition hexdigest (msg : list Byte.byte) : string :=
  String.concat "" (map (hex 8) (digest (map (fun b => Z.of_N (Byte.to_N b)) msg))).
End Sha256.

(** ** Strings *)

(** [s.split(sep)] for a one-character separator. *)
Fixpoint split_on (sep : ascii) (s : string) : list string :=
  match s with
  | EmptyString => [EmptyString]
  | String c rest =>
      if Ascii.eqb c sep then EmptyString :: split_on sep rest
      else
        match split_on sep rest with
        | part :: parts => String c part :: parts
        | [] => [String c EmptyString]
        end
  end.

(** [s.startsWith(p)] and the rest of [s] after [p]. *)
Fixpoint strip_prefix (p s : string) : option string :=
  match p, s with
  | EmptyString, _ => Some s
  | String a p', String b s' => if Ascii.eqb a b then strip_prefix p' s' else None
  | String _ _, EmptyString => None
  end.

(** ** The release core of semver: an optional [v], then
    MAJOR.MINOR.PATCH, each a numeric identifier without leading zeros.
    Text with a pre-release or build suffix is outside this reference
    implementation and reported as not a version. *)
Module RefSemVer.
Definition is_digit (c : ascii) : bool :=
  let n := nat_of_ascii c in Nat.leb 48 n && Nat.leb n 57.

Fixpoint digits_value (acc : nat) (s : string) : option nat :=
  match s with
  | EmptyString => Some acc
  | String c rest =>
      if is_digit c then digits_value (10 * acc + (nat_of_ascii c - 48)) rest
      else None
  end.

(** [0|[1-9]\d*] *)
Definition numeric_identifier (s : string) : option nat :=
  match s with
  | EmptyString => None
  | String c rest =>
      if Ascii.eqb c "0"%char
      then match rest with EmptyString => Some 0 | _ => None end
      else digits_value 0 s
  end.

Definition parse (s : string) : option (nat * nat * nat) :=
  let s := match s with
           | String c rest => if Ascii.eqb c "v"%char then rest else s
           | EmptyString => s
           end in
  match split_on "."%char s with
  | [a; b; c] =>
      match numeric_identifier a, numeric_identifier b, numeric_identifier c with
      | Some major, Some minor, Some patch => Some (major, minor, patch)
      | _, _, _ => None
      end
  | _ => None
  end.

Definition format (v : nat * nat * nat) : string :=
  let '(major, minor, patch) := v in
  Number_toString major ++ "." ++ Number_toString minor ++ "." ++ Number_toString patch.

Definition valid (s : string) : option string := option_map format (parse s).

Definition compare_triple (a b : nat * nat * nat) : comparison :=
  let '(a1, a2, a3) := a in
  let '(b1, b2, b3) := b in
  match Nat.compare a1 b1 with
  | Eq => match Nat.compare a2 b2 with
          | Eq => Nat.compare a3 b3
          | c => c
          end
  | c => c
  end.

Definition key (s : string) : nat * nat * nat :=
  match parse s with Some v => v | None => (0, 0, 0) end.

Definition compare (a b : string) : comparison := compare_triple (key a) (key b).

Definition semver : SemVer := {| semverValid := valid; semverCompare := compare |}.
End RefSemVer.

(** ** The other packages *)
Module RefPackages.
(** POSIX [path.basename]: the last non-empty segment of the path. *)
Definition basename (p : string) : string :=
  last (filter truthy_string (split_on "/"%char p)) EmptyString.

(** [JSON.parse] on the three literals; other text is a [SyntaxError]. *)
Definition parse (s : string) : Result JsValue :=
  if String.eqb s "true" then Ok (JsBool true)
  else if String.eqb s "false" then Ok (JsBool false)
  else if String.eqb s "null" then Ok JsNull
  else Throw (new_Error ("Unexpected token in JSON: " ++ s)).

Definition packages : Packages := {|
  sha256_hex := Sha256.hexdigest;
  path_basename := basename;
  JSON_parse := parse;
  JSON_stringify := fun _ _ => "{}"
|}.
End RefPackages.

(** ** Helpers: a plain changelog

    Modelled from the spec: ./utils is not among the sources at hand; these
    stand-ins give enough of the commit classifier and the changelog
    renderer to run [main] on concrete inputs.  No theorem depends on
    them. *)
Module RefHelpers.
(** The tag named by a [refs/tags/...] or [tags/...] reference, empty
    for any other reference. *)
Definition gitTag (inputRef : string) : string :=
  let r := match strip_prefix "refs/" inputRef with Some r => r | None => inputRef end in
  match strip_prefix "tags/" r with Some t => t | None => EmptyString end.

(** A message without a character other than white space. *)
Definition blank (msg : string) : bool :=
  forallb (fun c => existsb (Nat.eqb (nat_of_ascii c)) [9; 10; 11; 12; 13; 32])
          (list_ascii_of_string msg).

(** The first line is the header, the rest the body; a header starting
    with "Merge pull request" is a merge; an empty or blank message is
    refused as the package refuses it. *)
Definition parser (msg : string) (_ : unit) : Result ParsedCommitMsg :=
  if blank msg then Throw (new_Error "Expected a raw commit") else
  let lines := split_on (ascii_of_nat 10) msg in
  let header := hd EmptyString lines in
  let body := String.concat nl (tl lines) in
  Ok (mkParsedCommitMsg None None (Some header)
        (match strip_prefix "Merge pull request" header with
         | Some _ => Some header
         | None => None
         end)
        (Some header)
        (match body with EmptyString => None | _ => Some body end)
        None).

Definition breaking (body footer : option string) : bool :=
  match body, footer with
  | None, None => false
  | _, _ =>
      existsb (fun o =>
                 match o with
                 | Some s => match strip_prefix "BREAKING CHANGE:" s with
                             | Some _ => true
                             | None => false
                             end
                 | None => false
                 end) [body; footer]
  end.

Definition changelog (commits : list ParsedCommits) : string :=
  String.concat nl
    (map (fun c => "- " ++ nullable_toString (pc_header (parsed_msg c))) commits).

Definition fullChangelogLink (changelog owner repo previousTag tag : string) : string :=
  changelog ++ nl ++ "**Full Changelog**: https://github.com/" ++ owner ++ "/" ++ repo
  ++ "/compare/" ++ previousTag ++ "..." ++ tag.

Definition helpers : Helpers := {|
  ChangelogOptions := unit;
  getChangelogOptions := tt;
  commitParser := parser;
  isBreakingChange := breaking;
  generateChangelogFromParsedCommits := changelog;
  parseGitTag := gitTag;
  appendFullChangelogLink := fullChangelogLink
|}.
End RefHelpers.

(** ** An in-memory platform

    A repository with its references, releases, tags and history, a file
    system (the files of [mock_unreadable] are listed but cannot be
    opened), the workflow inputs, and a table of injected faults: a call
    with an entry in [mock_faults] fails with that error and leaves the
    world as it was. *)
Module Mock.
Record World : Type := mkWorld {
  mock_inputs : list (string * string);
  mock_ref : string;
  mock_sha : string;
  mock_repo : option RepoInfo;
  mock_refs : list string;
  mock_releases : list (string * nat);
  mock_tags : list Tag;
  mock_commits : list Commit;
  mock_files : list (string * string);
  mock_unreadable : list string;
  mock_faults : Call -> option Error
}.

Definition lookup {A} (k : string) (l : list (string * A)) : option A :=
  option_map snd (find (fun kv => String.eqb (fst kv) k) l).

Definition has (k : string) (l : list string) : bool := existsb (String.eqb k) l.

Definition set_refs (w : World) (refs : list string) : World :=
  mkWorld (mock_inputs w) (mock_ref w) (mock_sha w) (mock_repo w) refs
          (mock_releases w) (mock_tags w) (mock_commits w) (mock_files w)
          (mock_unreadable w) (mock_faults w).

Definition set_releases (w : World) (releases : list (string * nat)) : World :=
  mkWorld (mock_inputs w) (mock_ref w) (mock_sha w) (mock_repo w) (mock_refs w)
          releases (mock_tags w) (mock_commits w) (mock_files w)
          (mock_unreadable w) (mock_faults w).

Definition not_found : Error := mkError "Not Found" (Some 404).

Definition answer (c : Call) (w : World) : Result (Resp c) * World :=
  match c as c0 return Result (Resp c0) * World with
  | Git_createTag p => (Ok ("tag-object-of-" ++ ct_object p), w)
  | Git_createRef p =>
      if has (cr_ref p) (mock_refs w)
      then (Throw (mkError "Reference already exists" (Some 422)), w)
      else (Ok tt, set_refs w (mock_refs w ++ [cr_ref p]))
  | Git_updateRef p =>
      if has ("refs/" ++ ur_ref p) (mock_refs w) then (Ok tt, w)
      else (Throw (mkError "Reference does not exist" (Some 422)), w)
  | Repos_getReleaseByTag p =>
      match lookup (rt_tag p) (mock_releases w) with
      | Some id => (Ok id, w)
      | None => (Throw not_found, w)
      end
  | Repos_deleteRelease p =>
      if existsb (fun r => Nat.eqb (snd r) (dr_release_id p)) (mock_releases w)
      then (Ok tt, set_releases w
              (filter (fun r => negb (Nat.eqb (snd r) (dr_release_id p)))
                      (mock_releases w)))
      else (Throw not_found, w)
  | Repos_createRelease p =>
      let id := S (fold_right Nat.max 0 (map snd (mock_releases w))) in
      (Ok ("https://uploads.github.com/releases/" ++ Number_toString id ++ "/assets"),
       set_releases w (mock_releases w ++ [(nr_tag_name p, id)]))
  | Paginate_listTags _ => (Ok (mock_tags w), w)
  | Git_getRef p =>
      if has ("refs/" ++ gr_ref p) (mock_refs w) then (Ok tt, w)
      else (Throw not_found, w)
  | Repos_compareCommits _ => (Ok (mock_commits w), w)
  | Repos_listPullRequestsAssociatedWithCommit _ => (Ok [], w)
  | UploadReleaseArtifacts _ _ => (Ok tt, w)
  | DumpGitHubEventPayload => (Ok tt, w)
  end.

Definition mock_perform (c : Call) (w : World) : Result (Resp c) * World :=
  match mock_faults w c with
  | Some e => (Throw e, w)
  | None => answer c w
  end.

(** A pattern ending in [*] matches the paths it is a prefix of; any
    other pattern matches the path equal to it. *)
Definition mock_globby (pattern : string) (w : World) : Result (list string) :=
  let paths := map fst (mock_files w) in
  match split_on "*"%char pattern with
  | [dir; EmptyString] =>
      Ok (filter (fun p => match strip_prefix dir p with Some _ => true | None => false end)
                 paths)
  | _ => Ok (filter (String.eqb pattern) paths)
  end.

Definition mock_readFileSync (path : string) (w : World) : Result (list Byte.byte) :=
  if has path (mock_unreadable w)
  then Throw (new_Error ("EACCES: permission denied, open '" ++ path ++ "'"))
  else
    match lookup path (mock_files w) with
    | Some content => Ok (list_byte_of_string content)
    | None => Throw (new_Error ("ENOENT: no such file or directory, open '" ++ path ++ "'"))
    end.

Definition mock_getInput (name : string) (required : bool) (w : World) : Result string :=
  let val := match lookup name (mock_inputs w) with Some v => v | None => EmptyString end in
  if required && negb (truthy_string val)
  then Throw (new_Error ("Input required and not supplied: " ++ name))
  else Ok val.

Definition mock_context_repo (w : World) : Result RepoInfo :=
  match mock_repo w with
  | Some r => Ok r
  | None => Throw (new_Error "context.repo requires a GITHUB_REPOSITORY environment variable like 'owner/repo'")
  end.

Definition platform : Platform World := {|
  perform := mock_perform;
  globby := mock_globby;
  readFileSync := mock_readFileSync;
  core_getInput := mock_getInput;
  context_ref := mock_ref;
  context_sha := mock_sha;
  context_repo := mock_context_repo
|}.

Definition no_faults : Call -> option Error := fun _ => None.

Definition start (w : World) : Store World := mkStore w [].
End Mock.

(** ** A repository to run the action on

    [octo/demo] has releases v1.0.0 and v1.0.1, a tag that is no version,
    and three build artifacts of which two have the same content; the run
    is asked to release v1.1.0. *)
Module Demo.
Definition repo : RepoInfo := mkRepoInfo "octo" "demo".

Definition inputs : list (string * string) :=
  [("repo_token", "secret"); ("automatic_release_tag", "v1.1.0");
   ("is_tag_static", "false"); ("draft", "false"); ("prerelease", "false");
   ("files", "dist/*" ++ nl ++ "LICENSE.txt" ++ nl ++ "missing")].

Definition tags : list Tag :=
  [mkTag "v1.0.0" "s0"; mkTag "v1.0.1" "s1"; mkTag "nightly" "s2"; mkTag "v1.1.0" "s3"].

Definition world_with (unreadable : list string) (faults : Call -> option Error)
  : Mock.World :=
  Mock.mkWorld inputs "refs/heads/main" "abc123" (Some repo)
    ["refs/heads/main"; "refs/tags/v1.0.0"; "refs/tags/v1.0.1"]
    [("v1.0.1", 7)]
    tags
    [mkCommit "c1" "feat: add foo"; mkCommit "c2" "Merge pull request #3 from x"]
    [("dist/a.txt", "x"); ("dist/b.txt", "x"); ("LICENSE.txt", "MIT")]
    unreadable faults.

Definition world : Mock.World := world_with [] Mock.no_faults.

Definition start : Store Mock.World := Mock.start world.

Definition server_error : Error := mkError "Internal Server Error" (Some 500).

(** The release lookup is answered with a server error. *)
Definition lookup_down (c : Call) : option Error :=
  match c with
  | Repos_getReleaseByTag _ => Some server_error
  | _ => None
  end.

(** The commit comparison is answered with a server error. *)
Definition compare_down (c : Call) : option Error :=
  match c with
  | Repos_compareCommits _ => Some server_error
  | _ => None
  end.

(** The creation of the release is answered with a server error. *)
Definition release_down (c : Call) : option Error :=
  match c with
  | Repos_createRelease _ => Some server_error
  | _ => None
  end.
End Demo.

(** ** Other runs on the demo repository

    The same repository under other inputs and triggering references, and
    a file system on which the expansion of a pattern can fail. *)
Module Scenario.
(** The tag listing is answered with a server error. *)
Definition listing_down (c : Call) : option Error :=
  match c with
  | Paginate_listTags _ => Some Demo.server_error
  | _ => None
  end.

Definition world_of (inputs : list (string * string)) (ref : string)
           (faults : Call -> option Error) : Mock.World :=
  Mock.mkWorld inputs ref "abc123" (Some Demo.repo)
    ["refs/heads/main"; "refs/tags/v1.0.0"; "refs/tags/v1.0.1"; "refs/tags/latest"]
    [("v1.0.1", 7); ("latest", 9)]
    Demo.tags
    [mkCommit "c1" "feat: add foo"; mkCommit "c2" "Merge pull request #3 from x"]
    [("dist/a.txt", "x"); ("dist/b.txt", "x"); ("LICENSE.txt", "MIT")]
    [] faults.

(** A workflow that keeps releasing the tag [latest]. *)
Definition static_inputs : list (string * string) :=
  [("repo_token", "secret"); ("automatic_release_tag", "latest");
   ("is_tag_static", "true"); ("draft", "false"); ("prerelease", "true");
   ("title", "Development build"); ("files", "dist/*")].

(** A workflow triggered by the push of a tag, or of a branch. *)
Definition push_inputs : list (string * string) :=
  [("repo_token", "secret"); ("is_tag_static", "false"); ("draft", "false");
   ("prerelease", "false"); ("files", "LICENSE.txt")].

Definition static_run : Store Mock.World :=
  Mock.start (world_of static_inputs "refs/heads/main" Mock.no_faults).

Definition tag_push : Store Mock.World :=
  Mock.start (world_of push_inputs "refs/tags/v1.1.0" Mock.no_faults).

Definition branch_push : Store Mock.World :=
  Mock.start (world_of push_inputs "refs/heads/main" Mock.no_faults).

(** A file system that refuses to expand a pattern under a directory
    listed in [mock_unreadable]. *)
Definition guarded_globby (pattern : string) (w : Mock.World) : Result (list string) :=
  if existsb (fun dir => match strip_prefix dir pattern with Some _ => true | None => false end)
             (Mock.mock_unreadable w)
  then Throw (new_Error ("EACCES: permission denied, scandir '" ++ pattern ++ "'"))
  else Mock.mock_globby pattern w.

Definition guarded_platform : Platform Mock.World := {|
  perform := Mock.mock_perform;
  globby := guarded_globby;
  readFileSync := Mock.mock_readFileSync;
  core_getInput := Mock.mock_getInput;
  context_ref := Mock.mock_ref;
  context_sha := Mock.mock_sha;
  context_repo := Mock.mock_context_repo
|}.

(** The demo repository with other inputs, an unknown repository, another
    history, or directories that cannot be listed. *)
Definition world_where (inputs : list (string * string)) (repo : option RepoInfo)
           (commits : list Commit) (unreadable : list string) : Mock.World :=
  Mock.mkWorld inputs "refs/tags/v1.1.0" "abc123" repo
    ["refs/heads/main"; "refs/tags/v1.0.0"; "refs/tags/v1.0.1"]
    [("v1.0.1", 7)]
    Demo.tags commits
    [("dist/a.txt", "x"); ("dist/b.txt", "x"); ("LICENSE.txt", "MIT")]
    unreadable Mock.no_faults.

Definition history : list Commit :=
  [mkCommit "c1" "feat: add foo"; mkCommit "c2" "Merge pull request #3 from x"].

(** The [draft] input is missing. *)
Definition no_draft : Store Mock.World :=
  Mock.start (world_where [("repo_token", "secret"); ("is_tag_static", "false")]
                          (Some Demo.repo) history []).

(** The repository is not known. *)
Definition unknown_repo : Store Mock.World :=
  Mock.start (world_where push_inputs None history []).

(** The second commit has a blank message. *)
Definition blank_message : Store Mock.World :=
  Mock.start (world_where push_inputs (Some Demo.repo)
                          [mkCommit "c1" "feat: add foo"; mkCommit "c2" " "] []).

(** The directory [secrets/] cannot be listed. *)
Definition locked_inputs : list (string * string) :=
  [("repo_token", "secret"); ("is_tag_static", "false"); ("draft", "false");
   ("prerelease", "false"); ("files", "missing" ++ nl ++ "secrets/*" ++ nl ++ "dist/*")].

Definition locked_directory : Store Mock.World :=
  Mock.start (world_where locked_inputs (Some Demo.repo) history ["secrets/"]).
End Scenario.

(** * Vocabulary of the specification *)

(** The paths a pattern matches in a world (none when the expansion
    fails). *)
Definition glob_matches {World} `{Platform World} (w : World) (fileGlob : string)
  : list string :=
  match globby fileGlob w with Ok gpaths => gpaths | Throw _ => [] end.

(** A list without its repetitions, every element at the place of its
    first occurrence. *)
Fixpoint first_seen (l : list string) : list string :=
  match l with
  | [] => []
  | x :: l' => x :: filter (fun y => negb (String.eqb y x)) (first_seen l')
  end.

(** Membership in a list of strings, as a boolean. *)
Definition memb (x : string) (l : list string) : bool :=
  if in_dec string_dec x l then true else false.

(** Text that [semverValid] yields: a normalised version. *)
Definition isVersion `{SemVer} (v : string) : Prop :=
  exists s, semverValid s = Some v.

(** What the tag resolver relies on: on versions, [semverCompare] is a
    total preorder (semver's precedence). *)
Class SemVerOrder `{SemVer} : Prop := {
  semverCompare_antisym : forall a b,
    isVersion a -> isVersion b -> semverCompare b a = CompOpp (semverCompare a b);
  semverCompare_trans : forall a b c,
    isVersion a -> isVersion b -> isVersion c ->
    semverCompare a b <> Gt -> semverCompare b c <> Gt -> semverCompare a c <> Gt
}.

(** A tag whose name is a version strictly less than [currentReleaseTag]. *)
Definition older_than `{SemVer} (currentReleaseTag : string) (tag : Tag) : Prop :=
  exists v, semverValid (tag_name tag) = Some v /\ semverLt v currentReleaseTag = true.

(** Both names are versions and the first does not come after the second
    in semver's precedence. *)
Definition not_newer `{SemVer} (tag' tag : Tag) : Prop :=
  exists v' v, semverValid (tag_name tag') = Some v'
               /\ semverValid (tag_name tag) = Some v
               /\ semverCompare v' v <> Gt.

(** The tags of a listing whose name is a version. *)
Definition version_tags `{SemVer} (tl : list Tag) : list Tag :=
  filter (fun tag => match semverValid (tag_name tag) with Some _ => true | None => false end)
         tl.

(** The platform calls of a trace, in the order they were made. *)
Definition calls (ev : list Event) : list Call :=
  flat_map (fun e => match e with Called c => [c] | _ => [] end) ev.

(** An event other than [setFailed]. *)
Definition unfailed (e : Event) : Prop :=
  match e with
  | Core (SetFailed _) => False
  | _ => True
  end.

(** The claim that the phase deleting the previous release lets a failure
    other than not-found through: a lookup rejected with a status that is
    not 404 makes [deletePreviousGitHubRelease] raise that error. *)
Definition transport_failure_is_fatal : Prop :=
  forall (World : Type) (platform : Platform World)
         (releaseInfo : ReposGetReleaseByTagParams) (s : Store World) (e : Error) (w' : World),
    perform (Repos_getReleaseByTag releaseInfo) (world s) = (Throw e, w') ->
    err_status e <> Some 404 ->
    exists s', Main.deletePreviousGitHubRelease releaseInfo s = (Throw e, s').

(** [a] may stand before [b] in an array sorted with [comparefn]. *)
Definition before {A} (comparefn : A -> A -> comparison) (a b : A) : Prop :=
  comparefn a b <> Gt.

(** ** The phases of a run and the calls each makes *)
Inductive Phase : Type :=
| Initializing
| ResolvingTags
| FetchingCommits
| GeneratingChangelog
| CreatingTag
| DeletingPreviousRelease
| CreatingRelease
| Uploading.

Definition phase_of (c : Call) : Phase :=
  match c with
  | DumpGitHubEventPayload => Initializing
  | Paginate_listTags _ => ResolvingTags
  | Git_getRef _ | Repos_compareCommits _ => FetchingCommits
  | Repos_listPullRequestsAssociatedWithCommit _ => GeneratingChangelog
  | Git_createTag _ | Git_createRef _ | Git_updateRef _ => CreatingTag
  | Repos_getReleaseByTag _ | Repos_deleteRelease _ => DeletingPreviousRelease
  | Repos_createRelease _ => CreatingRelease
  | UploadReleaseArtifacts _ _ => Uploading
  end.


(** The calls whose failure the code catches where it makes them. *)
Definition recoverable (c : Call) : bool :=
  match c with
  | Git_createRef _ | Repos_getReleaseByTag _ | Repos_deleteRelease _
  | Git_getRef _ | Repos_compareCommits _ => true
  | _ => false
  end.


(** A rejection is [benign] when the call is one of the recoverable. *)
Definition benign (e : Event) : Prop :=
  match e with
  | Rejected c _ => recoverable c = true
  | _ => True
  end.



(** The rejections of the calls that are not recoverable decide the
    result. *)
Definition fatal {A} (r : Result A) (ev : list Event) : Prop :=
  forall c e, In (Rejected c e) ev -> recoverable c = false -> r = Throw e.

(** The commits of a comparison, none when it failed. *)
Definition commits_of (compared : Result (list Commit)) : list Commit :=
  match compared with
  | Ok commits => commits
  | Throw _ => []
  end.


(** The three requests of [createReleaseTag]. *)
Definition tag_object_request (refInfo : GitCreateRefParams) (message : string) : Call :=
  Git_createTag
    (mkGitCreateTagParams (cr_repo refInfo) (substring_from 10 (cr_ref refInfo)) message
                          (cr_sha refInfo) "commit").

(** The creation of the reference, pointing at the tag object. *)
Definition ref_request (refInfo : GitCreateRefParams) (tagSha : string) : Call :=
  Git_createRef (mkGitCreateRefParams (cr_repo refInfo) (cr_ref refInfo) tagSha).

(** The forced update of the existing reference. *)
Definition ref_update (refInfo : GitCreateRefParams) (tagSha : string) : Call :=
  Git_updateRef
    (mkGitUpdateRefParams (cr_repo refInfo) (substring_from 5 (cr_ref refInfo)) tagSha true).

(** ** What a computation adds to the trace *)
Section TraceVocabulary.
Context {World : Type} `{Platform World}.

(** The annotations of the patterns that match nothing, in input order. *)
Definition diagnostics (w : World) (files : list string) : list Event :=
  map (fun fileGlob => Core (ErrorAnnotation (fileGlob ++ " doesn't match any files")))
      (filter (fun fileGlob => Nat.eqb (List.length (glob_matches w fileGlob)) 0) files).

(** One turn of the loop on the paths gathered so far. *)
Definition gather (w : World) (paths : list string) (fileGlob : string) : list string :=
  let gpaths := glob_matches w fileGlob in
  if Nat.eqb (List.length gpaths) 0 then paths else Files.new_Set (paths ++ gpaths).

(** Every pattern of [files] can be expanded. *)
Definition expands (w : World) (files : list string) : Prop :=
  forall fileGlob, In fileGlob files -> exists gpaths, globby fileGlob w = Ok gpaths.

(** [emits Q m]: whenever [m] runs, the trace grows by some events [ev],
    and [Q] holds of the result and [ev]. *)
Definition emits {A} (Q : Result A -> list Event -> Prop) (m : M World A) : Prop :=
  forall s r s', m s = (r, s') -> exists ev, trace s' = (trace s ++ ev)%list /\ Q r ev.

(** [all P m]: every event [m] adds satisfies [P]. *)
Definition all {A} (P : Event -> Prop) (m : M World A) : Prop :=
  emits (fun _ ev => Forall P ev) m.


(** [propagates m]: a rejection of a call that is not recoverable is the
    result of [m]. *)
Definition propagates {A} (m : M World A) : Prop := emits (@fatal A) m.

(** What [createReleaseTag] does, by the answers it gets. *)
Definition tag_outcome (refInfo : GitCreateRefParams) (message : string) (w : World)
           (r : Result unit) (made : list Call) : Prop :=
  match perform (tag_object_request refInfo message) w with
  | (Throw e, _) =>
      r = Throw e /\ made = [tag_object_request refInfo message]
  | (Ok tagSha, w1) =>
      match perform (ref_request refInfo tagSha) w1 with
      | (Ok _, _) =>
          r = Ok tt
          /\ made = [tag_object_request refInfo message; ref_request refInfo tagSha]
      | (Throw _, w2) =>
          r = fst (perform (ref_update refInfo tagSha) w2)
          /\ made = [tag_object_request refInfo message; ref_request refInfo tagSha;
                     ref_update refInfo tagSha]
      end
  end.
End TraceVocabulary.

(** ** The checksum block *)
Section ChecksumVocabulary.
Context {World : Type} `{Platform World} `{Packages}.

(** The line of the checksum block for a file with the given content. *)
Definition checksum_line (buffer : list Byte.byte) (filePath : string) : string :=
  sha256_hex buffer ++ "  " ++ path_basename filePath ++ nl.

(** [lines] are the lines of [paths], one each and in the same order. *)
Definition lines_of (w : World) (paths lines : list string) : Prop :=
  Forall2 (fun filePath line =>
             exists buffer, readFileSync filePath w = Ok buffer
                            /\ line = checksum_line buffer filePath)
          paths lines.

(** Every path of [paths] can be read. *)
Definition readable (w : World) (paths : list string) : Prop :=
  forall filePath, In filePath paths -> exists buffer, readFileSync filePath w = Ok buffer.

(** The error of reading the first path that cannot be read. *)
Fixpoint first_unreadable (w : World) (paths : list string) : option Error :=
  match paths with
  | [] => None
  | filePath :: rest =>
      match readFileSync filePath w with
      | Ok _ => first_unreadable w rest
      | Throw e => Some e
      end
  end.

(** The loop of [getChecksums] on the markdown written so far. *)
Definition checksum_loop (paths : list string) (markdown : string) : M World string :=
  for_of paths (fun markdown filePath =>
    buffer <- read_result (readFileSync filePath) ;;
    let checksum := sha256_hex buffer in
    ret (markdown ++ checksum ++ "  " ++ path_basename filePath ++ nl)) markdown.
End ChecksumVocabulary.

(** ** The scan of the tag listing *)
Section TagVocabulary.
Context `{SemVer}.

(** The callbacks of the resolver's [map], [filter] and [sort]. *)
Definition with_semverTag (tag : Tag) : Main.SemverTagged :=
  Main.mkSemverTagged tag (semverValid (tag_name tag)).

Definition has_semverTag (tag : Main.SemverTagged) : bool :=
  match Main.semverTag tag with Some _ => true | None => false end.

Definition newest_first (a b : Main.SemverTagged) : comparison :=
  semverRcompare (Main.version_of a) (Main.version_of b).

(** The listing as the resolver scans it. *)
Definition scanned (tl : list Tag) : list Main.SemverTagged :=
  Array_sort newest_first (filter has_semverTag (map with_semverTag tl)).

(** An entry that carries a version. *)
Definition versioned (t : Main.SemverTagged) : Prop :=
  exists v, Main.semverTag t = Some v /\ isVersion v.
End TagVocabulary.

(** ** The commit range *)
Section CommitVocabulary.
Context `{Helpers}.

(** The base of the comparison: the tag the reference names when the
    reference was found, HEAD when the lookup failed. *)
Definition comparison_base (tagInfo : GitGetRefParams) (found : Result unit) : string :=
  match found with
  | Ok _ => parseGitTag (gr_ref tagInfo)
  | Throw _ => "HEAD"
  end.
End CommitVocabulary.

(** ** The inputs, the changelog and the run as a whole *)

(** A character of a string. *)
Definition has_char (c : ascii) (s : string) : Prop := In c (list_ascii_of_string s).

(** The pull-request lookup [getChangelog] makes for a commit. *)
Definition pulls_request (owner repo : string) (commit : Commit) : Call :=
  Repos_listPullRequestsAssociatedWithCommit
    (mkListPullRequestsParams (mkRepoInfo owner repo) (commit_sha commit)).

(** A commit whose message the parser accepts. *)
Definition parses `{Helpers} (commit : Commit) : Prop :=
  exists parsedCommitMsg,
    commitParser (commit_message commit) getChangelogOptions = Ok parsedCommitMsg.

(** What a commit and the pull requests found for it add to the parsed
    commits: nothing for a merge commit, the parsed message with its
    [extra] for any other (and nothing when the parser refuses the
    message). *)
Definition changelog_entry `{Helpers} (commit : Commit) (pulls : list PullRequest)
  : list ParsedCommits :=
  match commitParser (commit_message commit) getChangelogOptions with
  | Throw _ => []
  | Ok parsedCommitMsg =>
      match pc_merge parsedCommitMsg with
      | Some (String _ _) => []
      | _ =>
          [mkParsedCommits parsedCommitMsg
             (mkExtra commit
                (map (fun pr => mkPullRequestLink (pr_number pr) (pr_html_url pr)) pulls)
                (isBreakingChange (pc_body parsedCommitMsg) (pc_footer parsedCommitMsg)))]
      end
  end.

(** The parsed commits of a history, given what was found for each
    commit. *)
Definition changelog_entries `{Helpers} (found : list (Commit * list PullRequest))
  : list ParsedCommits :=
  flat_map (fun cp => changelog_entry (fst cp) (snd cp)) found.

(** The calls of a trace that create a release. *)
Definition releases (ev : list Event) : list Call :=
  filter (fun c => match c with Repos_createRelease _ => true | _ => false end) (calls ev).

(** The events a run of [main] ends with when it returns. *)
Definition published (p : ReposCreateReleaseParams) (uploadUrl : string)
           (paths : list string) : list Event :=
  [Core (StartGroup ("Generating new GitHub release for the " ++ dquote
                     ++ nr_tag_name p ++ dquote ++ " tag"));
   Core (Info "Creating new release");
   Called (Repos_createRelease p);
   Core EndGroup;
   Called (UploadReleaseArtifacts uploadUrl paths);
   Core (Debug ("Exporting environment variable AUTOMATIC_RELEASES_TAG with value "
                ++ nr_tag_name p));
   Core (ExportVariable "AUTOMATIC_RELEASES_TAG" (nr_tag_name p));
   Core (SetOutput "automatic_releases_tag" (nr_tag_name p));
   Core (SetOutput "upload_url" uploadUrl)].


(** An event of a run without an explicit tag: no call that creates or
    moves a tag, none that looks up or deletes a release. *)
Definition untagged_event (e : Event) : Prop :=
  match e with
  | Called c => phase_of c <> CreatingTag /\ phase_of c <> DeletingPreviousRelease
  | _ => True
  end.

(** A call of [createReleaseTag] for the tag [tag] of [repo]: the tag
    object is named [tag], the reference created is [refs/tags/<tag>], the
    reference updated is [tags/<tag>], with force. *)
Definition names_tag (repo : RepoInfo) (tag : string) (c : Call) : Prop :=
  match c with
  | Git_createTag p => ct_repo p = repo /\ ct_tag p = tag /\ ct_type p = "commit"
  | Git_createRef p => cr_repo p = repo /\ cr_ref p = "refs/tags/" ++ tag
  | Git_updateRef p => ur_repo p = repo /\ ur_ref p = "tags/" ++ tag /\ ur_force p = true
  | _ => False
  end.

(** A reference is set to [sha]. *)
Definition points_at (sha : string) (c : Call) : Prop :=
  match c with
  | Git_createRef p => cr_sha p = sha
  | Git_updateRef p => ur_sha p = sha
  | _ => True
  end.

(** An event that sets an output of the action or exports a variable. *)
Definition sets_output (e : Event) : Prop :=
  match e with
  | Core (SetOutput _ _) | Core (ExportVariable _ _) => True
  | _ => False
  end.

(** An event that neither creates a release nor sets an output. *)
Definition quiet (e : Event) : Prop :=
  match e with
  | Called (Repos_createRelease _) => False
  | _ => ~ sets_output e
  end.

(** What the [try] block of [main] adds to the trace: at most one creation
    of a release; when it returns, quiet events and then the events of
    [published], for a release whose tag and name are not empty; when it
    raises, no output. *)
Definition outcome (r : Result unit) (ev : list Event) : Prop :=
  length (releases ev) <= 1
  /\ match r with
     | Ok _ =>
         exists ev0 p uploadUrl paths,
           ev = (ev0 ++ published p uploadUrl paths)%list
           /\ Forall quiet ev0
           /\ nr_tag_name p <> EmptyString /\ nr_name p <> EmptyString
     | Throw _ => Forall (fun e => ~ sets_output e) ev
     end.

(** What a call of a run of [main] takes from the inputs [args]: the tag
    object, the references and the release looked up carry the
    [automatic_release_tag] input, the tag object the [tag_annotation]; a
    release created carries the [draft] and [prerelease] inputs, the
    [title] input as its name, or its own tag when there is no title, and
    the [automatic_release_tag] input as its tag when there is one. *)
Definition forwards (args : Main.Args) (e : Event) : Prop :=
  match e with
  | Called (Git_createTag p) =>
      ct_tag p = Main.automaticReleaseTag args /\ ct_message p = Main.tagAnnotation args
  | Called (Git_createRef p) => cr_ref p = "refs/tags/" ++ Main.automaticReleaseTag args
  | Called (Git_updateRef p) => ur_ref p = "tags/" ++ Main.automaticReleaseTag args
  | Called (Repos_getReleaseByTag p) => rt_tag p = Main.automaticReleaseTag args
  | Called (Repos_createRelease p) =>
      nr_draft p = Main.draftRelease args
      /\ nr_prerelease p = Main.preRelease args
      /\ nr_name p = (if truthy_string (Main.releaseTitle args) then Main.releaseTitle args
                      else nr_tag_name p)
      /\ (Main.automaticReleaseTag args <> EmptyString ->
          nr_tag_name p = Main.automaticReleaseTag args)
  | _ => True
  end.

(** ** The world at a point of a run, and the first event of a kind *)
Section ReplayVocabulary.
Context {World : Type} `{Platform World}.

(** The world after the calls of a trace, made in order from [w]. *)
Definition replay (w : World) (ev : list Event) : World :=
  fold_left (fun w e => match e with Called c => snd (perform c w) | _ => w end) ev w.

(** [tracked m]: the world [m] leaves is the one its calls lead to. *)
Definition tracked {A} (m : M World A) : Prop :=
  forall s r s', m s = (r, s') ->
    exists ev, trace s' = (trace s ++ ev)%list /\ world s' = replay (world s) ev.

(** [finds hit Q m]: in a run of [m] no event is a [hit], or [Q] holds of
    the world the run starts in, the events before the first hit, the
    hit, the events after it and the result. *)
Definition finds {A} (hit : Event -> Prop)
           (Q : World -> list Event -> Event -> list Event -> Result A -> Prop)
           (m : M World A) : Prop :=
  forall s r s', m s = (r, s') ->
    exists ev,
      trace s' = (trace s ++ ev)%list
      /\ (Forall (fun e => ~ hit e) ev
          \/ exists ev1 x ev2,
               ev = (ev1 ++ x :: ev2)%list /\ hit x /\ Forall (fun e => ~ hit e) ev1
               /\ Q (world s) ev1 x ev2 r).

(** [Q] may be moved over events that satisfy [P]. *)
Definition stable {A} (P : Event -> Prop)
           (Q : World -> list Event -> Event -> list Event -> Result A -> Prop) : Prop :=
  forall w ev ev1 x ev2 r,
    Forall P ev -> Q (replay w ev) ev1 x ev2 r -> Q w (ev ++ ev1)%list x ev2 r.
End ReplayVocabulary.

(** ** What decides the result at the points of a run of [main] *)
(** The opening of the group [name]. *)
Definition opens (name : string) (e : Event) : Prop := e = Core (StartGroup name).

Section PathsVocab.
Context {World : Type} `{Platform World}.

(** At the opening of the group that gathers the artifact paths: a
    pattern that cannot be expanded, the patterns before it expanding, and
    a path that cannot be read, decide the result. *)
Definition files_decide (files : list string) (w : World) (r : Result unit) : Prop :=
  (forall before fileGlob after e,
     files = (before ++ fileGlob :: after)%list ->
     expands w before -> globby fileGlob w = Throw e -> r = Throw e)
  /\ (expands w files ->
      forall e, first_unreadable w (first_seen (flat_map (glob_matches w) files)) = Some e ->
                r = Throw e).
End PathsVocab.

Section TagsVocab.
Context {World : Type} `{Platform World} `{SemVer} `{Helpers}.

(** At the opening of the group that determines the release tags: a
    release tag that is empty, a repository that is not known, and a
    release tag that is no version when the previous tag is searched for,
    decide the result. *)
Definition tag_decides (args : Main.Args) (w : World) (r : Result unit) : Prop :=
  let releaseTag :=
    if truthy_string (Main.automaticReleaseTag args) then Main.automaticReleaseTag args
    else parseGitTag (context_ref w) in
  (releaseTag = EmptyString ->
   r = Throw (new_Error
                ("The parameter " ++ dquote ++ "automatic_release_tag" ++ dquote
                 ++ " was not set and this does not appear to be a GitHub tag event. (Event: "
                 ++ context_ref w ++ ")")))
  /\ (releaseTag <> EmptyString -> forall e, context_repo w = Throw e -> r = Throw e)
  /\ (releaseTag <> EmptyString ->
      (exists repoInfo, context_repo w = Ok repoInfo) ->
      truthy (Main.isTagStatic args) = false ->
      semverValid releaseTag = None ->
      r = Throw (new_Error "Cannot find previous release tag because the tag does not appear to conform to semantic versioning.")).
End TagsVocab.

(** A comparison of commits. *)
Definition compares (e : Event) : Prop :=
  match e with Called (Repos_compareCommits _) => True | _ => False end.

Section ParserVocab.
Context {World : Type} `{Platform World} `{Helpers}.

(** At the first comparison of commits: a commit of its answer whose
    message the parser refuses, the messages before it being accepted,
    decides the result, unless a lookup of pull requests is rejected. *)
Definition parser_decides (w : World) (x : Event) (ev2 : list Event) (r : Result unit)
  : Prop :=
  forall q commits before failing after e,
    x = Called (Repos_compareCommits q) ->
    fst (perform (Repos_compareCommits q) w) = Ok commits ->
    commits = (before ++ failing :: after)%list ->
    Forall parses before ->
    commitParser (commit_message failing) getChangelogOptions = Throw e ->
    (forall p e', ~ In (Rejected (Repos_listPullRequestsAssociatedWithCommit p) e') ev2) ->
    r = Throw e.
End ParserVocab.

(** The creation of a release. *)
Definition creates_release (e : Event) : Prop :=
  match e with Called (Repos_createRelease _) => True | _ => False end.


Section DeleteVocab.
Context {World : Type} `{Platform World}.


End DeleteVocab.

Section UploadVocab.
Context {World : Type} `{Platform World}.

(** In a run that returns, at the creation of the release: the upload URL
    the artifacts are sent to is the one the creation answered with, and
    the paths uploaded are those the patterns of [files] matched when the
    group of the artifact paths was opened. *)
Definition uploads (files : list string) (w : World) (ev1 : list Event) (x : Event)
           (ev2 : list Event) (r : Result unit) : Prop :=
  forall u p url paths rest,
    r = Ok u -> x = Called (Repos_createRelease p) ->
    ev2 = (Core EndGroup :: Called (UploadReleaseArtifacts url paths) :: rest)%list ->
    fst (perform (Repos_createRelease p) (replay w ev1)) = Ok url
    /\ exists ev_a ev_b,
         ev1 = (ev_a ++ Core (StartGroup "Getting artifact paths from file globs") :: ev_b)%list
         /\ expands (replay w ev_a) files
         /\ paths = first_seen (flat_map (glob_matches (replay w ev_a)) files).

(** The same once the paths are known. *)
Definition uploads_paths (artifactPaths : list string) (w : World) (ev1 : list Event)
           (x : Event) (ev2 : list Event) (r : Result unit) : Prop :=
  forall u p url paths rest,
    r = Ok u -> x = Called (Repos_createRelease p) ->
    ev2 = (Core EndGroup :: Called (UploadReleaseArtifacts url paths) :: rest)%list ->
    fst (perform (Repos_createRelease p) (replay w ev1)) = Ok url
    /\ paths = artifactPaths.
End UploadVocab.

(** The error of the first failure in a list of outcomes. *)
Fixpoint first_error (rs : list (Result unit)) : option Error :=
  match rs with
  | [] => None
  | Ok _ :: rest => first_error rest
  | Throw e :: _ => Some e
  end.

(** An outcome without its value. *)
Definition void {A} (r : Result A) : Result unit :=
  match r with Ok _ => Ok tt | Throw e => Throw e end.

Section InputVocab.
Context {World : Type} `{Platform World} `{Packages}.

(** Reading the input [name] as JSON. *)
Definition json_input (name : string) (required : bool) (w : World) : Result unit :=
  match core_getInput name required w with
  | Ok text => void (JSON_parse text)
  | Throw e => Throw e
  end.

(** What the action reads of its inputs, in the order of
    [getAndValidateArgs]. *)
Definition input_reads (w : World) : list (Result unit) :=
  [void (core_getInput "repo_token" true w);
   void (core_getInput "automatic_release_tag" false w);
   json_input "is_tag_static" false w;
   json_input "draft" true w;
   json_input "prerelease" true w;
   void (core_getInput "title" false w);
   void (core_getInput "tag_annotation" false w);
   void (core_getInput "files" false w)].
End InputVocab.



(** A report of a [catch] block. *)
Definition notes (e : Event) : Prop :=
  match e with Core (Info _) | Core (Warning _) => True | _ => False end.

(** Every rejection of a recoverable call is followed at once by the
    report of the [catch] block that took it. *)
Fixpoint handled (ev : list Event) : Prop :=
  match ev with
  | [] => True
  | Rejected c _ :: rest =>
      (recoverable c = true -> match rest with x :: _ => notes x | [] => False end)
      /\ handled rest
  | _ :: rest => handled rest
  end.

(** An event that is not the rejection of a recoverable call. *)
Definition settled (e : Event) : Prop :=
  match e with Rejected c _ => recoverable c = false | _ => True end.

(** The first event of a trace that passes a test, with the events before
    it and the events after it. *)
Fixpoint split_at (test : Event -> bool) (ev : list Event)
  : option (list Event * Event * list Event) :=
  match ev with
  | [] => None
  | e :: rest =>
      if test e then Some ([], e, rest)
      else match split_at test rest with
           | Some (before, x, after) => Some (e :: before, x, after)
           | None => None
           end
  end.

Definition is_group (name : string) (e : Event) : bool :=
  match e with Core (StartGroup n) => String.eqb n name | _ => false end.

Definition is_compare (e : Event) : bool :=
  match e with Called (Repos_compareCommits _) => true | _ => false end.


(** * Properties *)

(** ** The monad *)
Section MonadFacts.
Context {World : Type}.

Lemma bind_Throw {A B} (m : M World A) (k : A -> M World B) s e s' :
  m s = (Throw e, s') -> bind m k s = (Throw e, s').
Proof. intros E. unfold bind. now rewrite E. Qed.

Lemma try_catch_Throw {A} (m : M World A) h s e s' :
  m s = (Throw e, s') -> try_catch m h s = h e s'.
Proof. intros E. unfold try_catch. now rewrite E. Qed.

Lemma core_run (e : CoreEvent) (s : Store World) :
  core e s = (Ok tt, mkStore (world s) (trace s ++ [Core e])).
Proof. reflexivity. Qed.
End MonadFacts.

(** ** Insertion-ordered sets and first occurrences *)
Section FirstSeen.
Lemma memb_true x l : memb x l = true <-> In x l.
Proof. unfold memb. destruct (in_dec string_dec x l); split; intros; congruence || auto. Qed.

Lemma memb_false x l : memb x l = false <-> ~ In x l.
Proof. unfold memb. destruct (in_dec string_dec x l); split; intros; congruence || auto. Qed.

Lemma filter_comm {A} (p q : A -> bool) l :
  filter p (filter q l) = filter q (filter p l).
Proof.
  induction l as [|a l IH]; simpl; auto.
  destruct (q a) eqn:Q, (p a) eqn:P; simpl; rewrite ?Q, ?P, IH; reflexivity.
Qed.

Lemma filter_idem {A} (p : A -> bool) l : filter p (filter p l) = filter p l.
Proof.
  induction l as [|a l IH]; simpl; auto.
  destruct (p a) eqn:P; simpl; rewrite ?P, IH; reflexivity.
Qed.

Lemma filter_drop_rejected (p : string -> bool) a l :
  p a = false ->
  filter p (filter (fun y => negb (String.eqb y a)) l) = filter p l.
Proof.
  intros Pa. induction l as [|y l IH]; simpl; auto.
  destruct (String.eqb y a) eqn:E; simpl.
  - apply String.eqb_eq in E. subst y. now rewrite Pa.
  - now rewrite IH.
Qed.

Lemma first_seen_filter p l : first_seen (filter p l) = filter p (first_seen l).
Proof.
  induction l as [|a l IH]; simpl; auto.
  destruct (p a) eqn:P; simpl.
  - rewrite IH. f_equal. apply filter_comm.
  - rewrite IH. symmetry. now apply filter_drop_rejected.
Qed.

Lemma first_seen_In x l : In x (first_seen l) <-> In x l.
Proof.
  induction l as [|a l IH]; simpl; [tauto|].
  rewrite filter_In, IH.
  destruct (String.eqb x a) eqn:E.
  - apply String.eqb_eq in E. subst. simpl. intuition congruence.
  - apply String.eqb_neq in E. simpl. intuition congruence.
Qed.

Lemma first_seen_NoDup l : NoDup (first_seen l).
Proof.
  induction l as [|a l IH]; simpl; constructor.
  - rewrite filter_In. intros [_ E]. now rewrite String.eqb_refl in E.
  - now apply NoDup_filter.
Qed.

Lemma first_seen_idem l : first_seen (first_seen l) = first_seen l.
Proof.
  induction l as [|a l IH]; simpl; auto.
  now rewrite first_seen_filter, IH, filter_idem.
Qed.

Lemma memb_snoc y acc x : memb y (acc ++ [x]) = memb y acc || String.eqb y x.
Proof.
  destruct (memb y acc) eqn:My; simpl.
  - apply memb_true. apply memb_true in My. apply in_or_app. now left.
  - apply memb_false in My. destruct (String.eqb y x) eqn:E.
    + apply String.eqb_eq in E. subst. apply memb_true, in_or_app. right. now left.
    + apply String.eqb_neq in E. apply memb_false. intros I.
      apply in_app_or in I. destruct I as [I|[I|[]]]; [contradiction|congruence].
Qed.

(** Adding a run of values to an insertion-ordered set appends the new
    ones, each once, in the order they first come. *)
Lemma fold_Set_add xs : forall acc,
  fold_left Files.Set_add xs acc
  = (acc ++ first_seen (filter (fun x => negb (memb x acc)) xs))%list.
Proof.
  induction xs as [|x xs IH]; intros acc; simpl.
  - now rewrite app_nil_r.
  - unfold Files.Set_add at 2. unfold memb at 1.
    destruct (in_dec string_dec x acc) as [I|N]; simpl.
    + apply IH.
    + rewrite IH, <- app_assoc. simpl. do 2 f_equal.
      rewrite <- first_seen_filter. f_equal.
      clear IH. induction xs as [|y xs IH]; simpl; auto.
      rewrite memb_snoc.
      destruct (memb y acc) eqn:My; simpl; [apply IH|].
      destruct (String.eqb y x) eqn:E; simpl; [apply IH|].
      f_equal. apply IH.
Qed.

Lemma new_Set_first_seen l : Files.new_Set l = first_seen l.
Proof.
  unfold Files.new_Set. rewrite fold_Set_add. simpl. f_equal.
  induction l as [|a l IH]; simpl; auto. now rewrite IH.
Qed.

Lemma first_seen_app a b :
  first_seen (a ++ b) = fold_left Files.Set_add b (first_seen a).
Proof.
  rewrite <- !new_Set_first_seen. unfold Files.new_Set. apply fold_left_app.
Qed.

Lemma first_seen_app_l a b : first_seen (first_seen a ++ b) = first_seen (a ++ b).
Proof. now rewrite !first_seen_app, first_seen_idem. Qed.

(** The place of a value in [first_seen]: behind the distinct values
    that come before its first occurrence. *)
Lemma first_seen_position l1 p l2 :
  ~ In p l1 ->
  exists r, first_seen (l1 ++ p :: l2) = (first_seen l1 ++ p :: r)%list.
Proof.
  intros N. rewrite first_seen_app. simpl.
  assert (E : Files.Set_add (first_seen l1) p = (first_seen l1 ++ [p])%list).
  { unfold Files.Set_add.
    destruct (in_dec string_dec p (first_seen l1)) as [I|_]; [|reflexivity].
    apply -> first_seen_In in I. contradiction. }
  rewrite E, fold_Set_add, <- app_assoc. simpl. eauto.
Qed.
End FirstSeen.

(** ** src/files.ts: getPaths *)
Section FilesProperties.
Context {World : Type} `{Platform World}.

Lemma getPaths_loop files : forall acc s,
  expands (world s) files ->
  for_of files (fun paths fileGlob =>
    gpaths <- read_result (globby fileGlob) ;;
    if Nat.eqb (List.length gpaths) 0 then
      core (ErrorAnnotation (fileGlob ++ " doesn't match any files")) ;;
      ret paths
    else
      ret (Files.new_Set (paths ++ gpaths))) acc s
  = (Ok (fold_left (gather (world s)) files acc),
     mkStore (world s) (trace s ++ diagnostics (world s) files)).
Proof.
  induction files as [|g files IH]; intros acc s E.
  - simpl. unfold ret, diagnostics. simpl. rewrite app_nil_r. now destruct s.
  - destruct (E g (or_introl eq_refl)) as [ms G].
    assert (E' : expands (world s) files) by (intros g' I; apply E; now right).
    cbn [for_of fold_left]. unfold bind at 1, bind at 1, read_result at 1.
    rewrite G. unfold gather at 2, diagnostics, glob_matches. cbn [filter]. rewrite G.
    destruct (Nat.eqb (List.length ms) 0) eqn:Z.
    + unfold bind at 1. rewrite core_run. unfold ret at 1.
      rewrite IH by exact E'. cbn [world trace map]. unfold diagnostics, glob_matches.
      now rewrite <- app_assoc.
    + unfold ret at 1. rewrite IH by exact E'. reflexivity.
Qed.

Lemma gather_first_seen w files : forall seen,
  fold_left (gather w) files (first_seen seen)
  = first_seen (seen ++ flat_map (glob_matches w) files).
Proof.
  induction files as [|g files IH]; intros seen; simpl.
  - now rewrite app_nil_r.
  - unfold gather at 2.
    destruct (glob_matches w g) as [|m ms] eqn:G; simpl.
    + apply IH.
    + rewrite new_Set_first_seen, first_seen_app_l, IH, <- app_assoc. reflexivity.
Qed.

(** What a run of [getPaths] returns and leaves in the trace. *)
Lemma getPaths_run files s :
  expands (world s) files ->
  Files.getPaths files s
  = (Ok (first_seen (flat_map (glob_matches (world s)) files)),
     mkStore (world s)
       (trace s
        ++ [Core (StartGroup "Getting artifact paths from file globs")]
        ++ diagnostics (world s) files
        ++ [Core (Debug ("Artifact paths: "
               ++ Array_toString (first_seen (flat_map (glob_matches (world s)) files))));
            Core EndGroup])).
Proof.
  intros E. unfold Files.getPaths.
  unfold bind at 1. rewrite core_run.
  unfold bind at 1. rewrite getPaths_loop by exact E. cbn [world trace].
  change (@nil string) with (first_seen []). rewrite gather_first_seen. cbn [app].
  unfold bind at 1. rewrite core_run. unfold bind at 1. rewrite core_run.
  unfold ret. cbn [world trace]. repeat rewrite <- app_assoc. reflexivity.
Qed.
End FilesProperties.

Section FilesClaims.
Context {World : Type} `{Platform World}.

(** C6: for every list of glob patterns (each of which the file system
    can expand), [getPaths] returns, without raising and without marking
    the run failed, the duplicate-free union of what the patterns match,
    each pattern expanded on its own; a pattern that matches no file
    contributes no path and leaves an error annotation in the trace. *)
Theorem getPaths_deduplicated_union (files : list string) (s : Store World) :
  expands (world s) files ->
  exists paths events,
    Files.getPaths files s = (Ok paths, mkStore (world s) (trace s ++ events))
    /\ NoDup paths
    /\ (forall p, In p paths <->
                  exists fileGlob, In fileGlob files /\ In p (glob_matches (world s) fileGlob))
    /\ (forall fileGlob, In fileGlob files -> glob_matches (world s) fileGlob = [] ->
          In (Core (ErrorAnnotation (fileGlob ++ " doesn't match any files"))) events)
    /\ (forall msg, ~ In (Core (SetFailed msg)) events).
Proof.
  intros E. eexists. eexists. split; [apply getPaths_run; exact E|].
  split; [apply first_seen_NoDup|]. split; [|split].
  - intros p. rewrite first_seen_In, in_flat_map. reflexivity.
  - intros g I Z. right.
    apply (in_or_app (diagnostics (world s) files)). left. unfold diagnostics.
    apply in_map_iff. exists g. split; [reflexivity|].
    apply filter_In. split; [exact I|]. now rewrite Z.
  - intros msg [I|I]; [discriminate|].
    apply (in_app_or (diagnostics (world s) files)) in I.
    destruct I as [I|[I|[I|[]]]]; try discriminate.
    unfold diagnostics in I. apply in_map_iff in I. destruct I as [g [I _]]. discriminate.
Qed.

(** C10: the list [getPaths] returns is in first-seen order: it is the
    concatenation of the patterns' matches, in input order, with every
    path kept at its first occurrence only, so a path stands right behind
    the distinct paths matched before its first match. *)
Theorem getPaths_first_seen_order (files : list string) (s : Store World) :
  expands (world s) files ->
  exists paths s',
    Files.getPaths files s = (Ok paths, s')
    /\ paths = first_seen (flat_map (glob_matches (world s)) files)
    /\ forall before p after,
         flat_map (glob_matches (world s)) files = (before ++ p :: after)%list ->
         ~ In p before ->
         exists rest, paths = (first_seen before ++ p :: rest)%list.
Proof.
  intros E. eexists. eexists. split; [apply getPaths_run; exact E|].
  split; [reflexivity|].
  intros before p after Eq N. rewrite Eq. now apply first_seen_position.
Qed.
End FilesClaims.

Lemma Demo_expands files : @expands _ Mock.platform Demo.world files.
Proof.
  intros g _. unfold globby, Mock.platform, Mock.mock_globby.
  destruct (split_on "*" g) as [|a [|b [|c l]]]; try destruct b; eauto.
Qed.

(** Overlapping patterns and one that matches nothing, on the demo
    repository. *)
Lemma getPaths_deduplicated_union_witness :
  exists paths events,
    @Files.getPaths _ Mock.platform ["dist/*"; "nothing"; "dist/a.txt"; "LICENSE.txt"] Demo.start
    = (Ok paths, mkStore Demo.world events)
    /\ paths = ["dist/a.txt"; "dist/b.txt"; "LICENSE.txt"]
    /\ In (Core (ErrorAnnotation "nothing doesn't match any files")) events.
Proof.
  destruct (@getPaths_deduplicated_union _ Mock.platform
              ["dist/*"; "nothing"; "dist/a.txt"; "LICENSE.txt"] Demo.start
              (Demo_expands _)) as (paths & events & R & _ & _ & D & _).
  exists paths, events. split; [exact R|].
  split.
  - vm_compute in R. now inversion R.
  - apply (D "nothing"); [simpl; tauto | reflexivity].
Defined.

Lemma getPaths_first_seen_order_witness :
  exists s',
    @Files.getPaths _ Mock.platform ["LICENSE.txt"; "dist/*"; "LICENSE.txt"; "dist/b.txt"] Demo.start
    = (Ok ["LICENSE.txt"; "dist/a.txt"; "dist/b.txt"], s').
Proof.
  destruct (@getPaths_first_seen_order _ Mock.platform
              ["LICENSE.txt"; "dist/*"; "LICENSE.txt"; "dist/b.txt"] Demo.start
              (Demo_expands _)) as (paths & s' & R & P & _).
  exists s'. rewrite R, P. reflexivity.
Defined.

(** ** src/sha.ts: getChecksums *)
Section StringFacts.
Lemma append_assoc (a b c : string) : ((a ++ b) ++ c = a ++ (b ++ c))%string.
Proof. induction a as [|x a IH]; simpl; [reflexivity|now rewrite IH]. Qed.

Lemma append_nil_r (a : string) : (a ++ "" = a)%string.
Proof. induction a as [|x a IH]; simpl; [reflexivity|now rewrite IH]. Qed.
End StringFacts.

Section ShaProperties.
Context {World : Type} `{Platform World} `{Packages}.

Lemma checksum_loop_readable paths : forall markdown s,
  readable (world s) paths ->
  exists lines,
    lines_of (world s) paths lines
    /\ checksum_loop paths markdown s
       = (Ok (markdown ++ fold_right String.append "" lines), s).
Proof.
  induction paths as [|p paths IH]; intros markdown s R.
  - exists []. split; [constructor|]. simpl. now rewrite append_nil_r.
  - destruct (R p (or_introl eq_refl)) as [buffer B].
    destruct (IH (markdown ++ checksum_line buffer p) s) as (lines & L & E).
    { intros q I. apply R. now right. }
    exists (checksum_line buffer p :: lines). split.
    + constructor; [exists buffer; auto | exact L].
    + unfold checksum_loop in *. cbn [for_of].
      unfold bind at 1, bind at 1, read_result at 1. rewrite B. unfold ret at 1.
      unfold checksum_line in E. rewrite E. cbn [fold_right].
      now rewrite append_assoc.
Qed.

Lemma checksum_loop_unreadable paths : forall markdown s e,
  first_unreadable (world s) paths = Some e ->
  checksum_loop paths markdown s = (Throw e, s).
Proof.
  induction paths as [|p paths IH]; intros markdown s e F; [discriminate|].
  unfold checksum_loop in *. cbn [for_of first_unreadable] in *.
  unfold bind at 1, bind at 1, read_result at 1.
  destruct (readFileSync p (world s)) as [buffer|e'].
  - unfold ret at 1. now apply IH.
  - now inversion F.
Qed.

Lemma first_unreadable_exists w paths filePath e :
  In filePath paths -> readFileSync filePath w = Throw e ->
  exists e', first_unreadable w paths = Some e'.
Proof.
  induction paths as [|p paths IH]; intros I R; [destruct I|]. simpl.
  destruct (readFileSync p w) as [buffer|e'] eqn:P; [|eauto].
  destruct I as [->|I]; [congruence|auto].
Qed.

(** [getChecksums] never takes its early return: a length is not
    negative. *)
Lemma getChecksums_unfold paths :
  Sha.getChecksums paths
  = (core (StartGroup "Generating checksums for artifacts") ;;
     markdown <- checksum_loop paths ("" ++ "## Checksums" ++ nl ++ "sha256" ++ nl ++ "```" ++ nl) ;;
     core EndGroup ;;
     ret (markdown ++ "```")).
Proof. reflexivity. Qed.
End ShaProperties.

Section ShaClaims.
Context {World : Type} `{Platform World} `{Packages}.

Lemma lines_of_In w paths lines filePath buffer :
  lines_of w paths lines -> In filePath paths -> readFileSync filePath w = Ok buffer ->
  In (checksum_line buffer filePath) lines.
Proof.
  induction 1 as [|p line paths lines (b & B & ->) _ IH]; intros I R; [destruct I|].
  destruct I as [->|I]; [left; congruence | right; auto].
Qed.

(** C2, on the code: for the empty list of paths [getChecksums] does
    render a section, the heading and an empty fenced block, because its
    early return asks for a negative length. *)
Theorem getChecksums_no_paths (s : Store World) :
  Sha.getChecksums [] s
  = (Ok ("## Checksums" ++ nl ++ "sha256" ++ nl ++ "```" ++ nl ++ "```"),
     mkStore (world s)
       (trace s ++ [Core (StartGroup "Generating checksums for artifacts"); Core EndGroup])).
Proof.
  unfold Sha.getChecksums. cbn. unfold bind, core, ret. cbn.
  now rewrite <- app_assoc.
Qed.

(** C5: for every non-empty list of readable paths, [getChecksums]
    returns the heading "## Checksums", the line "sha256" and a fenced
    block holding exactly one line per path, in order, each the SHA-256
    hex digest of the file's content, two spaces and the path's basename;
    files with the same content get the same digest, each under its own
    basename. *)
Theorem getChecksums_block (paths : list string) (s : Store World) :
  paths <> [] ->
  readable (world s) paths ->
  exists lines,
    Sha.getChecksums paths s
    = (Ok ("## Checksums" ++ nl ++ "sha256" ++ nl ++ "```" ++ nl
           ++ fold_right String.append "" lines ++ "```"),
       mkStore (world s)
         (trace s ++ [Core (StartGroup "Generating checksums for artifacts");
                      Core EndGroup]))
    /\ lines_of (world s) paths lines
    /\ List.length lines = List.length paths
    /\ forall p q buffer,
         In p paths -> In q paths ->
         readFileSync p (world s) = Ok buffer ->
         readFileSync q (world s) = Ok buffer ->
         In (sha256_hex buffer ++ "  " ++ path_basename p ++ nl) lines
         /\ In (sha256_hex buffer ++ "  " ++ path_basename q ++ nl) lines.
Proof.
  intros _ R.
  set (s1 := mkStore (world s)
               (trace s ++ [Core (StartGroup "Generating checksums for artifacts")])).
  destruct (@checksum_loop_readable _ _ _ paths
              ("" ++ "## Checksums" ++ nl ++ "sha256" ++ nl ++ "```" ++ nl) s1 R)
    as (lines & L & E).
  exists lines. split; [|split; [exact L|split]].
  - rewrite getChecksums_unfold. unfold bind at 1. rewrite core_run. fold s1.
    unfold bind at 1. rewrite E. unfold bind at 1. rewrite core_run. unfold ret.
    subst s1. cbn [world trace]. rewrite <- app_assoc. cbn [app].
    rewrite !append_assoc. reflexivity.
  - symmetry. exact (Forall2_length L).
  - intros p q buffer Ip Iq Rp Rq. split; eapply lines_of_In; eauto.
Qed.

(** C9: if a path of the list cannot be read, [getChecksums] raises the
    error of the first such path and catches nothing: whatever was to
    follow it is skipped, and under [main]'s handler the failure is
    reported with [setFailed] and raised again. *)
Theorem getChecksums_unreadable (paths : list string) (s : Store World)
        (filePath : string) (e : Error) :
  In filePath paths ->
  readFileSync filePath (world s) = Throw e ->
  exists e' s',
    first_unreadable (world s) paths = Some e'
    /\ Sha.getChecksums paths s = (Throw e', s')
    /\ (forall B (k : string -> M World B),
          (checksums <- Sha.getChecksums paths ;; k checksums) s = (Throw e', s'))
    /\ (forall k : string -> M World unit,
          try_catch (checksums <- Sha.getChecksums paths ;; k checksums)
                    Main.main_catch s
          = (Throw e', mkStore (world s') (trace s' ++ [Core (SetFailed (err_message e'))]))).
Proof.
  intros I R. destruct (first_unreadable_exists _ _ _ I R) as [e' F].
  set (s1 := mkStore (world s)
               (trace s ++ [Core (StartGroup "Generating checksums for artifacts")])).
  assert (G : Sha.getChecksums paths s = (Throw e', s1)).
  { rewrite getChecksums_unfold. unfold bind at 1. rewrite core_run. fold s1.
    unfold bind at 1. now rewrite (@checksum_loop_unreadable _ _ _ paths _ s1 e' F). }
  exists e', s1. split; [exact F|]. split; [exact G|]. split.
  - intros B k. now apply bind_Throw.
  - intros k. erewrite try_catch_Throw by (apply bind_Throw; exact G).
    reflexivity.
Qed.
End ShaClaims.

(** The two artifacts with the same content, on the demo repository. *)
Lemma getChecksums_block_witness :
  exists lines,
    fst (@Sha.getChecksums _ Mock.platform RefPackages.packages
           ["dist/a.txt"; "dist/b.txt"] Demo.start)
    = Ok ("## Checksums" ++ nl ++ "sha256" ++ nl ++ "```" ++ nl
          ++ fold_right String.append "" lines ++ "```")
    /\ List.length lines = 2
    /\ In ("2d711642b726b04401627ca9fbac32f5c8530fb1903cc4db02258717921a4881  a.txt" ++ nl) lines
    /\ In ("2d711642b726b04401627ca9fbac32f5c8530fb1903cc4db02258717921a4881  b.txt" ++ nl) lines.
Proof.
  destruct (@getChecksums_block _ Mock.platform RefPackages.packages
              ["dist/a.txt"; "dist/b.txt"] Demo.start)
    as (lines & E & _ & N & D).
  - discriminate.
  - intros p [<-|[<-|[]]]; eexists; reflexivity.
  - exists lines. rewrite E. split; [reflexivity|]. split; [exact N|].
    assert (Ia : In "dist/a.txt" ["dist/a.txt"; "dist/b.txt"]) by (simpl; tauto).
    assert (Ib : In "dist/b.txt" ["dist/a.txt"; "dist/b.txt"]) by (simpl; tauto).
    destruct (D "dist/a.txt" "dist/b.txt" (list_byte_of_string "x") Ia Ib eq_refl eq_refl)
      as [Da Db].
    vm_compute in Da. vm_compute in Db. split; [exact Da | exact Db].
Defined.

(** An artifact that is listed but cannot be opened, on the demo
    repository: [getChecksums] raises, and so does the whole run. *)
Lemma getChecksums_unreadable_witness :
  exists e' s',
    @Sha.getChecksums _ Mock.platform RefPackages.packages
      ["dist/a.txt"; "dist/b.txt"; "LICENSE.txt"]
      (Mock.start (Demo.world_with ["dist/b.txt"] Mock.no_faults))
    = (Throw e', s')
    /\ err_message e' = "EACCES: permission denied, open 'dist/b.txt'"
    /\ fst (@Main.main _ Mock.platform RefSemVer.semver RefPackages.packages RefHelpers.helpers
              (Mock.start (Demo.world_with ["dist/b.txt"] Mock.no_faults)))
       = Throw e'.
Proof.
  destruct (@getChecksums_unreadable _ Mock.platform RefPackages.packages
              ["dist/a.txt"; "dist/b.txt"; "LICENSE.txt"]
              (Mock.start (Demo.world_with ["dist/b.txt"] Mock.no_faults))
              "dist/b.txt" (new_Error "EACCES: permission denied, open 'dist/b.txt'"))
    as (e' & s' & F & G & _).
  - simpl. tauto.
  - reflexivity.
  - exists e', s'. split; [exact G|].
    vm_compute in F. inversion F. split; reflexivity.
Defined.

(** ** What a computation adds to the trace *)
Section Emits.
Context {World : Type} `{Platform World}.

Lemma emits_weaken {A} (Q Q' : Result A -> list Event -> Prop) (m : M World A) :
  emits Q m -> (forall r ev, Q r ev -> Q' r ev) -> emits Q' m.
Proof. intros E W s r s' R. destruct (E _ _ _ R) as (ev & T & q). eauto. Qed.

Lemma emits_silent {A} (Q : Result A -> list Event -> Prop) (m : M World A) :
  (forall s, snd (m s) = s) -> (forall r, Q r []) -> emits Q m.
Proof.
  intros S q s r s' R. exists []. rewrite app_nil_r. split; [|apply q].
  specialize (S s). rewrite R in S. simpl in S. now subst.
Qed.

Lemma emits_core (Q : Result unit -> list Event -> Prop) e :
  Q (Ok tt) [Core e] -> emits Q (core e : M World unit).
Proof. intros q s r s' R. inversion R; subst. simpl. eauto. Qed.

Lemma emits_request (Q : forall c, Result (Resp c) -> list Event -> Prop) c :
  (forall a, Q c (Ok a) [Called c]) ->
  (forall e, Q c (Throw e) [Called c; Rejected c e]) ->
  emits (Q c) (request c : M World _).
Proof.
  intros qa qe s r s' R. unfold request in R.
  destruct (perform c (world s)) as [[a|e] w']; inversion R; subst; simpl; eauto.
Qed.

Lemma emits_bind {A B} (Q1 : Result A -> list Event -> Prop)
      (Q2 : A -> Result B -> list Event -> Prop)
      (Q : Result B -> list Event -> Prop) (m : M World A) (k : A -> M World B) :
  emits Q1 m ->
  (forall a, emits (Q2 a) (k a)) ->
  (forall e ev, Q1 (Throw e) ev -> Q (Throw e) ev) ->
  (forall a ev1 r ev2, Q1 (Ok a) ev1 -> Q2 a r ev2 -> Q r (ev1 ++ ev2)%list) ->
  emits Q (bind m k).
Proof.
  intros E1 E2 qe qa s r s' R. unfold bind in R.
  destruct (m s) as [[a|e] s1] eqn:M1.
  - destruct (E1 _ _ _ M1) as (ev1 & T1 & q1).
    destruct (E2 a _ _ _ R) as (ev2 & T2 & q2).
    exists (ev1 ++ ev2)%list. split; [now rewrite T2, T1, app_assoc | eauto].
  - inversion R; subst. destruct (E1 _ _ _ M1) as (ev1 & T1 & q1). eauto.
Qed.

Lemma emits_try_catch {A} (Q1 : Result A -> list Event -> Prop)
      (Q2 : Error -> Result A -> list Event -> Prop)
      (Q : Result A -> list Event -> Prop) (m : M World A) (h : Error -> M World A) :
  emits Q1 m ->
  (forall e, emits (Q2 e) (h e)) ->
  (forall a ev, Q1 (Ok a) ev -> Q (Ok a) ev) ->
  (forall e ev1 r ev2, Q1 (Throw e) ev1 -> Q2 e r ev2 -> Q r (ev1 ++ ev2)%list) ->
  emits Q (try_catch m h).
Proof.
  intros E1 E2 qa qe s r s' R. unfold try_catch in R.
  destruct (m s) as [[a|e] s1] eqn:M1.
  - inversion R; subst. destruct (E1 _ _ _ M1) as (ev1 & T1 & q1). eauto.
  - destruct (E1 _ _ _ M1) as (ev1 & T1 & q1).
    destruct (E2 e _ _ _ R) as (ev2 & T2 & q2).
    exists (ev1 ++ ev2)%list. split; [now rewrite T2, T1, app_assoc | eauto].
Qed.

Lemma all_silent {A} P (m : M World A) : (forall s, snd (m s) = s) -> all P m.
Proof. intros S. apply emits_silent; auto. Qed.

Lemma all_ret {A} P (a : A) : all P (ret a : M World A).
Proof. now apply all_silent. Qed.

Lemma all_throw {A} P e : all P (@throw World A e).
Proof. now apply all_silent. Qed.

Lemma all_lift {A} P (r : Result A) : all P (@lift World A r).
Proof. now apply all_silent. Qed.

Lemma all_read {A} P (f : World -> A) : all P (read f : M World A).
Proof. now apply all_silent. Qed.

Lemma all_read_result {A} P (f : World -> Result A) : all P (read_result f : M World A).
Proof. now apply all_silent. Qed.

Lemma all_core (P : Event -> Prop) e : P (Core e) -> all P (core e : M World unit).
Proof. intros p. apply emits_core. auto. Qed.

Lemma all_request (P : Event -> Prop) c :
  P (Called c) -> (forall e, P (Rejected c e)) -> all P (request c).
Proof.
  intros p q. apply (emits_request (fun _ _ ev => Forall P ev)); auto.
Qed.

Lemma all_bind {A B} P (m : M World A) (k : A -> M World B) :
  all P m -> (forall a, all P (k a)) -> all P (bind m k).
Proof.
  intros E1 E2. eapply emits_bind; [exact E1 | exact E2 | auto |].
  intros. apply Forall_app. auto.
Qed.

Lemma all_try_catch {A} P (m : M World A) h :
  all P m -> (forall e, all P (h e)) -> all P (try_catch m h).
Proof.
  intros E1 E2. eapply emits_try_catch; [exact E1 | exact E2 | auto |].
  intros. apply Forall_app. auto.
Qed.

Lemma all_for_of {A B} P (body : B -> A -> M World B) xs :
  (forall acc x, all P (body acc x)) -> forall acc, all P (for_of xs body acc).
Proof.
  intros E. induction xs as [|x xs IH]; intros acc; simpl.
  - apply all_ret.
  - apply all_bind; auto.
Qed.

Lemma all_Array_map {A B} P (f : A -> M World B) xs :
  (forall x, all P (f x)) -> all P (Array_map f xs).
Proof.
  intros E. induction xs as [|x xs IH]; simpl.
  - apply all_ret.
  - apply all_bind; auto. intros y. apply all_bind; auto. intros ys. apply all_ret.
Qed.

Lemma all_if {A} P (b : bool) (m1 m2 : M World A) :
  all P m1 -> all P m2 -> all P (if b then m1 else m2).
Proof. now destruct b. Qed.
End Emits.

(** ** The events of each function

    [trace_all] follows a function's statements and leaves what the
    predicate asks of each event to computation. *)
Ltac trace_step :=
  first
    [ apply all_bind
    | apply all_try_catch
    | apply all_for_of
    | apply all_Array_map
    | apply all_core; exact I
    | match goal with
      | |- all ?P (request ?c) =>
          apply (@all_request _ _ P c);
          [ first [ reflexivity | exact I ] | intros; first [ reflexivity | exact I ] ]
      end
    | apply all_ret
    | apply all_throw
    | apply all_lift
    | apply all_read
    | apply all_read_result
    | apply all_if
    | match goal with
      | |- forall _, _ => intro
      | |- all _ (match ?x with _ => _ end) => destruct x
      end ].

Ltac trace_all := cbv zeta; repeat trace_step.

Section PhaseFacts.
Context {World : Type} `{Platform World} `{SemVer} `{Packages} `{Helpers}.









End PhaseFacts.

(** ** Array.prototype.sort *)
Section SortFacts.
Variable A : Type.
Variable comparefn : A -> A -> comparison.
Variable D : A -> Prop.

Hypothesis comparefn_total : forall a b, D a -> D b -> comparefn a b = Gt -> before comparefn b a.
Hypothesis comparefn_trans : forall a b c,
  D a -> D b -> D c -> before comparefn a b -> before comparefn b c -> before comparefn a c.

Lemma sort_insert_perm x l : Permutation (sort_insert comparefn x l) (x :: l).
Proof.
  induction l as [|y l IH]; simpl; [reflexivity|].
  destruct (comparefn x y); try reflexivity.
  rewrite IH. apply perm_swap.
Qed.

Lemma Array_sort_perm l : Permutation (Array_sort comparefn l) l.
Proof.
  induction l as [|x l IH]; simpl; [reflexivity|].
  rewrite sort_insert_perm. now constructor.
Qed.

Lemma sort_insert_sorted x l :
  D x -> Forall D l -> StronglySorted (before comparefn) l ->
  StronglySorted (before comparefn) (sort_insert comparefn x l).
Proof.
  intros Dx Dl S. induction S as [|y l S IH F]; simpl.
  - constructor; constructor.
  - inversion Dl as [|? ? Dy Dl']; subst.
    destruct (comparefn x y) eqn:C.
    + constructor; [now constructor|]. constructor; [unfold before; congruence|].
      eapply Forall_impl; [|apply Forall_and; [exact Dl' | exact F]].
      intros z [Dz B]. apply (comparefn_trans Dx Dy Dz); [unfold before; congruence | exact B].
    + constructor; [now constructor|]. constructor; [unfold before; congruence|].
      eapply Forall_impl; [|apply Forall_and; [exact Dl' | exact F]].
      intros z [Dz B]. apply (comparefn_trans Dx Dy Dz); [unfold before; congruence | exact B].
    + constructor; [now apply IH|].
      rewrite Forall_forall. intros z I.
      apply (Permutation_in _ (sort_insert_perm x l)) in I.
      destruct I as [<-|I]; [now apply comparefn_total|].
      rewrite Forall_forall in F. now apply F.
Qed.

Lemma Array_sort_sorted l : Forall D l -> StronglySorted (before comparefn) (Array_sort comparefn l).
Proof.
  induction 1 as [|x l Dx Dl IH]; simpl; [constructor|].
  apply sort_insert_sorted; auto.
  rewrite Forall_forall in *. intros z I. apply Dl.
  now apply (Permutation_in _ (Array_sort_perm l)).
Qed.
End SortFacts.

(** ** src/main.ts: searchForPreviousReleaseTag *)
Section TagResolver.
Context {World : Type} `{Platform World} `{SemVer}.

Lemma tagList_run tl (s : Store World) :
  Main.tagList tl s
  = (Ok (scanned tl),
     mkStore (world s)
       (trace s ++ map (fun tag => Core (Debug ("Currently processing tag " ++ tag_name tag))) tl)).
Proof.
  unfold Main.tagList.
  assert (E : forall tl (s : Store World),
    Array_map (fun tag =>
      core (Debug ("Currently processing tag " ++ tag_name tag)) ;;
      ret (Main.mkSemverTagged tag (semverValid (tag_name tag)))) tl s
    = (Ok (map with_semverTag tl),
       mkStore (world s)
         (trace s ++ map (fun tag => Core (Debug ("Currently processing tag " ++ tag_name tag))) tl))).
  { clear. induction tl as [|tag tl IH]; intros s.
    - simpl. unfold ret. rewrite app_nil_r. now destruct s.
    - cbn [Array_map map]. unfold bind at 1, bind at 1. rewrite core_run.
      unfold ret at 1. unfold bind at 1. rewrite IH. unfold ret. cbn [world trace].
      now rewrite <- app_assoc. }
  cbv zeta. unfold bind. rewrite E. reflexivity.
Qed.

Lemma scanned_version_tags tl : scanned (version_tags tl) = scanned tl.
Proof.
  unfold scanned. f_equal. unfold version_tags.
  induction tl as [|tag tl IH]; simpl; auto.
  unfold has_semverTag at 2. simpl.
  destruct (semverValid (tag_name tag)) eqn:V; simpl.
  - unfold has_semverTag at 1. simpl. rewrite V. now rewrite IH.
  - exact IH.
Qed.

Lemma scanned_In t tl :
  In t (scanned tl) <->
  exists tag v, In tag tl /\ semverValid (tag_name tag) = Some v
                /\ t = Main.mkSemverTagged tag (Some v).
Proof.
  unfold scanned. split.
  - intros I. apply (Permutation_in _ (Array_sort_perm _ _)) in I.
    apply filter_In in I. destruct I as [I V]. apply in_map_iff in I.
    destruct I as (tag & <- & I). unfold has_semverTag, with_semverTag in *. simpl in V.
    destruct (semverValid (tag_name tag)) as [v|] eqn:E; [|discriminate].
    exists tag, v. rewrite E. auto.
  - intros (tag & v & I & V & ->).
    apply (Permutation_in _ (Permutation_sym (Array_sort_perm _ _))).
    apply filter_In. split; [|reflexivity].
    apply in_map_iff. exists tag. unfold with_semverTag. now rewrite V.
Qed.

(** C8: when the current tag is not a version, the resolver throws at
    once: the world and the trace are as they were, so no tag was listed
    and nothing compared. *)
Theorem searchForPreviousReleaseTag_invalid (currentReleaseTag : string)
        (tagInfo : RepoInfo) (s : Store World) :
  semverValid currentReleaseTag = None ->
  Main.searchForPreviousReleaseTag currentReleaseTag tagInfo s
  = (Throw (new_Error "Cannot find previous release tag because the tag does not appear to conform to semantic versioning."),
     s).
Proof. intros V. unfold Main.searchForPreviousReleaseTag. now rewrite V. Qed.

Section Ordered.
Context `{!SemVerOrder}.

Lemma scanned_sorted tl : StronglySorted (before newest_first) (scanned tl).
Proof.
  unfold scanned. apply Array_sort_sorted with (D := versioned).
  - intros a b (va & Ea & Va) (vb & Eb & Vb). unfold before, newest_first, semverRcompare.
    unfold Main.version_of. rewrite Ea, Eb. intros G.
    rewrite (semverCompare_antisym Vb Va), G. discriminate.
  - intros a b c (va & Ea & Va) (vb & Eb & Vb) (vc & Ec & Vc).
    unfold before, newest_first, semverRcompare, Main.version_of.
    rewrite Ea, Eb, Ec. intros B1 B2. exact (semverCompare_trans Vc Vb Va B2 B1).
  - rewrite Forall_forall. intros t I. apply filter_In in I. destruct I as [I V].
    apply in_map_iff in I. destruct I as (tag & <- & _).
    unfold has_semverTag, with_semverTag in *. simpl in *.
    destruct (semverValid (tag_name tag)) as [v|] eqn:E; [|discriminate].
    exists v. split; [reflexivity|]. now exists (tag_name tag).
Qed.

Lemma semverCompare_refl v : isVersion v -> semverCompare v v <> Gt.
Proof.
  intros V G. pose proof (semverCompare_antisym V V) as E. rewrite G in E. discriminate.
Qed.

(** The loop returns the first scanned entry older than the current
    tag; in a sorted scan no older entry is newer than it. *)
Lemma previousReleaseTag_first currentReleaseTag l :
  StronglySorted (before newest_first) l ->
  Forall versioned l ->
  (exists t, In t l /\ semverLt (Main.version_of t) currentReleaseTag = true) ->
  exists t, In t l
            /\ Main.previousReleaseTag currentReleaseTag l = tag_name (Main.tagged t)
            /\ semverLt (Main.version_of t) currentReleaseTag = true
            /\ forall t', In t' l ->
                 semverLt (Main.version_of t') currentReleaseTag = true ->
                 semverCompare (Main.version_of t') (Main.version_of t) <> Gt.
Proof.
  induction 1 as [|t l S IH F]; intros V (t0 & I0 & L0); [destruct I0|].
  inversion V as [|? ? Vt Vl]; subst. simpl.
  destruct (semverLt (Main.version_of t) currentReleaseTag) eqn:L.
  - exists t. split; [now left|]. split; [reflexivity|]. split; [exact L|].
    intros t' [<-|I'] _.
    + destruct Vt as (v & E & Vv). unfold Main.version_of. rewrite E.
      now apply semverCompare_refl.
    + rewrite Forall_forall in F. exact (F _ I').
  - destruct I0 as [<-|I0]; [congruence|].
    destruct (IH Vl (ex_intro _ t0 (conj I0 L0))) as (t1 & I1 & E1 & L1 & M1).
    exists t1. split; [now right|]. split; [exact E1|]. split; [exact L1|].
    intros t' [<-|I'] L'; [congruence|auto].
Qed.

Lemma previousReleaseTag_none currentReleaseTag l :
  (forall t, In t l -> semverLt (Main.version_of t) currentReleaseTag = false) ->
  Main.previousReleaseTag currentReleaseTag l = EmptyString.
Proof.
  induction l as [|t l IH]; intros N; simpl; [reflexivity|].
  rewrite (N t (or_introl eq_refl)). apply IH. intros t' I. apply N. now right.
Qed.
End Ordered.
End TagResolver.

Section TagResolverClaims.
Context {World : Type} `{Platform World} `{SemVer} `{!SemVerOrder}.

Lemma searchForPreviousReleaseTag_run currentReleaseTag tagInfo (s : Store World) tl w' :
  semverValid currentReleaseTag <> None ->
  perform (Paginate_listTags tagInfo) (world s) = (Ok tl, w') ->
  exists s',
    Main.searchForPreviousReleaseTag currentReleaseTag tagInfo s
    = (Ok (Main.previousReleaseTag currentReleaseTag (scanned tl)), s').
Proof.
  intros V L. unfold Main.searchForPreviousReleaseTag.
  destruct (semverValid currentReleaseTag); [|congruence].
  unfold bind at 1, request at 1. rewrite L.
  unfold bind at 1. rewrite tagList_run. unfold ret. eauto.
Qed.

Lemma scanned_versioned tl : Forall versioned (scanned tl).
Proof.
  rewrite Forall_forall. intros t I. apply scanned_In in I.
  destruct I as (tag & v & _ & V & ->). exists v. split; [reflexivity|].
  now exists (tag_name tag).
Qed.

(** C1: for a current tag that is a version and a listing [tl] of the
    repository's tags, the resolver returns the name of a tag of [tl]
    that is a version strictly less than the current one and that no
    other such tag of [tl] exceeds in semver's precedence; it returns the
    empty string when [tl] has no such tag; and the tags of [tl] that are
    no versions have no part in it: listings with the same version tags
    give the same answer. *)
Theorem searchForPreviousReleaseTag_previous
        (currentReleaseTag : string) (tagInfo : RepoInfo) (s : Store World)
        (tl : list Tag) (w' : World) :
  semverValid currentReleaseTag <> None ->
  perform (Paginate_listTags tagInfo) (world s) = (Ok tl, w') ->
  exists previous s',
    Main.searchForPreviousReleaseTag currentReleaseTag tagInfo s = (Ok previous, s')
    /\ ((exists tag, In tag tl /\ older_than currentReleaseTag tag) ->
        exists tag, In tag tl /\ previous = tag_name tag
                    /\ older_than currentReleaseTag tag
                    /\ forall tag', In tag' tl -> older_than currentReleaseTag tag' ->
                                    not_newer tag' tag)
    /\ ((forall tag, In tag tl -> ~ older_than currentReleaseTag tag) ->
        previous = EmptyString)
    /\ (forall (s2 : Store World) tl2 w2,
          perform (Paginate_listTags tagInfo) (world s2) = (Ok tl2, w2) ->
          version_tags tl2 = version_tags tl ->
          fst (Main.searchForPreviousReleaseTag currentReleaseTag tagInfo s2) = Ok previous).
Proof.
  intros V L. destruct (searchForPreviousReleaseTag_run _ _ V L) as [s' R].
  exists (Main.previousReleaseTag currentReleaseTag (scanned tl)), s'.
  split; [exact R|]. split; [|split].
  - intros (tag0 & I0 & v0 & V0 & L0).
    assert (X : exists t, In t (scanned tl)
                          /\ semverLt (Main.version_of t) currentReleaseTag = true).
    { exists (Main.mkSemverTagged tag0 (Some v0)). split; [|exact L0].
      apply scanned_In. eauto. }
    destruct (previousReleaseTag_first currentReleaseTag
                (scanned_sorted tl) (scanned_versioned tl) X)
      as (t & It & Et & Lt & Mt).
    apply scanned_In in It. destruct It as (tag & v & I & Vt & ->).
    exists tag. split; [exact I|]. split; [exact Et|].
    split; [exists v; auto|].
    intros tag' I' (v' & V' & L').
    exists v', v. split; [exact V'|]. split; [exact Vt|].
    apply (Mt (Main.mkSemverTagged tag' (Some v'))); [|exact L'].
    apply scanned_In. eauto.
  - intros N. apply previousReleaseTag_none. intros t I.
    apply scanned_In in I. destruct I as (tag & v & I & Vt & ->).
    unfold Main.version_of. simpl.
    destruct (semverLt v currentReleaseTag) eqn:Lv; [|reflexivity].
    exfalso. apply (N tag I). exists v. auto.
  - intros s2 tl2 w2 L2 E.
    destruct (searchForPreviousReleaseTag_run _ _ V L2) as [s2' R2].
    rewrite R2. simpl. f_equal.
    now rewrite <- (scanned_version_tags tl2), E, scanned_version_tags.
Qed.
End TagResolverClaims.

(** The reference semver implementation orders versions as required. *)
Lemma RefSemVer_compare_triple_antisym a b :
  RefSemVer.compare_triple b a = CompOpp (RefSemVer.compare_triple a b).
Proof.
  destruct a as [[a1 a2] a3], b as [[b1 b2] b3]. simpl.
  rewrite (Nat.compare_antisym a1 b1), (Nat.compare_antisym a2 b2),
    (Nat.compare_antisym a3 b3).
  destruct (Nat.compare a1 b1); simpl; try reflexivity.
  destruct (Nat.compare a2 b2); simpl; reflexivity.
Qed.

Lemma RefSemVer_compare_triple_le a b :
  RefSemVer.compare_triple a b <> Gt <->
  (let '(a1, a2, a3) := a in
   let '(b1, b2, b3) := b in
   a1 < b1 \/ (a1 = b1 /\ (a2 < b2 \/ (a2 = b2 /\ a3 <= b3)))).
Proof.
  destruct a as [[a1 a2] a3], b as [[b1 b2] b3]. simpl.
  destruct (Nat.compare_spec a1 b1); [|split; [lia | discriminate] |split; [congruence | lia]].
  destruct (Nat.compare_spec a2 b2); [|split; [lia | discriminate] |split; [congruence | lia]].
  destruct (Nat.compare_spec a3 b3); split; try lia; try discriminate; congruence.
Qed.

Lemma RefSemVer_order : @SemVerOrder RefSemVer.semver.
Proof.
  split.
  - intros a b _ _. apply RefSemVer_compare_triple_antisym.
  - intros a b c _ _ _. simpl. unfold RefSemVer.compare.
    rewrite !RefSemVer_compare_triple_le.
    destruct (RefSemVer.key a) as [[a1 a2] a3], (RefSemVer.key b) as [[b1 b2] b3],
      (RefSemVer.key c) as [[c1 c2] c3]. lia.
Qed.

(** The scenario of the specification: among v1.0.0, v1.0.1, a tag that is
    no version and v1.1.0 itself, the release before v1.1.0 is v1.0.1. *)
Lemma searchForPreviousReleaseTag_previous_witness :
  fst (@Main.searchForPreviousReleaseTag _ Mock.platform RefSemVer.semver
         "v1.1.0" Demo.repo Demo.start)
  = Ok "v1.0.1".
Proof.
  destruct (@searchForPreviousReleaseTag_previous _ Mock.platform RefSemVer.semver
              RefSemVer_order "v1.1.0" Demo.repo Demo.start Demo.tags Demo.world)
    as (previous & s' & R & _).
  - discriminate.
  - reflexivity.
  - rewrite R. vm_compute in R. inversion R. reflexivity.
Defined.

(** A tag that is no version, on the demo repository. *)
Lemma searchForPreviousReleaseTag_invalid_witness :
  exists e,
    @Main.searchForPreviousReleaseTag _ Mock.platform RefSemVer.semver
      "latest" Demo.repo Demo.start
    = (Throw e, Demo.start).
Proof.
  eexists.
  apply (@searchForPreviousReleaseTag_invalid _ Mock.platform RefSemVer.semver
           "latest" Demo.repo Demo.start).
  reflexivity.
Defined.

(** ** src/main.ts: getCommitsSinceRelease *)
Section CommitRange.
Context {World : Type} `{Platform World} `{Helpers}.

Lemma calls_app ev1 ev2 : calls (ev1 ++ ev2) = (calls ev1 ++ calls ev2)%list.
Proof. unfold calls. now rewrite flat_map_app. Qed.

Lemma getCommitsSinceRelease_run tagInfo currentSha (s : Store World) found w1 compared w2 :
  perform (Git_getRef tagInfo) (world s) = (found, w1) ->
  perform (Repos_compareCommits
             (mkReposCompareCommitsParams (gr_repo tagInfo)
                (comparison_base tagInfo found) currentSha)) w1
  = (compared, w2) ->
  exists ev,
    Main.getCommitsSinceRelease tagInfo currentSha s
    = (Ok (commits_of compared), mkStore w2 (trace s ++ ev))
    /\ calls ev
       = [Git_getRef tagInfo;
          Repos_compareCommits
            (mkReposCompareCommitsParams (gr_repo tagInfo)
               (comparison_base tagInfo found) currentSha)].
Proof.
  intros G C. unfold Main.getCommitsSinceRelease.
  unfold bind, try_catch, request, core, ret. cbn [world trace].
  rewrite G. destruct found as [[]|e]; cbn [world trace comparison_base] in *;
    rewrite C; destruct compared as [commits|e2]; cbn [world trace commits_of Main.data_commits];
    eexists; (split; [f_equal; f_equal; repeat rewrite <- app_assoc; reflexivity | reflexivity]).
Qed.

(** C4: [getCommitsSinceRelease] always returns; when the reference of
    the previous tag cannot be resolved, the comparison it makes is the one
    with base HEAD; and when the comparison fails, whatever its base, the
    list it returns is empty. *)
Theorem getCommitsSinceRelease_never_raises
        (tagInfo : GitGetRefParams) (currentSha : string) (s : Store World) :
  exists commits s' ev,
    Main.getCommitsSinceRelease tagInfo currentSha s = (Ok commits, s')
    /\ trace s' = (trace s ++ ev)%list
    /\ (forall e w1,
          perform (Git_getRef tagInfo) (world s) = (Throw e, w1) ->
          calls ev = [Git_getRef tagInfo;
                      Repos_compareCommits
                        (mkReposCompareCommitsParams (gr_repo tagInfo) "HEAD" currentSha)])
    /\ (forall found w1 e w2,
          perform (Git_getRef tagInfo) (world s) = (found, w1) ->
          perform (Repos_compareCommits
                     (mkReposCompareCommitsParams (gr_repo tagInfo)
                        (comparison_base tagInfo found) currentSha)) w1
          = (Throw e, w2) ->
          commits = []).
Proof.
  destruct (perform (Git_getRef tagInfo) (world s)) as [found w1] eqn:G.
  destruct (perform (Repos_compareCommits
                       (mkReposCompareCommitsParams (gr_repo tagInfo)
                          (comparison_base tagInfo found) currentSha)) w1)
    as [compared w2] eqn:C.
  destruct (getCommitsSinceRelease_run s G C) as (ev & R & L).
  exists (commits_of compared), (mkStore w2 (trace s ++ ev)), ev.
  split; [exact R|]. split; [reflexivity|]. split.
  - intros e w1' E. inversion E; subst. exact L.
  - intros found' w1' e w2' E C'. inversion E; subst.
    rewrite C in C'. inversion C'; subst. reflexivity.
Qed.
End CommitRange.

(** ** The order of the platform calls *)
Section PhaseOrder.
Context {World : Type} `{Platform World}.










End PhaseOrder.

Section MainOrder.
Context {World : Type} `{Platform World} `{SemVer} `{Packages} `{Helpers}.




End MainOrder.

(** ** src/main.ts: createReleaseTag and the calls around it *)
Section ReleaseTag.
Context {World : Type} `{Platform World}.

Lemma createReleaseTag_run refInfo message (s : Store World) :
  exists r s' ev,
    Main.createReleaseTag refInfo message s = (r, s')
    /\ trace s' = (trace s ++ ev)%list
    /\ tag_outcome refInfo message (world s) r (calls ev).
Proof.
  unfold Main.createReleaseTag, tag_outcome, tag_object_request, ref_request, ref_update.
  unfold bind, try_catch, request, core. cbn [world trace].
  destruct (perform (Git_createTag _) (world s)) as [[tagSha|e] w1].
  - cbn [world trace cr_repo cr_ref cr_sha].
    destruct (perform (Git_createRef _) w1) as [[[]|e] w2].
    + eexists _, _, _. split; [reflexivity|]. cbn [world trace].
      split; [repeat rewrite <- app_assoc; reflexivity|]. split; reflexivity.
    + cbn [world trace].
      destruct (perform (Git_updateRef _) w2) as [[[]|e3] w3].
      * eexists _, _, _. split; [reflexivity|]. cbn [world trace fst].
        split; [repeat rewrite <- app_assoc; reflexivity|]. split; reflexivity.
      * eexists _, _, _. split; [reflexivity|]. cbn [world trace fst].
        split; [repeat rewrite <- app_assoc; reflexivity|]. split; reflexivity.
  - eexists _, _, _. split; [reflexivity|]. cbn [world trace].
    split; [repeat rewrite <- app_assoc; reflexivity|]. split; reflexivity.
Qed.



(** [deletePreviousGitHubRelease] looks the release up first, and never
    raises, whatever the lookup and the deletion answer. *)
Lemma deletePreviousGitHubRelease_run releaseInfo (s : Store World) :
  exists s' ev,
    Main.deletePreviousGitHubRelease releaseInfo s = (Ok tt, s')
    /\ trace s' = (trace s ++ ev)%list
    /\ exists rest, calls ev = Repos_getReleaseByTag releaseInfo :: rest.
Proof.
  unfold Main.deletePreviousGitHubRelease.
  unfold bind, try_catch, request, core. cbn [world trace].
  destruct (perform (Repos_getReleaseByTag releaseInfo) (world s)) as [[id|e] w1].
  - cbn [world trace].
    destruct (perform (Repos_deleteRelease _) w1) as [[[]|e] w2];
      eexists _, _; (split; [reflexivity|]); cbn [world trace];
      (split; [repeat rewrite <- app_assoc; reflexivity|]); eexists; reflexivity.
  - eexists _, _. split; [reflexivity|]. cbn [world trace].
    split; [repeat rewrite <- app_assoc; reflexivity|]. eexists; reflexivity.
Qed.

End ReleaseTag.

(** ** Tag creation, deletion of the previous release, the new release *)
Section SortedCalls.
Variable rk : Call -> nat.



End SortedCalls.

Section MainGuard.
Context {World : Type} `{Platform World} `{SemVer} `{Packages} `{Helpers}.





(** [getAndValidateArgs] changes nothing and reads the tag from the
    [automatic_release_tag] input. *)
Lemma getAndValidateArgs_tag (s : Store World) args s' :
  Main.getAndValidateArgs s = (Ok args, s') ->
  s' = s
  /\ core_getInput "automatic_release_tag" false (world s) = Ok (Main.automaticReleaseTag args).
Proof.
  unfold Main.getAndValidateArgs, bind, read_result, lift, ret.
  repeat match goal with
         | |- context [match ?x with Ok _ => _ | Throw _ => _ end] =>
             destruct x eqn:?; try discriminate
         end.
  intros E. inversion E; subst. simpl. auto.
Qed.
End MainGuard.

Section MainClaims.
Context {World : Type} `{Platform World} `{SemVer} `{Packages} `{Helpers}.

Lemma truthy_string_false s : truthy_string s = false -> s = EmptyString.
Proof. now destruct s. Qed.


(** [main] is its [try] block, with a failure reported and raised again. *)
Lemma main_run (s : Store World) :
  Main.main s
  = match Main.main_try s with
    | (Ok a, s') => (Ok a, s')
    | (Throw e, s') =>
        (Throw e, mkStore (world s') (trace s' ++ [Core (SetFailed (err_message e))]))
    end.
Proof.
  unfold Main.main, try_catch. destruct (Main.main_try s) as [[a|e] s']; reflexivity.
Qed.

End MainClaims.

(** ** Which failures reach the top level *)
Section Propagation.
Context {World : Type} `{Platform World}.

Lemma fatal_benign {A} (r : Result A) ev : Forall benign ev -> fatal r ev.
Proof.
  intros F c e I N. rewrite Forall_forall in F. specialize (F _ I). simpl in F. congruence.
Qed.

Lemma fatal_app {A} (r : Result A) ev1 ev2 :
  Forall benign ev1 -> fatal r ev2 -> fatal r (ev1 ++ ev2).
Proof.
  intros F G c e I N. apply in_app_or in I. destruct I as [I|I]; [|eauto].
  exact (fatal_benign r F c e I N).
Qed.

Lemma propagates_benign {A} (m : M World A) : all benign m -> propagates m.
Proof. intros B. eapply emits_weaken; [exact B|]. intros r ev. apply fatal_benign. Qed.

Lemma propagates_request c : propagates (request c : M World _).
Proof.
  apply (emits_request (fun c r ev => fatal r ev)).
  - intros a c' e [I|[]] _. discriminate.
  - intros e c' e' [I|[I|[]]] _; [discriminate | now inversion I].
Qed.

Lemma propagates_bind {A B} (m : M World A) (k : A -> M World B) :
  propagates m -> (forall a, propagates (k a)) -> propagates (bind m k).
Proof.
  intros E K. eapply emits_bind; [exact E | exact K | |].
  - intros e ev F c e' I N. specialize (F c e' I N). now inversion F.
  - intros a ev1 r ev2 F1 F2 c e I N. apply in_app_or in I. destruct I as [I|I].
    + specialize (F1 c e I N). discriminate.
    + exact (F2 c e I N).
Qed.

Lemma propagates_try_catch {A} (m : M World A) h :
  all benign m -> (forall e, propagates (h e)) -> propagates (try_catch m h).
Proof.
  intros B K. eapply emits_try_catch; [exact B | exact K | |].
  - intros a ev. apply fatal_benign.
  - intros e ev1 r ev2. apply fatal_app.
Qed.

(** A handler that reports and raises the error again keeps what its
    [try] block propagates. *)
Lemma propagates_rethrow (m : M World unit) :
  propagates m -> propagates (try_catch m Main.main_catch).
Proof.
  intros E.
  apply (@emits_try_catch _ _ (@fatal unit)
           (fun e r ev => r = Throw e /\ Forall benign ev) (@fatal unit)
           m Main.main_catch); auto.
  - intros e s r s' R. inversion R; subst. cbn [trace]. eexists. split; [reflexivity|].
    split; [reflexivity|]. repeat constructor.
  - intros e ev1 r ev2 F [-> B] c e' I N. apply in_app_or in I. destruct I as [I|I].
    + exact (F c e' I N).
    + exact (fatal_benign (Throw e) B c e' I N).
Qed.

Lemma propagates_for_of {A B} (body : B -> A -> M World B) xs :
  (forall acc x, propagates (body acc x)) -> forall acc, propagates (for_of xs body acc).
Proof.
  intros E. induction xs as [|x xs IH]; intros acc; simpl.
  - apply propagates_benign, all_ret.
  - apply propagates_bind; auto.
Qed.

Lemma propagates_Array_map {A B} (f : A -> M World B) xs :
  (forall x, propagates (f x)) -> propagates (Array_map f xs).
Proof.
  intros E. induction xs as [|x xs IH]; simpl.
  - apply propagates_benign, all_ret.
  - apply propagates_bind; auto. intros y. apply propagates_bind; auto.
    intros ys. apply propagates_benign, all_ret.
Qed.

Lemma propagates_if {A} (b : bool) (m1 m2 : M World A) :
  propagates m1 -> propagates m2 -> propagates (if b then m1 else m2).
Proof. now destruct b. Qed.
End Propagation.

Ltac propagate_step :=
  first
    [ apply propagates_bind
    | apply propagates_try_catch; [ solve [ trace_all ] | ]
    | apply propagates_for_of
    | apply propagates_Array_map
    | match goal with
      | |- propagates (request ?c) => apply (@propagates_request _ _ c)
      end
    | apply propagates_benign; solve [ trace_all ]
    | apply propagates_if
    | match goal with
      | |- forall _, _ => intro
      | |- propagates (match ?x with _ => _ end) => destruct x
      end ].

Ltac propagate_all := cbv zeta; repeat propagate_step.

Section PropagationClaims.
Context {World : Type} `{Platform World} `{SemVer} `{Packages} `{Helpers}.

Lemma propagates_main : propagates (Main.main : M World unit).
Proof.
  unfold Main.main. apply propagates_rethrow.
  unfold Main.main_try, Main.getAndValidateArgs, Main.searchForPreviousReleaseTag,
    Main.tagList, Main.getCommitsSinceRelease, Main.getChangelog, Files.getPaths,
    Sha.getChecksums, Main.createReleaseTag, Main.deletePreviousGitHubRelease,
    Main.generateNewGitHubRelease.
  propagate_all.
Qed.

Lemma unfailed_main_try : all unfailed (Main.main_try : M World unit).
Proof.
  unfold Main.main_try, Main.getAndValidateArgs, Main.searchForPreviousReleaseTag,
    Main.tagList, Main.getCommitsSinceRelease, Main.getChangelog, Files.getPaths,
    Sha.getChecksums, Main.createReleaseTag, Main.deletePreviousGitHubRelease,
    Main.generateNewGitHubRelease.
  trace_all.
Qed.

End PropagationClaims.

(** C3 as stated fails: on the demo repository with the release lookup
    answered 500, the phase deleting the previous release returns, and the
    run goes on to publish the release and ends without [setFailed]. *)
Lemma delete_phase_swallows_transport_failure :
  ~ transport_failure_is_fatal
  /\ (let run := @Main.main _ Mock.platform RefSemVer.semver RefPackages.packages
                   RefHelpers.helpers
                   (Mock.start (Demo.world_with [] Demo.lookup_down)) in
      fst run = Ok tt
      /\ In (Rejected (Repos_getReleaseByTag (mkReposGetReleaseByTagParams Demo.repo "v1.1.0"))
                      Demo.server_error)
            (trace (snd run))
      /\ forallb (fun e => match e with Core (SetFailed _) => false | _ => true end)
                 (trace (snd run)) = true).
Proof.
  split.
  - intros C.
    destruct (C Mock.World Mock.platform
                (mkReposGetReleaseByTagParams Demo.repo "v1.1.0")
                (Mock.start (Demo.world_with [] Demo.lookup_down))
                Demo.server_error (Demo.world_with [] Demo.lookup_down))
      as [s' R].
    + reflexivity.
    + discriminate.
    + vm_compute in R. discriminate.
  - vm_compute. split; [reflexivity|]. split; [|reflexivity].
    repeat (try (left; reflexivity); right).
Qed.

(** On the demo repository with the comparison answered 500 and a
    previous tag that has no reference: the comparison is made with base
    HEAD and the run goes on with no commits. *)
Lemma getCommitsSinceRelease_never_raises_witness :
  exists s',
    @Main.getCommitsSinceRelease _ Mock.platform RefHelpers.helpers
      (mkGitGetRefParams Demo.repo "tags/v0.9.0") "abc123"
      (Mock.start (Demo.world_with [] Demo.compare_down))
    = (Ok [], s')
    /\ calls (trace s')
       = [Git_getRef (mkGitGetRefParams Demo.repo "tags/v0.9.0");
          Repos_compareCommits (mkReposCompareCommitsParams Demo.repo "HEAD" "abc123")].
Proof.
  destruct (@getCommitsSinceRelease_never_raises _ Mock.platform RefHelpers.helpers
              (mkGitGetRefParams Demo.repo "tags/v0.9.0") "abc123"
              (Mock.start (Demo.world_with [] Demo.compare_down)))
    as (commits & s' & ev & R & T & B & E).
  exists s'.
  rewrite (E (Throw Mock.not_found) (Demo.world_with [] Demo.compare_down)
             Demo.server_error (Demo.world_with [] Demo.compare_down)
             eq_refl eq_refl) in R.
  split; [exact R|]. rewrite T.
  exact (B Mock.not_found (Demo.world_with [] Demo.compare_down) eq_refl).
Defined.

(** * Further properties of the code *)

(** ** src/main.ts: getAndValidateArgs and the [files] input *)
Section SplitLines.

Lemma has_char_cons c a s : has_char c (String a s) <-> a = c \/ has_char c s.
Proof. unfold has_char. simpl. tauto. Qed.

Lemma split_lines_nonempty s : split_lines s <> [].
Proof.
  destruct s as [|c [|c' rest']]; simpl; try discriminate.
  - destruct (Ascii.eqb c (ascii_of_nat 10)); discriminate.
  - destruct (Ascii.eqb c (ascii_of_nat 10)); [discriminate|].
    destruct (Ascii.eqb c (ascii_of_nat 13) && Ascii.eqb c' (ascii_of_nat 10));
      [discriminate|].
    destruct (if Ascii.eqb c' (ascii_of_nat 10) then _ else _); discriminate.
Qed.

Lemma split_lines_no_line_feed s :
  (forall line, In line (split_lines s) -> ~ has_char (ascii_of_nat 10) line)
  /\ (forall c line, In line (split_lines (String c s)) -> ~ has_char (ascii_of_nat 10) line).
Proof.
  induction s as [|a s [IH1 IH2]].
  - split.
    + intros line [<-|[]] [].
    + intros c line. simpl. destruct (Ascii.eqb c (ascii_of_nat 10)) eqn:E.
      * intros [<-|[<-|[]]] [].
      * intros [<-|[]] [->|[]]. now rewrite Ascii.eqb_refl in E.
  - split; [apply IH2|].
    intros c line.
    change (split_lines (String c (String a s)))
      with (if Ascii.eqb c (ascii_of_nat 10) then EmptyString :: split_lines (String a s)
            else if Ascii.eqb c (ascii_of_nat 13) && Ascii.eqb a (ascii_of_nat 10)
                 then EmptyString :: split_lines s
                 else match split_lines (String a s) with
                      | line :: lines => String c line :: lines
                      | [] => [String c EmptyString]
                      end).
    destruct (Ascii.eqb c (ascii_of_nat 10)) eqn:E.
    + intros [<-|I]; [intros []|]. exact (IH2 a line I).
    + destruct (Ascii.eqb c (ascii_of_nat 13) && Ascii.eqb a (ascii_of_nat 10)).
      * intros [<-|I]; [intros []|]. exact (IH1 line I).
      * pose proof (IH2 a) as Q. destruct (split_lines (String a s)) as [|l ls].
        -- intros [<-|[]] [->|[]]. now rewrite Ascii.eqb_refl in E.
        -- intros [<-|I].
           ++ intros H. apply has_char_cons in H. destruct H as [->|H].
              ** now rewrite Ascii.eqb_refl in E.
              ** exact (Q l (or_introl eq_refl) H).
           ++ apply Q. now right.
Qed.

Lemma concat_cons sep x l :
  l <> [] -> String.concat sep (x :: l) = (x ++ sep ++ String.concat sep l)%string.
Proof. destruct l; [congruence|reflexivity]. Qed.

Lemma split_lines_join s :
  ~ has_char (ascii_of_nat 13) s -> String.concat nl (split_lines s) = s.
Proof.
  induction s as [|c rest IH]; intros N; [reflexivity|].
  assert (Nc : Ascii.eqb c (ascii_of_nat 13) = false).
  { apply Ascii.eqb_neq. intros ->. apply N. now left. }
  assert (Nr : ~ has_char (ascii_of_nat 13) rest).
  { intros H. apply N. apply has_char_cons. now right. }
  specialize (IH Nr). pose proof (split_lines_nonempty rest) as NE.
  simpl. destruct (Ascii.eqb c (ascii_of_nat 10)) eqn:E.
  - apply Ascii.eqb_eq in E. subst c. rewrite concat_cons by exact NE. now rewrite IH.
  - destruct rest as [|c' rest']; [reflexivity|]. rewrite Nc. cbn [andb].
    destruct (split_lines (String c' rest')) as [|l ls]; [congruence|].
    rewrite <- IH. destruct ls; reflexivity.
Qed.
End SplitLines.

Section ArgsFiles.
Context {World : Type} `{Platform World} `{Packages}.

(** X1: when [getAndValidateArgs] returns, it has changed nothing, and
    [files] is the [files] input cut at its line breaks: empty exactly when
    the input is empty, without a line feed in any entry, and, for an input
    without carriage returns, giving the input back when joined with line
    feeds. *)
Theorem getAndValidateArgs_files (s : Store World) args s' :
  Main.getAndValidateArgs s = (Ok args, s') ->
  exists inputFilesStr,
    core_getInput "files" false (world s) = Ok inputFilesStr
    /\ s' = s
    /\ (Main.files args = [] <-> inputFilesStr = EmptyString)
    /\ (forall line, In line (Main.files args) -> ~ has_char (ascii_of_nat 10) line)
    /\ (~ has_char (ascii_of_nat 13) inputFilesStr ->
        String.concat nl (Main.files args) = inputFilesStr).
Proof.
  unfold Main.getAndValidateArgs, bind, read_result, lift, ret.
  repeat match goal with
         | |- context [match ?x with Ok _ => _ | Throw _ => _ end] =>
             destruct x eqn:?; try discriminate
         end.
  intros E. inversion E; subst. cbn [Main.files].
  eexists. split; [reflexivity|]. split; [reflexivity|].
  match goal with
  | |- context [truthy_string ?i] => destruct i as [|c rest]
  end.
  - simpl. repeat split; auto.
  - cbn [truthy_string]. split; [|split].
    + split; [|discriminate]. intros Z. exfalso. exact (split_lines_nonempty _ Z).
    + apply split_lines_no_line_feed.
    + apply split_lines_join.
Qed.
End ArgsFiles.

(** The three patterns of the demo repository's [files] input. *)
Lemma getAndValidateArgs_files_witness :
  exists args,
    @Main.getAndValidateArgs _ Mock.platform RefPackages.packages Demo.start
    = (Ok args, Demo.start)
    /\ Main.files args = ["dist/*"; "LICENSE.txt"; "missing"]
    /\ String.concat nl (Main.files args) = "dist/*" ++ nl ++ "LICENSE.txt" ++ nl ++ "missing".
Proof.
  assert (R : exists args,
             @Main.getAndValidateArgs _ Mock.platform RefPackages.packages Demo.start
             = (Ok args, Demo.start)
             /\ Main.files args = ["dist/*"; "LICENSE.txt"; "missing"]).
  { eexists. split; vm_compute; reflexivity. }
  destruct R as (args & R & F). exists args. split; [exact R|]. split; [exact F|].
  destruct (@getAndValidateArgs_files _ Mock.platform RefPackages.packages _ _ _ R)
    as (input & I & _ & _ & _ & J).
  vm_compute in I. inversion I; subst input. apply J.
  unfold has_char. vm_compute. intuition discriminate.
Defined.

(** ** src/main.ts: deletePreviousGitHubRelease *)
Section DeletePrevious.
Context {World : Type} `{Platform World}.

(** X2: [deletePreviousGitHubRelease] looks up the release of the tag and
    then deletes the release with the id the lookup returned, that one
    only; when the lookup is rejected it deletes nothing. It returns in
    every case. *)
Theorem deletePreviousGitHubRelease_calls releaseInfo (s : Store World) :
  exists s' ev,
    Main.deletePreviousGitHubRelease releaseInfo s = (Ok tt, s')
    /\ trace s' = (trace s ++ ev)%list
    /\ calls ev
       = match perform (Repos_getReleaseByTag releaseInfo) (world s) with
         | (Ok id, _) =>
             [Repos_getReleaseByTag releaseInfo;
              Repos_deleteRelease (mkReposDeleteReleaseParams (rt_repo releaseInfo) id)]
         | (Throw _, _) => [Repos_getReleaseByTag releaseInfo]
         end.
Proof.
  unfold Main.deletePreviousGitHubRelease.
  unfold bind, try_catch, request, core. cbn [world trace].
  destruct (perform (Repos_getReleaseByTag releaseInfo) (world s)) as [[id|e] w1].
  - cbn [world trace].
    destruct (perform (Repos_deleteRelease _) w1) as [[[]|e] w2];
      eexists _, _; (split; [reflexivity|]); cbn [world trace];
      (split; [repeat rewrite <- app_assoc; reflexivity|]); reflexivity.
  - eexists _, _. split; [reflexivity|]. cbn [world trace].
    split; [repeat rewrite <- app_assoc; reflexivity|]. reflexivity.
Qed.
End DeletePrevious.

(** ** src/main.ts: createReleaseTag on [refs/tags/<tag>] *)
Section TagNames.
Context {World : Type} `{Platform World}.

Lemma substring_all s : String.substring 0 (String.length s - 0) s = s.
Proof.
  rewrite Nat.sub_0_r. induction s as [|c s IH]; [reflexivity|].
  simpl. now rewrite IH.
Qed.

Lemma substring_from_app p s : substring_from (String.length p) (p ++ s) = s.
Proof.
  unfold substring_from. induction p as [|c p IH]; simpl.
  - apply substring_all.
  - exact IH.
Qed.

(** X3: for the reference [refs/tags/<tag>], [createReleaseTag] creates
    a tag object named [<tag>] on the given commit with the given message,
    creates the reference [refs/tags/<tag>] and, as a fallback, updates
    [tags/<tag>] with force; it makes no other call, and the reference is
    set to the tag object the platform returned, not to the commit. *)
Theorem createReleaseTag_names (repo : RepoInfo) (tag sha message : string)
        (s : Store World) :
  exists r s' ev,
    Main.createReleaseTag (mkGitCreateRefParams repo ("refs/tags/" ++ tag) sha) message s
    = (r, s')
    /\ trace s' = (trace s ++ ev)%list
    /\ hd_error (calls ev)
       = Some (Git_createTag (mkGitCreateTagParams repo tag message sha "commit"))
    /\ Forall (names_tag repo tag) (calls ev)
    /\ forall tagSha w1,
         perform (Git_createTag (mkGitCreateTagParams repo tag message sha "commit")) (world s)
         = (Ok tagSha, w1) ->
         Forall (points_at tagSha) (calls ev).
Proof.
  destruct (createReleaseTag_run (mkGitCreateRefParams repo ("refs/tags/" ++ tag) sha)
              message s) as (r & s' & ev & R & T & O).
  exists r, s', ev. split; [exact R|]. split; [exact T|].
  unfold tag_outcome, tag_object_request, ref_request, ref_update in O.
  cbn [cr_repo cr_ref cr_sha] in O.
  assert (Ep : substring_from 10 ("refs/tags/" ++ tag) = tag)
    by apply (substring_from_app "refs/tags/").
  assert (Eq : substring_from 5 ("refs/tags/" ++ tag) = "tags/" ++ tag)
    by apply (substring_from_app "refs/" ("tags/" ++ tag)).
  rewrite Ep, Eq in O.
  destruct (perform (Git_createTag _) (world s)) as [[tagSha|e] w1].
  - destruct (perform (Git_createRef _) w1) as [[[]|e] w2]; destruct O as [_ ->].
    + split; [reflexivity|]. split; [repeat constructor|].
      intros tagSha' w1' E. inversion E; subst. repeat constructor.
    + split; [reflexivity|]. split; [repeat constructor|].
      intros tagSha' w1' E. inversion E; subst. repeat constructor.
  - destruct O as [_ ->]. split; [reflexivity|]. split; [repeat constructor|].
    intros tagSha' w1' E. discriminate.
Qed.
End TagNames.

(** ** src/main.ts: getChangelog *)
Section Changelog.
Context {World : Type} `{Platform World} `{Packages} `{Helpers}.

Lemma getChangelog_loop owner repo commits : forall acc (s : Store World) r s',
  for_of commits (fun parsedCommits commit =>
    core (Debug ("Processing commit: " ++ JSON_stringify commit)) ;;
    core (Debug ("Searching for pull requests associated with commit "
                 ++ commit_sha commit)) ;;
    pulls <- request (Repos_listPullRequestsAssociatedWithCommit
      (mkListPullRequestsParams (mkRepoInfo owner repo) (commit_sha commit))) ;;
    (if Nat.eqb (List.length pulls) 0 then ret tt
     else core (Info ("Found " ++ Number_toString (List.length pulls)
                      ++ " pull request(s) associated with commit "
                      ++ commit_sha commit))) ;;
    let clOptions := getChangelogOptions in
    parsedCommitMsg <- lift (commitParser (commit_message commit) clOptions) ;;
    match pc_merge parsedCommitMsg with
    | Some (String c merge) =>
        core (Debug ("Ignoring merge commit: " ++ String c merge)) ;;
        ret parsedCommits
    | _ =>
        let extra :=
          mkExtra commit
                  (map (fun pr => mkPullRequestLink (pr_number pr) (pr_html_url pr)) pulls)
                  (isBreakingChange (pc_body parsedCommitMsg) (pc_footer parsedCommitMsg)) in
        let parsedCommitMsg := mkParsedCommits parsedCommitMsg extra in
        core (Debug ("Parsed commit: " ++ JSON_stringify parsedCommitMsg)) ;;
        core (Info ("Adding commit " ++ dquote
                    ++ nullable_toString (pc_header (parsed_msg parsedCommitMsg))
                    ++ dquote ++ " to the changelog")) ;;
        ret (parsedCommits ++ [parsedCommitMsg])%list
    end) acc s = (r, s') ->
  exists ev,
    trace s' = (trace s ++ ev)%list
    /\ (forall parsed, r = Ok parsed ->
          calls ev = map (pulls_request owner repo) commits
          /\ Forall parses commits
          /\ exists found,
               map fst found = commits
               /\ parsed = (acc ++ changelog_entries found)%list)
    /\ (forall e, r = Throw e ->
          exists before failing after,
            commits = (before ++ failing :: after)%list
            /\ calls ev = map (pulls_request owner repo) (before ++ [failing])
            /\ Forall parses before
            /\ (In (Rejected (pulls_request owner repo failing) e) ev
                \/ (commitParser (commit_message failing) getChangelogOptions = Throw e
                    /\ forall c e', ~ In (Rejected c e') ev))).
Proof.
  induction commits as [|commit commits IH]; intros acc s r s' R.
  - inversion R; subst. exists []. rewrite app_nil_r. split; [reflexivity|]. split.
    + intros parsed E. inversion E; subst. split; [reflexivity|]. split; [constructor|].
      exists []. split; [reflexivity|]. simpl. now rewrite app_nil_r.
    + discriminate.
  - cbn [for_of] in R. unfold bind at 1 in R.
    match type of R with
    | context [match ?m s with _ => _ end] => destruct (m s) as [[acc1|e1] s1] eqn:B
    end.
    + (* the turn returned *)
      assert (S1 : exists pulls ev1,
                 trace s1 = (trace s ++ ev1)%list
                 /\ calls ev1 = [pulls_request owner repo commit]
                 /\ (forall c e', ~ In (Rejected c e') ev1)
                 /\ parses commit
                 /\ acc1 = (acc ++ changelog_entry commit pulls)%list).
      { clear R IH. cbv zeta in B.
        unfold bind, core, request, lift, ret in B. cbn [world trace] in B.
        destruct (perform _ (world s)) as [[pulls|e] w1]; [|discriminate].
        exists pulls. unfold changelog_entry, parses.
        destruct (Nat.eqb (List.length pulls) 0);
          destruct (commitParser (commit_message commit) getChangelogOptions)
            as [parsedCommitMsg|e]; try discriminate;
          destruct (pc_merge parsedCommitMsg) as [[|c m]|];
          inversion B; subst; cbn [trace]; eexists;
          (split; [repeat rewrite <- app_assoc; reflexivity|]);
          (split; [reflexivity|]);
          (split; [intros c0 e0 I; simpl in I;
                   repeat (destruct I as [I|I]; [discriminate I|]); exact I|]);
          (split; [eexists; reflexivity|]); rewrite ?app_nil_r; reflexivity. }
      destruct S1 as (pulls & ev1 & T1 & C1 & N1 & P1 & A1).
      destruct (IH _ _ _ _ R) as (ev2 & T2 & OK2 & KO2).
      exists (ev1 ++ ev2)%list. split; [now rewrite T2, T1, app_assoc|]. split.
      * intros parsed E. destruct (OK2 _ E) as (C2 & P2 & found & F & P).
        split; [rewrite calls_app, C1, C2; reflexivity|].
        split; [now constructor|].
        exists ((commit, pulls) :: found). split; [simpl; now rewrite F|].
        rewrite P, A1. unfold changelog_entries. simpl. now rewrite <- app_assoc.
      * intros e E. destruct (KO2 _ E) as (before & failing & after & -> & C2 & P2 & I).
        exists (commit :: before), failing, after. split; [reflexivity|].
        split; [rewrite calls_app, C1, C2; reflexivity|].
        split; [now constructor|].
        destruct I as [I|[I N2]]; [left; apply in_or_app; now right|].
        right. split; [exact I|]. intros c0 e0 I0. apply in_app_or in I0.
        destruct I0 as [I0|I0]; [exact (N1 _ _ I0) | exact (N2 _ _ I0)].
    + (* the lookup was rejected, or the parser refused the message *)
      inversion R; subst. clear IH R.
      cbv zeta in B. unfold bind, core, request, lift, ret in B. cbn [world trace] in B.
      destruct (perform _ (world s)) as [[pulls|e] w1].
      * destruct (commitParser (commit_message commit) getChangelogOptions)
          as [parsedCommitMsg|e] eqn:P.
        -- exfalso.
           destruct (Nat.eqb (List.length pulls) 0);
             destruct (pc_merge parsedCommitMsg) as [[|c m]|]; discriminate.
        -- destruct (Nat.eqb (List.length pulls) 0);
             inversion B; subst; cbn [trace]; eexists;
             (split; [repeat rewrite <- app_assoc; reflexivity|]);
             (split; [discriminate|]);
             intros e' E; inversion E; subst; exists [], commit, commits;
             (split; [reflexivity|]); (split; [reflexivity|]);
             (split; [apply Forall_nil|]); right; (split; [exact P|]);
             intros c0 e0 I; simpl in I;
             repeat (destruct I as [I|I]; [discriminate I|]); exact I.
      * inversion B; subst. cbn [trace]. eexists. split; [repeat rewrite <- app_assoc; reflexivity|].
        split; [discriminate|].
        intros e' E. inversion E; subst. exists [], commit, commits.
        split; [reflexivity|]. split; [reflexivity|]. split; [constructor|].
        left. simpl. unfold pulls_request. tauto.
Qed.



End Changelog.


(** ** src/main.ts: main under its modes *)
Section MoreEmits.
Context {World : Type} `{Platform World}.

Lemma emits_bind_ret {A B} (Q : Result B -> list Event -> Prop) (x : A)
      (k : A -> M World B) :
  emits Q (k x) -> emits Q (bind (ret x) k).
Proof. intros E s r s' R. exact (E s r s' R). Qed.

Lemma emits_bind_throw {A B} (Q : Result B -> list Event -> Prop) e
      (k : A -> M World B) :
  Q (Throw e) [] -> emits Q (bind (throw e) k).
Proof.
  intros q s r s' R. inversion R; subst. exists []. now rewrite app_nil_r.
Qed.

Lemma all_bind_ret {A B} P (x : A) (k : A -> M World B) :
  all P (k x) -> all P (bind (ret x) k).
Proof. apply emits_bind_ret. Qed.
End MoreEmits.

Ltac trace_step_with solver :=
  first
    [ match goal with
      | |- all _ (bind (ret _) _) => apply all_bind_ret
      end
    | apply all_bind
    | apply all_try_catch
    | apply all_for_of
    | apply all_Array_map
    | apply all_core; solver
    | match goal with
      | |- all ?P (request ?c) =>
          apply (@all_request _ _ P c); [ solver | intros; solver ]
      end
    | apply all_ret
    | apply all_throw
    | apply all_lift
    | apply all_read
    | apply all_read_result
    | apply all_if
    | match goal with
      | |- forall _, _ => intro
      | |- all _ (match ?x with _ => _ end) => destruct x
      end ].

Ltac trace_all_with solver := cbv zeta; repeat trace_step_with solver.

Ltac unfold_main :=
  unfold Main.searchForPreviousReleaseTag,
    Main.tagList, Main.getCommitsSinceRelease, Main.getChangelog, Files.getPaths,
    Sha.getChecksums, Main.createReleaseTag, Main.deletePreviousGitHubRelease,
    Main.generateNewGitHubRelease.

Section MainModes.
Context {World : Type} `{Platform World} `{SemVer} `{Packages} `{Helpers}.

(** What [main] adds to the trace, from what its [try] block adds, when the
    property holds of every call of [@actions/core]. *)
Lemma main_all (P : Event -> Prop) (s : Store World) r s' :
  (forall e, P (Core e)) ->
  (forall r0 s0, Main.main_try s = (r0, s0) ->
     exists ev, trace s0 = (trace s ++ ev)%list /\ Forall P ev) ->
  Main.main s = (r, s') ->
  exists ev, trace s' = (trace s ++ ev)%list /\ Forall P ev.
Proof.
  intros PC E R. rewrite main_run in R.
  destruct (Main.main_try s) as [[a|e] s0] eqn:MT;
    destruct (E _ _ eq_refl) as (ev & T & F); inversion R; subst.
  - eauto.
  - exists (ev ++ [Core (SetFailed (err_message e))])%list. cbn [trace].
    split; [now rewrite T, app_assoc|]. apply Forall_app. split; [exact F|].
    repeat constructor. apply PC.
Qed.


(** X8: in a run of [main] whose [automatic_release_tag] input is empty, no
    call creates a tag object, creates or moves a reference, looks up or
    deletes a release. *)
Theorem main_without_explicit_tag (s : Store World) args s1 r s' :
  Main.getAndValidateArgs s = (Ok args, s1) ->
  Main.automaticReleaseTag args = EmptyString ->
  Main.main s = (r, s') ->
  exists ev, trace s' = (trace s ++ ev)%list /\ Forall untagged_event ev.
Proof.
  intros GA NT R.
  apply (@main_all untagged_event s r s'); [intros e; exact I | | exact R].
  clear R r s'. intros r s' R.
  destruct (getAndValidateArgs_tag _ GA) as [-> _].
  unfold Main.main_try in R. unfold bind at 1 in R. rewrite GA in R. revert R.
  match goal with
  | |- ?m s = _ -> _ => assert (E : all untagged_event m)
  end.
  { rewrite NT. cbn [truthy_string]. unfold_main.
    trace_all_with ltac:(first [exact I | split; discriminate]). }
  intros R. exact (E _ _ _ R).
Qed.

(** X6: when the [automatic_release_tag] input is empty and the reference
    that triggered the run is not a tag, [main] raises the error that
    names the reference, after the dump of the event payload as its only
    call, and reports the message with [setFailed] as its last event. *)
Theorem main_no_tag (s : Store World) args s1 w1 :
  Main.getAndValidateArgs s = (Ok args, s1) ->
  Main.automaticReleaseTag args = EmptyString ->
  perform DumpGitHubEventPayload (world s) = (Ok tt, w1) ->
  parseGitTag (context_ref w1) = EmptyString ->
  exists e ev,
    Main.main s = (Throw e, mkStore w1 (trace s ++ ev))
    /\ err_message e
       = "The parameter " ++ dquote ++ "automatic_release_tag" ++ dquote
         ++ " was not set and this does not appear to be a GitHub tag event. (Event: "
         ++ context_ref w1 ++ ")"
    /\ calls ev = [DumpGitHubEventPayload]
    /\ last ev (Core EndGroup) = Core (SetFailed (err_message e)).
Proof.
  intros GA NT D PG.
  destruct (getAndValidateArgs_tag _ GA) as [-> _].
  unfold Main.main, try_catch, Main.main_try.
  unfold bind at 1. rewrite GA.
  unfold bind at 1. rewrite core_run.
  unfold bind at 1, request at 1. cbn [world trace]. rewrite D.
  unfold bind at 1, read at 1. cbn [world].
  unfold bind at 1, read at 1. cbn [world].
  unfold bind at 1. rewrite core_run.
  unfold bind at 1. rewrite core_run.
  unfold bind at 1. rewrite core_run.
  cbv zeta. rewrite NT. cbn [truthy_string]. rewrite PG. cbn [truthy_string].
  unfold bind at 1, throw at 1. unfold Main.main_catch, bind, core, throw. cbn [world trace].
  eexists _, _. split; [repeat rewrite <- app_assoc; reflexivity|].
  split; [reflexivity|]. split; reflexivity.
Qed.

Lemma truthy_string_true t : truthy_string t = true -> t <> EmptyString.
Proof. destruct t; [discriminate|discriminate]. Qed.

Lemma releases_app ev1 ev2 : releases (ev1 ++ ev2) = (releases ev1 ++ releases ev2)%list.
Proof. unfold releases. now rewrite calls_app, filter_app. Qed.

Lemma quiet_releases ev : Forall quiet ev -> releases ev = [].
Proof.
  induction 1 as [|e ev Q _ IH]; [reflexivity|].
  change (e :: ev) with ([e] ++ ev)%list. rewrite releases_app, IH, app_nil_r.
  destruct e as [c|c|c e]; try reflexivity. destruct c; try reflexivity. destruct Q.
Qed.

Lemma quiet_no_output ev : Forall quiet ev -> Forall (fun e => ~ sets_output e) ev.
Proof.
  apply Forall_impl. intros e Q. destruct e as [c|c|c e]; try exact Q; intros [].
Qed.

Lemma outcome_skip {A} (m : M World A) (k : A -> M World unit) :
  all quiet m -> (forall a, emits outcome (k a)) -> emits outcome (bind m k).
Proof.
  intros E K. eapply emits_bind; [exact E | exact K | |].
  - intros e ev Q. split; [rewrite (quiet_releases Q); simpl; lia|].
    now apply quiet_no_output.
  - intros a ev1 r ev2 Q [L O]. split.
    + now rewrite releases_app, (quiet_releases Q).
    + destruct r as [u|e].
      * destruct O as (ev0 & p & url & paths & -> & Q0 & N1 & N2).
        exists (ev1 ++ ev0)%list, p, url, paths. rewrite app_assoc.
        split; [reflexivity|]. split; [now apply Forall_app|]. now split.
      * apply Forall_app. split; [now apply quiet_no_output | exact O].
Qed.

Ltac quiet_event := first [ exact I | intros [] ].

Ltac skip_quiet :=
  apply outcome_skip; [ unfold_main; solve [ trace_all_with quiet_event ] | intros ? ].

Lemma outcome_main_try : emits outcome (Main.main_try : M World unit).
Proof.
  unfold Main.main_try.
  apply outcome_skip;
    [unfold Main.getAndValidateArgs; solve [trace_all_with quiet_event] | intros args].
  do 7 skip_quiet. cbv zeta.
  match goal with
  | |- emits _ (bind (if truthy_string ?t then _ else _) _) =>
      destruct (truthy_string t) eqn:TT
  end.
  2: { apply emits_bind_throw. split; [simpl; lia | constructor]. }
  apply emits_bind_ret.
  do 8 skip_quiet.
  intros s r s' R.
  unfold Main.generateNewGitHubRelease, bind, request, core, ret in R. cbn [world trace] in R.
  destruct (perform (Repos_createRelease _) (world s)) as [[url|e] w1];
    [|inversion R; subst; cbn [trace]; eexists;
      (split; [repeat rewrite <- app_assoc; reflexivity|]);
      split; [simpl; lia | repeat constructor; intros []]].
  cbn [world trace] in R.
  destruct (perform (UploadReleaseArtifacts _ _) w1) as [[[]|e] w2];
    inversion R; subst; cbn [trace]; eexists;
    (split; [repeat rewrite <- app_assoc; reflexivity|]);
    (split; [simpl; lia|]); [|repeat constructor; intros []].
  match goal with
  | |- context [Called (UploadReleaseArtifacts ?u ?ps)] =>
      match goal with
      | |- context [Called (Repos_createRelease ?p)] => exists [], p, u, ps
      end
  end.
  split; [reflexivity|]. split; [constructor|]. cbn [nr_tag_name nr_name].
  apply truthy_string_true in TT. split; [exact TT|].
  destruct (truthy_string (Main.releaseTitle args)) eqn:TI;
    [now apply truthy_string_true | exact TT].
Qed.

(** X10: a run of [main] that raises reports the message of the error with
    [setFailed] as its last event, has set no output and exported no
    variable, and has created at most one release. *)
Theorem main_failure (s s' : Store World) e :
  Main.main s = (Throw e, s') ->
  exists ev,
    trace s' = (trace s ++ ev ++ [Core (SetFailed (err_message e))])%list
    /\ Forall (fun e => ~ sets_output e) ev
    /\ length (releases ev) <= 1.
Proof.
  intros R. rewrite main_run in R.
  destruct (Main.main_try s) as [[a|e0] s0] eqn:MT; [discriminate|].
  inversion R; subst. cbn [trace].
  destruct (outcome_main_try _ MT) as (ev & T & L & O).
  exists ev. rewrite T, app_assoc. now split.
Qed.
End MainModes.


Lemma main_without_explicit_tag_witness :
  exists r s' ev,
    @Main.main _ Mock.platform RefSemVer.semver RefPackages.packages RefHelpers.helpers
      Scenario.tag_push
    = (r, s')
    /\ trace s' = (trace Scenario.tag_push ++ ev)%list
    /\ Forall untagged_event ev.
Proof.
  assert (R : exists r s',
             @Main.main _ Mock.platform RefSemVer.semver RefPackages.packages
               RefHelpers.helpers Scenario.tag_push
             = (r, s')).
  { eexists _, _. vm_compute. reflexivity. }
  destruct R as (r & s' & R).
  assert (GA : exists args s1,
             @Main.getAndValidateArgs _ Mock.platform RefPackages.packages
               Scenario.tag_push
             = (Ok args, s1)
             /\ Main.automaticReleaseTag args = EmptyString).
  { eexists _, _. split; [vm_compute; reflexivity | reflexivity]. }
  destruct GA as (args & s1 & GA & NT).
  destruct (@main_without_explicit_tag _ Mock.platform RefSemVer.semver
              RefPackages.packages RefHelpers.helpers _ _ _ _ _ GA NT R) as (ev & T & F).
  exists r, s', ev. split; [exact R|]. split; [exact T | exact F].
Defined.

Lemma main_no_tag_witness :
  exists e s',
    @Main.main _ Mock.platform RefSemVer.semver RefPackages.packages RefHelpers.helpers
      Scenario.branch_push
    = (Throw e, s')
    /\ err_message e
       = "The parameter " ++ dquote ++ "automatic_release_tag" ++ dquote
         ++ " was not set and this does not appear to be a GitHub tag event. (Event: "
         ++ "refs/heads/main)"
    /\ calls (trace s') = [DumpGitHubEventPayload].
Proof.
  assert (GA : exists args s1 w1,
             @Main.getAndValidateArgs _ Mock.platform RefPackages.packages
               Scenario.branch_push
             = (Ok args, s1)
             /\ Main.automaticReleaseTag args = EmptyString
             /\ @perform _ Mock.platform DumpGitHubEventPayload (world Scenario.branch_push)
                = (Ok tt, w1)
             /\ @context_ref _ Mock.platform w1 = "refs/heads/main").
  { eexists _, _, _. split; [vm_compute; reflexivity|].
    split; [reflexivity|]. split; [vm_compute; reflexivity | reflexivity]. }
  destruct GA as (args & s1 & w1 & GA & NT & D & CR).
  destruct (@main_no_tag _ Mock.platform RefSemVer.semver RefPackages.packages
              RefHelpers.helpers _ _ _ _ GA NT D) as (e & ev & R & E & C & _).
  { rewrite CR. reflexivity. }
  exists e, (mkStore w1 (trace Scenario.branch_push ++ ev)).
  split; [exact R|]. rewrite CR in E. split; [exact E|]. exact C.
Defined.

Lemma main_failure_witness :
  exists s' ev,
    @Main.main _ Mock.platform RefSemVer.semver RefPackages.packages RefHelpers.helpers
      (Mock.start (Demo.world_with [] Demo.release_down))
    = (Throw Demo.server_error, s')
    /\ trace s' = (ev ++ [Core (SetFailed "Internal Server Error")])%list
    /\ Forall (fun e => ~ sets_output e) ev.
Proof.
  assert (R : exists s',
             @Main.main _ Mock.platform RefSemVer.semver RefPackages.packages
               RefHelpers.helpers (Mock.start (Demo.world_with [] Demo.release_down))
             = (Throw Demo.server_error, s')).
  { eexists. vm_compute. reflexivity. }
  destruct R as (s' & R).
  destruct (@main_failure _ Mock.platform RefSemVer.semver RefPackages.packages
              RefHelpers.helpers _ _ _ R) as (ev & T & F & _).
  exists s', ev. split; [exact R|]. split; [exact T | exact F].
Defined.

(** ** src/main.ts: searchForPreviousReleaseTag, whatever the order of versions *)
Section TagListing.
Context {World : Type} `{Platform World} `{SemVer}.

Lemma previousReleaseTag_sound currentReleaseTag l :
  Main.previousReleaseTag currentReleaseTag l = EmptyString
  \/ exists t, In t l
               /\ Main.previousReleaseTag currentReleaseTag l = tag_name (Main.tagged t)
               /\ semverLt (Main.version_of t) currentReleaseTag = true.
Proof.
  induction l as [|t l IH]; simpl; [now left|].
  destruct (semverLt (Main.version_of t) currentReleaseTag) eqn:L.
  - right. exists t. auto.
  - destruct IH as [E|(t' & I & E & L')]; [now left|].
    right. exists t'. auto.
Qed.

(** X5: for a current tag that is a version, and whatever order
    [semverCompare] puts on versions, the resolver makes one call, the
    listing of the tags.  When the listing is rejected, the resolver raises
    that rejection.  When it is answered, the resolver logs one line per
    listed tag, in the order of the listing, and returns the empty string
    or the name of a listed tag that is a version less than the current
    one. *)
Theorem searchForPreviousReleaseTag_listing
        (currentReleaseTag : string) (tagInfo : RepoInfo) (s : Store World) :
  semverValid currentReleaseTag <> None ->
  exists r s',
    Main.searchForPreviousReleaseTag currentReleaseTag tagInfo s = (r, s')
    /\ match perform (Paginate_listTags tagInfo) (world s) with
       | (Ok tl, w') =>
           world s' = w'
           /\ trace s'
              = (trace s
                 ++ Called (Paginate_listTags tagInfo)
                 :: map (fun tag => Core (Debug ("Currently processing tag " ++ tag_name tag)))
                        tl)%list
           /\ exists previous,
                r = Ok previous
                /\ (previous = EmptyString
                    \/ exists tag, In tag tl /\ previous = tag_name tag
                                   /\ older_than currentReleaseTag tag)
       | (Throw e, w') =>
           r = Throw e
           /\ world s' = w'
           /\ trace s'
              = (trace s ++ [Called (Paginate_listTags tagInfo);
                             Rejected (Paginate_listTags tagInfo) e])%list
       end.
Proof.
  intros V. unfold Main.searchForPreviousReleaseTag.
  destruct (semverValid currentReleaseTag); [|congruence].
  unfold bind at 1, request at 1.
  destruct (perform (Paginate_listTags tagInfo) (world s)) as [[tl|e] w'].
  - unfold bind at 1. rewrite tagList_run. unfold ret. cbn [world trace].
    eexists _, _. split; [reflexivity|]. cbn [world trace].
    split; [reflexivity|]. split; [now rewrite <- app_assoc|].
    eexists. split; [reflexivity|].
    destruct (previousReleaseTag_sound currentReleaseTag (scanned tl))
      as [E|(t & I & E & L)]; [now left|].
    right. apply scanned_In in I. destruct I as (tag & v & I & Vt & ->).
    exists tag. split; [exact I|]. split; [exact E|]. exists v. split; [exact Vt | exact L].
  - eexists _, _. split; [reflexivity|]. cbn [world trace]. auto.
Qed.
End TagListing.

Lemma searchForPreviousReleaseTag_listing_witness :
  exists s',
    @Main.searchForPreviousReleaseTag _ Mock.platform RefSemVer.semver "v1.1.0" Demo.repo
      (Mock.start (Demo.world_with [] Scenario.listing_down))
    = (Throw Demo.server_error, s')
    /\ calls (trace s') = [Paginate_listTags Demo.repo].
Proof.
  destruct (@searchForPreviousReleaseTag_listing _ Mock.platform RefSemVer.semver
              "v1.1.0" Demo.repo (Mock.start (Demo.world_with [] Scenario.listing_down)))
    as (r & s' & R & O); [discriminate|].
  cbn in O. destruct O as (-> & _ & T). exists s'. split; [exact R|].
  rewrite T. reflexivity.
Defined.

(** ** src/main.ts: main on inputs that are refused *)
Section InvalidInput.
Context {World : Type} `{Platform World} `{SemVer} `{Packages} `{Helpers}.

Lemma getAndValidateArgs_reads (s : Store World) r s' :
  Main.getAndValidateArgs s = (r, s') -> s' = s.
Proof.
  unfold Main.getAndValidateArgs, bind, read_result, lift, ret.
  repeat match goal with
         | |- context [match ?x with Ok _ => _ | Throw _ => _ end] => destruct x
         end; intros E; inversion E; reflexivity.
Qed.

(** X11: when [getAndValidateArgs] raises (a required input is missing, or
    [JSON.parse] refuses one), [main] raises the same error, makes no
    call, leaves the world as it was, and its only event is the
    [setFailed] with the message of the error. *)
Theorem main_invalid_input (s : Store World) e s1 :
  Main.getAndValidateArgs s = (Throw e, s1) ->
  Main.main s
  = (Throw e, mkStore (world s) (trace s ++ [Core (SetFailed (err_message e))])).
Proof.
  intros GA. assert (E := getAndValidateArgs_reads _ GA). subst s1.
  rewrite main_run. unfold Main.main_try. rewrite (bind_Throw _ _ _ GA). reflexivity.
Qed.
End InvalidInput.

Lemma main_invalid_input_witness :
  exists e,
    @Main.main _ Mock.platform RefSemVer.semver RefPackages.packages RefHelpers.helpers
      (Mock.start (Scenario.world_of [("repo_token", "secret"); ("is_tag_static", "false")]
                     "refs/tags/v1.1.0" Mock.no_faults))
    = (Throw e,
       mkStore (Scenario.world_of [("repo_token", "secret"); ("is_tag_static", "false")]
                  "refs/tags/v1.1.0" Mock.no_faults)
               [Core (SetFailed "Input required and not supplied: draft")]).
Proof.
  assert (GA : exists e s1,
             @Main.getAndValidateArgs _ Mock.platform RefPackages.packages
               (Mock.start (Scenario.world_of
                              [("repo_token", "secret"); ("is_tag_static", "false")]
                              "refs/tags/v1.1.0" Mock.no_faults))
             = (Throw e, s1)
             /\ err_message e = "Input required and not supplied: draft").
  { eexists _, _. split; [vm_compute; reflexivity | reflexivity]. }
  destruct GA as (e & s1 & GA & M).
  exists e. rewrite <- M.
  exact (@main_invalid_input _ Mock.platform RefSemVer.semver RefPackages.packages
           RefHelpers.helpers _ _ _ GA).
Defined.

(** ** src/files.ts: getPaths when a pattern cannot be expanded, and on
    lists of patterns put together *)
Section FilesFurther.
Context {World : Type} `{Platform World}.

Lemma getPaths_loop_rejected before g after e : forall acc (s : Store World),
  expands (world s) before ->
  globby g (world s) = Throw e ->
  for_of (before ++ g :: after) (fun paths fileGlob =>
    gpaths <- read_result (globby fileGlob) ;;
    if Nat.eqb (List.length gpaths) 0 then
      core (ErrorAnnotation (fileGlob ++ " doesn't match any files")) ;;
      ret paths
    else
      ret (Files.new_Set (paths ++ gpaths))) acc s
  = (Throw e, mkStore (world s) (trace s ++ diagnostics (world s) before)).
Proof.
  induction before as [|g0 before IH]; intros acc s E G.
  - cbn [app for_of]. unfold bind at 1, bind at 1, read_result at 1. rewrite G.
    unfold diagnostics. simpl. rewrite app_nil_r. now destruct s.
  - destruct (E g0 (or_introl eq_refl)) as [ms G0].
    assert (E' : expands (world s) before) by (intros g' I; apply E; now right).
    cbn [app for_of]. unfold bind at 1, bind at 1, read_result at 1.
    rewrite G0. unfold diagnostics, glob_matches. cbn [filter]. rewrite G0.
    destruct (Nat.eqb (List.length ms) 0) eqn:Z.
    + unfold bind at 1. rewrite core_run. unfold ret at 1.
      rewrite IH by assumption. cbn [world trace map].
      unfold diagnostics, glob_matches. now rewrite <- app_assoc.
    + unfold ret at 1. rewrite IH by assumption. reflexivity.
Qed.

(** X12: when the expansion of a pattern is rejected and the patterns
    before it can be expanded, [getPaths] raises that rejection: the
    patterns behind it are not looked at, the trace holds the opening of
    the group and the annotations of the earlier patterns that matched
    nothing, and the group is left open. *)
Theorem getPaths_rejected (before after : list string) (fileGlob : string) e
        (s : Store World) :
  expands (world s) before ->
  globby fileGlob (world s) = Throw e ->
  Files.getPaths (before ++ fileGlob :: after) s
  = (Throw e,
     mkStore (world s)
       (trace s
        ++ Core (StartGroup "Getting artifact paths from file globs")
        :: diagnostics (world s) before)).
Proof.
  intros E G. unfold Files.getPaths.
  unfold bind at 1. rewrite core_run.
  unfold bind at 1. erewrite getPaths_loop_rejected by eassumption.
  cbn [world trace]. now rewrite <- app_assoc.
Qed.

Lemma expands_app w a b : expands w (a ++ b) <-> expands w a /\ expands w b.
Proof.
  unfold expands. split.
  - intros E. split; intros g I; apply E; apply in_or_app; auto.
  - intros [Ea Eb] g I. apply in_app_or in I. destruct I; auto.
Qed.

Lemma first_seen_app_r a b : first_seen (a ++ first_seen b) = first_seen (a ++ b).
Proof.
  rewrite !first_seen_app, !fold_Set_add. f_equal.
  now rewrite <- first_seen_filter, first_seen_idem.
Qed.

Lemma first_seen_app_new a b :
  first_seen (a ++ b)
  = (first_seen a ++ filter (fun p => negb (memb p (first_seen a))) (first_seen b))%list.
Proof.
  rewrite first_seen_app, fold_Set_add. f_equal. apply first_seen_filter.
Qed.

(** X13: the paths of two lists of patterns put together are the paths of
    the first list, followed by the paths of the second list that the first
    did not match, in their order: patterns added at the end never move or
    remove a path found before. *)
Theorem getPaths_app (files1 files2 : list string) (s : Store World) :
  expands (world s) (files1 ++ files2) ->
  exists paths1 paths2 s1 s2 s',
    Files.getPaths files1 s = (Ok paths1, s1)
    /\ Files.getPaths files2 s = (Ok paths2, s2)
    /\ Files.getPaths (files1 ++ files2) s
       = (Ok (paths1 ++ filter (fun p => negb (memb p paths1)) paths2)%list, s').
Proof.
  intros E. destruct (proj1 (expands_app _ _ _) E) as [E1 E2].
  do 5 eexists.
  split; [apply getPaths_run; exact E1|].
  split; [apply getPaths_run; exact E2|].
  rewrite (getPaths_run _ E), flat_map_app, first_seen_app_new. reflexivity.
Qed.
End FilesFurther.

Lemma getPaths_rejected_witness :
  exists e,
    @Files.getPaths _ Scenario.guarded_platform ["missing"; "secrets/*"; "dist/*"]
      (Mock.start (Demo.world_with ["secrets/"] Mock.no_faults))
    = (Throw e,
       mkStore (Demo.world_with ["secrets/"] Mock.no_faults)
         [Core (StartGroup "Getting artifact paths from file globs");
          Core (ErrorAnnotation "missing doesn't match any files")]).
Proof.
  eexists.
  apply (@getPaths_rejected _ Scenario.guarded_platform ["missing"] ["dist/*"] "secrets/*").
  - intros g [<-|[]]. eexists. reflexivity.
  - reflexivity.
Defined.

Lemma getPaths_app_witness :
  exists s',
    @Files.getPaths _ Mock.platform (["dist/*"] ++ ["LICENSE.txt"; "dist/a.txt"]) Demo.start
    = (Ok ["dist/a.txt"; "dist/b.txt"; "LICENSE.txt"], s').
Proof.
  destruct (@getPaths_app _ Mock.platform ["dist/*"] ["LICENSE.txt"; "dist/a.txt"]
              Demo.start (Demo_expands _))
    as (paths1 & paths2 & s1 & s2 & s' & R1 & R2 & R).
  exists s'.
  assert (E1 : paths1 = ["dist/a.txt"; "dist/b.txt"]).
  { vm_compute in R1. now inversion R1. }
  assert (E2 : paths2 = ["LICENSE.txt"; "dist/a.txt"]).
  { vm_compute in R2. now inversion R2. }
  rewrite E1, E2 in R. exact R.
Defined.

(** ** src/main.ts: getCommitsSinceRelease when the previous tag resolves *)
Section CommitsResolved.
Context {World : Type} `{Platform World} `{Helpers}.

(** X14: when the reference of the previous tag resolves and the
    comparison is answered, [getCommitsSinceRelease] returns the commits
    of that comparison, whose base is the tag named by the reference and
    whose head is the current commit; these two are its only calls, and
    the trace holds neither a rejection nor a warning. *)
Theorem getCommitsSinceRelease_resolved
        (tagInfo : GitGetRefParams) (currentSha : string) (s : Store World)
        (w1 w2 : World) (commits : list Commit) :
  perform (Git_getRef tagInfo) (world s) = (Ok tt, w1) ->
  perform (Repos_compareCommits
             (mkReposCompareCommitsParams (gr_repo tagInfo)
                (parseGitTag (gr_ref tagInfo)) currentSha)) w1
  = (Ok commits, w2) ->
  exists ev,
    Main.getCommitsSinceRelease tagInfo currentSha s
    = (Ok commits, mkStore w2 (trace s ++ ev))
    /\ calls ev
       = [Git_getRef tagInfo;
          Repos_compareCommits
            (mkReposCompareCommitsParams (gr_repo tagInfo)
               (parseGitTag (gr_ref tagInfo)) currentSha)]
    /\ (forall c e, ~ In (Rejected c e) ev)
    /\ (forall msg, ~ In (Core (Warning msg)) ev).
Proof.
  intros G C. unfold Main.getCommitsSinceRelease.
  unfold bind, try_catch, request, core, ret. cbn [world trace].
  rewrite G. cbn [world trace]. rewrite C. cbn [world trace Main.data_commits].
  eexists. split; [f_equal; f_equal; repeat rewrite <- app_assoc; reflexivity|].
  split; [reflexivity|].
  split; [intros c e I | intros msg I]; simpl in I;
    repeat (destruct I as [I|I]; [discriminate I|]); exact I.
Qed.
End CommitsResolved.

Lemma getCommitsSinceRelease_resolved_witness :
  exists s',
    @Main.getCommitsSinceRelease _ Mock.platform RefHelpers.helpers
      (mkGitGetRefParams Demo.repo "tags/v1.0.1") "abc123" Demo.start
    = (Ok [mkCommit "c1" "feat: add foo"; mkCommit "c2" "Merge pull request #3 from x"], s')
    /\ calls (trace s')
       = [Git_getRef (mkGitGetRefParams Demo.repo "tags/v1.0.1");
          Repos_compareCommits (mkReposCompareCommitsParams Demo.repo "v1.0.1" "abc123")].
Proof.
  destruct (@getCommitsSinceRelease_resolved _ Mock.platform RefHelpers.helpers
              (mkGitGetRefParams Demo.repo "tags/v1.0.1") "abc123" Demo.start
              Demo.world Demo.world
              [mkCommit "c1" "feat: add foo"; mkCommit "c2" "Merge pull request #3 from x"]
              eq_refl eq_refl)
    as (ev & R & C & _).
  eexists. split; [exact R|]. exact C.
Defined.

(** ** src/main.ts: what main forwards from the inputs *)
Section MainForwards.
Context {World : Type} `{Platform World} `{SemVer} `{Packages} `{Helpers}.

Lemma truthy_string_choice t u :
  t <> EmptyString -> (if truthy_string t then t else u) = t.
Proof. destruct t; [congruence | reflexivity]. Qed.

(** X15: every call of a run of [main] carries the inputs as read by
    [getAndValidateArgs]: see [forwards]. *)
Theorem main_forwards_inputs (s : Store World) args s1 r s' :
  Main.getAndValidateArgs s = (Ok args, s1) ->
  Main.main s = (r, s') ->
  exists ev, trace s' = (trace s ++ ev)%list /\ Forall (forwards args) ev.
Proof.
  intros GA R.
  apply (@main_all _ _ _ _ _ (forwards args) s r s'); [intros e; exact I | | exact R].
  clear R r s'. intros r s' R.
  destruct (getAndValidateArgs_tag _ GA) as [-> _].
  unfold Main.main_try in R. unfold bind at 1 in R. rewrite GA in R. revert R.
  set (tag := Main.automaticReleaseTag args).
  assert (Ep : substring_from 10 ("refs/tags/" ++ tag) = tag)
    by apply (substring_from_app "refs/tags/").
  assert (Eq : substring_from 5 ("refs/tags/" ++ tag) = "tags/" ++ tag)
    by apply (substring_from_app "refs/" ("tags/" ++ tag)).
  assert (Ea : (if truthy_string (Main.tagAnnotation args) then Main.tagAnnotation args
                else EmptyString) = Main.tagAnnotation args)
    by (destruct (Main.tagAnnotation args); reflexivity).
  match goal with
  | |- ?m s = _ -> _ => assert (E : all (forwards args) m)
  end.
  { unfold_main.
    trace_all_with
      ltac:(first [ exact I
                  | cbn [forwards ct_tag ct_message cr_ref ur_ref rt_tag nr_draft
                         nr_prerelease nr_name nr_tag_name];
                    fold tag; rewrite ?Ep, ?Eq, ?Ea; repeat split; try reflexivity;
                    now apply truthy_string_choice ]).
    }
  intros R. exact (E _ _ _ R).
Qed.
End MainForwards.

Lemma main_forwards_inputs_witness :
  exists args r s' ev,
    @Main.main _ Mock.platform RefSemVer.semver RefPackages.packages RefHelpers.helpers
      Scenario.static_run
    = (r, s')
    /\ Main.releaseTitle args = "Development build"
    /\ Main.preRelease args = JsBool true
    /\ trace s' = (trace Scenario.static_run ++ ev)%list
    /\ Forall (forwards args) ev.
Proof.
  assert (R : exists r s',
             @Main.main _ Mock.platform RefSemVer.semver RefPackages.packages
               RefHelpers.helpers Scenario.static_run
             = (r, s')).
  { eexists _, _. vm_compute. reflexivity. }
  destruct R as (r & s' & R).
  assert (GA : exists args s1,
             @Main.getAndValidateArgs _ Mock.platform RefPackages.packages
               Scenario.static_run
             = (Ok args, s1)
             /\ Main.releaseTitle args = "Development build"
             /\ Main.preRelease args = JsBool true).
  { eexists _, _. split; [vm_compute; reflexivity|]. split; reflexivity. }
  destruct GA as (args & s1 & GA & TI & PR).
  destruct (@main_forwards_inputs _ Mock.platform RefSemVer.semver RefPackages.packages
              RefHelpers.helpers _ _ _ _ _ GA R) as (ev & T & F).
  exists args, r, s', ev. split; [exact R|]. split; [exact TI|]. split; [exact PR|].
  split; [exact T | exact F].
Defined.

(** * The points of a run: errors, recoveries and what comes before the release *)

(** ** The world at a point of a run *)
Section Replay.
Context {World : Type} `{Platform World}.

(** Replaying a trace in two parts. *)
Lemma replay_app (w : World) ev1 ev2 : replay w (ev1 ++ ev2) = replay (replay w ev1) ev2.
Proof. apply fold_left_app. Qed.

(** A trace without calls leaves the world as it is. *)
Lemma replay_quiet (w : World) ev : calls ev = [] -> replay w ev = w.
Proof.
  revert w. induction ev as [|e ev IH]; intros w C; [reflexivity|].
  destruct e as [c|c|c e]; simpl in *; try discriminate; auto.
Qed.

(** Every operation of the monad is tracked. *)
Lemma tracked_ret {A} (a : A) : tracked (ret a : M World A).
Proof. intros s r s' R. inversion R; subst. exists []. now rewrite app_nil_r. Qed.

Lemma tracked_throw {A} e : tracked (@throw World A e).
Proof. intros s r s' R. inversion R; subst. exists []. now rewrite app_nil_r. Qed.

Lemma tracked_lift {A} (x : Result A) : tracked (@lift World A x).
Proof. intros s r s' R. inversion R; subst. exists []. now rewrite app_nil_r. Qed.

Lemma tracked_read {A} (f : World -> A) : tracked (read f : M World A).
Proof. intros s r s' R. inversion R; subst. exists []. now rewrite app_nil_r. Qed.

Lemma tracked_read_result {A} (f : World -> Result A) : tracked (read_result f : M World A).
Proof. intros s r s' R. inversion R; subst. exists []. now rewrite app_nil_r. Qed.

Lemma tracked_core e : tracked (core e : M World unit).
Proof. intros s r s' R. inversion R; subst. exists [Core e]. split; reflexivity. Qed.

Lemma tracked_request c : tracked (request c : M World _).
Proof.
  intros s r s' R. unfold request in R.
  destruct (perform c (world s)) as [[a|e] w'] eqn:P; inversion R; subst; cbn [world trace];
    eexists; (split; [reflexivity|]); simpl; now rewrite P.
Qed.

Lemma tracked_bind {A B} (m : M World A) (k : A -> M World B) :
  tracked m -> (forall a, tracked (k a)) -> tracked (bind m k).
Proof.
  intros E K s r s' R. unfold bind in R.
  destruct (m s) as [[a|e] s1] eqn:M1; destruct (E _ _ _ M1) as (ev1 & T1 & W1).
  - destruct (K a _ _ _ R) as (ev2 & T2 & W2). exists (ev1 ++ ev2)%list.
    split; [now rewrite T2, T1, app_assoc|]. now rewrite replay_app, <- W1.
  - inversion R; subst. eauto.
Qed.

Lemma tracked_try_catch {A} (m : M World A) h :
  tracked m -> (forall e, tracked (h e)) -> tracked (try_catch m h).
Proof.
  intros E K s r s' R. unfold try_catch in R.
  destruct (m s) as [[a|e] s1] eqn:M1; destruct (E _ _ _ M1) as (ev1 & T1 & W1).
  - inversion R; subst. eauto.
  - destruct (K e _ _ _ R) as (ev2 & T2 & W2). exists (ev1 ++ ev2)%list.
    split; [now rewrite T2, T1, app_assoc|]. now rewrite replay_app, <- W1.
Qed.

Lemma tracked_for_of {A B} (body : B -> A -> M World B) xs :
  (forall acc x, tracked (body acc x)) -> forall acc, tracked (for_of xs body acc).
Proof.
  intros E. induction xs as [|x xs IH]; intros acc; simpl.
  - apply tracked_ret.
  - apply tracked_bind; auto.
Qed.

Lemma tracked_Array_map {A B} (f : A -> M World B) xs :
  (forall x, tracked (f x)) -> tracked (Array_map f xs).
Proof.
  intros E. induction xs as [|x xs IH]; simpl.
  - apply tracked_ret.
  - apply tracked_bind; auto. intros y. apply tracked_bind; auto. intros ys. apply tracked_ret.
Qed.

Lemma tracked_if {A} (b : bool) (m1 m2 : M World A) :
  tracked m1 -> tracked m2 -> tracked (if b then m1 else m2).
Proof. now destruct b. Qed.
End Replay.

(** ** Running a computation step by step *)
Section Runs.
Context {World : Type} `{Platform World}.

(** The equations of [bind], one per operation it may begin with. *)
Lemma run_assoc {A B C} (m : M World A) (f : A -> M World B) (k : B -> M World C) s :
  bind (bind m f) k s = bind m (fun a => bind (f a) k) s.
Proof. unfold bind. destruct (m s) as [[a|e] s1]; reflexivity. Qed.

Lemma run_core {B} e (k : unit -> M World B) s :
  bind (core e) k s = k tt (mkStore (world s) (trace s ++ [Core e])).
Proof. reflexivity. Qed.

Lemma run_ret {A B} (a : A) (k : A -> M World B) s : bind (ret a) k s = k a s.
Proof. reflexivity. Qed.

Lemma run_throw {A B} e (k : A -> M World B) s : bind (throw e) k s = (Throw e, s).
Proof. reflexivity. Qed.

Lemma run_request {B} c (k : Resp c -> M World B) s :
  bind (request c) k s
  = match perform c (world s) with
    | (Ok a, w') => k a (mkStore w' (trace s ++ [Called c]))
    | (Throw e, w') => (Throw e, mkStore w' (trace s ++ [Called c; Rejected c e]))
    end.
Proof.
  unfold bind at 1, request at 1. destruct (perform c (world s)) as [[a|e] w']; reflexivity.
Qed.

Lemma run_try_call {A B} c (k1 : Resp c -> M World A) h (K : A -> M World B) s :
  bind (try_catch (bind (request c) k1) h) K s
  = match perform c (world s) with
    | (Ok a, w') => bind (try_catch (k1 a) h) K (mkStore w' (trace s ++ [Called c]))
    | (Throw e, w') => bind (h e) K (mkStore w' (trace s ++ [Called c; Rejected c e]))
    end.
Proof.
  unfold bind at 1, try_catch at 1, bind at 1, request at 1.
  destruct (perform c (world s)) as [[a|e] w']; reflexivity.
Qed.

Lemma run_try_core {A B} e (k1 : unit -> M World A) h (K : A -> M World B) s :
  bind (try_catch (bind (core e) k1) h) K s
  = bind (try_catch (k1 tt) h) K (mkStore (world s) (trace s ++ [Core e])).
Proof. reflexivity. Qed.

Lemma run_try_ret {A B} (a : A) h (K : A -> M World B) s :
  bind (try_catch (ret a) h) K s = K a s.
Proof. reflexivity. Qed.
End Runs.

(** Walking a computation to show that it is tracked. *)
Ltac track_step :=
  first
    [ apply tracked_bind
    | apply tracked_try_catch
    | apply tracked_for_of
    | apply tracked_Array_map
    | apply tracked_core
    | match goal with
      | |- tracked (request ?c) => apply (@tracked_request _ _ c)
      end
    | apply tracked_ret
    | apply tracked_throw
    | apply tracked_lift
    | apply tracked_read
    | apply tracked_read_result
    | apply tracked_if
    | match goal with
      | |- forall _, _ => intro
      | |- tracked (match ?x with _ => _ end) => destruct x
      end ].

Ltac track_all := cbv zeta; repeat track_step.

(** ** The first event of a kind in a run *)
Section Finds.
Context {World : Type} `{Platform World}.

(** The first hit of a list is where it is, however the list is split. *)
Lemma first_hit {T} (hit : T -> Prop) (l1 : list T) x r1 l2 y r2 :
  (l1 ++ x :: r1 = l2 ++ y :: r2)%list ->
  Forall (fun e => ~ hit e) l1 -> hit x -> Forall (fun e => ~ hit e) l2 -> hit y ->
  l1 = l2 /\ x = y /\ r1 = r2.
Proof.
  revert l2. induction l1 as [|a l1 IH]; intros [|b l2] E N1 Hx N2 Hy; simpl in E.
  - inversion E; auto.
  - inversion E; subst. inversion N2; subst. contradiction.
  - inversion E; subst. inversion N1; subst. contradiction.
  - inversion E; subst. inversion N1; inversion N2; subst.
    destruct (IH l2 H2) as (-> & -> & ->); auto.
Qed.

(** From [finds] to a statement about any first hit of the run. *)
Lemma finds_at {A} hit Q (m : M World A) s r s' ev1 x ev2 :
  finds hit Q m -> m s = (r, s') ->
  trace s' = (trace s ++ ev1 ++ x :: ev2)%list -> hit x -> Forall (fun e => ~ hit e) ev1 ->
  Q (world s) ev1 x ev2 r.
Proof.
  intros F R T Hx N. destruct (F _ _ _ R) as (ev & T' & [N'|(l1 & y & l2 & -> & Hy & N' & q)]).
  - rewrite T in T'. apply app_inv_head in T'. subst ev.
    apply Forall_app in N'. destruct N' as [_ N']. inversion N'; subst. contradiction.
  - rewrite T in T'. apply app_inv_head in T'.
    destruct (@first_hit _ hit _ _ _ _ _ _ T' N Hx N' Hy) as (-> & -> & ->). exact q.
Qed.

(** [finds] may be weakened. *)
Lemma finds_weaken {A} hit (Q Q' : World -> list Event -> Event -> list Event -> Result A -> Prop)
      (m : M World A) :
  finds hit Q m -> (forall w ev1 x ev2 r, hit x -> Q w ev1 x ev2 r -> Q' w ev1 x ev2 r) ->
  finds hit Q' m.
Proof.
  intros F W s r s' R. destruct (F _ _ _ R) as (ev & T & [N|(l1 & y & l2 & E & Hy & N & q)]).
  - exists ev. auto.
  - exists ev. split; [exact T|]. right. exists l1, y, l2. auto.
Qed.

(** A computation without a hit, followed by one that is searched. *)
Lemma finds_bind {A B} hit (P : Event -> Prop) (S : World -> list Event -> A -> Prop)
      (Q' : A -> World -> list Event -> Event -> list Event -> Result B -> Prop) Q
      (m : M World A) (k : A -> M World B) :
  all (fun e => ~ hit e /\ P e) m -> tracked m ->
  (forall s a s' ev, m s = (Ok a, s') -> trace s' = (trace s ++ ev)%list -> S (world s) ev a) ->
  (forall a, finds hit (Q' a) (k a)) ->
  (forall w ev a ev1 x ev2 r,
     Forall P ev -> S w ev a -> Q' a (replay w ev) ev1 x ev2 r -> Q w (ev ++ ev1)%list x ev2 r) ->
  finds hit Q (bind m k).
Proof.
  intros E Tm Sm K Sh s r s' R. unfold bind in R.
  destruct (m s) as [[a|e] s1] eqn:M1.
  - destruct (E _ _ _ M1) as (ev1 & T1 & F1). destruct (Tm _ _ _ M1) as (ev1' & T1' & W1).
    rewrite T1 in T1'. apply app_inv_head in T1'. subst ev1'.
    assert (N1 : Forall (fun e => ~ hit e) ev1) by (eapply Forall_impl; [|exact F1]; intros ? [? ?]; assumption).
    assert (P1 : Forall P ev1) by (eapply Forall_impl; [|exact F1]; intros ? [? ?]; assumption).
    destruct (K a _ _ _ R) as (ev2 & T2 & [N2|(l1 & y & l2 & -> & Hy & N2 & q)]).
    + exists (ev1 ++ ev2)%list. split; [now rewrite T2, T1, app_assoc|]. left.
      apply Forall_app. split; assumption.
    + exists (ev1 ++ l1 ++ y :: l2)%list. split; [now rewrite T2, T1, <- app_assoc|]. right.
      exists (ev1 ++ l1)%list, y, l2. split; [now rewrite app_assoc|]. split; [exact Hy|].
      split; [apply Forall_app; split; assumption|].
      apply (Sh (world s) ev1 a); [exact P1 | exact (Sm _ _ _ _ M1 T1) |]. now rewrite <- W1.
  - inversion R; subst. destruct (E _ _ _ M1) as (ev1 & T1 & F1).
    exists ev1. split; [exact T1|]. left. eapply Forall_impl; [|exact F1]. intros ? [? ?]; assumption.
Qed.

(** The same when nothing is kept of what the first computation returns. *)
Lemma finds_skip {A B} hit (P : Event -> Prop) Q (m : M World A) (k : A -> M World B) :
  stable P Q ->
  all (fun e => ~ hit e /\ P e) m -> tracked m ->
  (forall a, finds hit Q (k a)) ->
  finds hit Q (bind m k).
Proof.
  intros St E Tm K.
  apply (@finds_bind A B hit P (fun _ _ _ => True) (fun _ => Q) Q m k); auto.
Qed.

(** [finds] goes with the association of [bind]. *)
Lemma finds_assoc {A B C} hit Q (m : M World A) (f : A -> M World B) (k : B -> M World C) :
  finds hit Q (bind m (fun a => bind (f a) k)) -> finds hit Q (bind (bind m f) k).
Proof.
  intros F s r s' R. apply F. unfold bind in *. destruct (m s) as [[a|e] s1]; exact R.
Qed.

(** A computation that begins with a hit. *)
Lemma finds_opening {A B} hit Q e (f : unit -> M World A) (m : M World A)
      (k : A -> M World B) :
  (forall s, m s = bind (core e) f s) ->
  hit (Core e) ->
  all (fun _ => True) (bind (f tt) k) ->
  (forall s r s' ev2,
     bind m k s = (r, s') ->
     trace s' = (trace s ++ Core e :: ev2)%list ->
     Q (world s) [] (Core e) ev2 r) ->
  finds hit Q (bind m k).
Proof.
  intros Em He E q s r s' R.
  assert (R' : bind (f tt) k (mkStore (world s) (trace s ++ [Core e])) = (r, s')).
  { rewrite <- R. unfold bind at 2. rewrite Em. reflexivity. }
  destruct (E _ _ _ R') as (ev2 & T & _). cbn [trace] in T. rewrite <- app_assoc in T.
  exists (Core e :: ev2). split; [exact T|]. right. exists [], (Core e), ev2.
  split; [reflexivity|]. split; [exact He|]. split; [constructor|]. eapply q; eauto.
Qed.
(** A computation that begins with a call made in a [try] block. *)
Lemma finds_call_first {A B} hit Q c (k1 : Resp c -> M World A) h (K : A -> M World B) :
  hit (Called c) ->
  (forall a, all (fun _ => True) (bind (try_catch (k1 a) h) K)) ->
  (forall e, all (fun _ => True) (bind (h e) K)) ->
  (forall s r s' ev2,
     bind (try_catch (bind (request c) k1) h) K s = (r, s') ->
     trace s' = (trace s ++ Called c :: ev2)%list ->
     Q (world s) [] (Called c) ev2 r) ->
  finds hit Q (bind (try_catch (bind (request c) k1) h) K).
Proof.
  intros Hc Ea Ee q s r s' R.
  assert (X : exists ev2, trace s' = (trace s ++ Called c :: ev2)%list).
  { pose proof R as R'. unfold bind at 1, try_catch at 1, bind at 1, request at 1 in R'.
    destruct (perform c (world s)) as [[a|e] w'].
    - change (bind (try_catch (k1 a) h) K (mkStore w' (trace s ++ [Called c])) = (r, s')) in R'.
      destruct (Ea a _ _ _ R') as (ev2 & T & _). cbn [trace] in T.
      rewrite <- app_assoc in T. eauto.
    - change (bind (h e) K (mkStore w' (trace s ++ [Called c; Rejected c e])) = (r, s')) in R'.
      destruct (Ee e _ _ _ R') as (ev2 & T & _). cbn [trace] in T.
      rewrite <- app_assoc in T. eauto. }
  destruct X as [ev2 T]. exists (Called c :: ev2). split; [exact T|]. right.
  exists [], (Called c), ev2.
  split; [reflexivity|]. split; [exact Hc|]. split; [constructor|]. eapply q; eauto.
Qed.
End Finds.

(** ** src/main.ts: main at the openings of its groups *)

Ltac miss := split; [ let X := fresh in intro X; discriminate X | exact I ].

Ltac stable_here :=
  let q := fresh in intros ? ? ? ? ? ? _ q; cbv beta in *; rewrite replay_app; exact q.

Ltac skip_with solver :=
  apply (@finds_skip _ _ _ _ _ (fun _ => True));
  [ | unfold_main; solve [ trace_all_with solver ]
    | unfold_main; solve [ track_all ]
    | intros ? ].

Section Walks.
Context {World : Type} `{Platform World} `{SemVer} `{Packages} `{Helpers}.

(** A property of the replayed world moves over any events. *)
Lemma stable_at {A} (Q0 : World -> Event -> list Event -> Result A -> Prop) :
  stable (fun _ => True) (fun w ev1 x ev2 r => Q0 (replay w ev1) x ev2 r).
Proof. intros w ev ev1 x ev2 r _ q. now rewrite replay_app. Qed.

(** The [try] block of [main] at the first opening of the group of the
    artifact paths. *)
Lemma main_try_at_paths (s : Store World) args s1 r s' ev1 x ev2 :
  Main.getAndValidateArgs s = (Ok args, s1) ->
  Main.main_try s = (r, s') ->
  trace s' = (trace s ++ ev1 ++ x :: ev2)%list ->
  opens "Getting artifact paths from file globs" x ->
  Forall (fun e => ~ opens "Getting artifact paths from file globs" e) ev1 ->
  files_decide (Main.files args) (replay (world s) ev1) r.
Proof.
  intros GA R T Hx N.
  destruct (getAndValidateArgs_tag _ GA) as [-> _].
  unfold Main.main_try in R. unfold bind at 1 in R. rewrite GA in R. revert R.
  match goal with
  | |- ?m s = _ -> _ =>
      assert (F : finds (opens "Getting artifact paths from file globs")
                        (fun w ev1 _ _ r =>
                           files_decide (Main.files args) (replay w ev1) r) m)
  end.
  { do 13 (skip_with miss; [stable_here|]).
    eapply finds_opening.
    1: intros; unfold Files.getPaths; reflexivity.
    1: reflexivity.
    1: unfold_main; solve [trace_all_with ltac:(exact I)].
    clear. intros s r s' ev2 R _. cbn [replay fold_left].
    split.
    - intros before fileGlob after e E X G.
      assert (P : Files.getPaths (Main.files args) s
                  = (Throw e,
                     mkStore (world s)
                       (trace s
                        ++ Core (StartGroup "Getting artifact paths from file globs")
                        :: diagnostics (world s) before))).
      { rewrite E. unfold Files.getPaths.
        unfold bind at 1. rewrite core_run.
        unfold bind at 1. erewrite getPaths_loop_rejected by eassumption.
        cbn [world trace]. now rewrite <- app_assoc. }
      rewrite (bind_Throw _ _ _ P) in R. now inversion R.
    - intros X e F.
      pose proof (getPaths_run _ X) as P. unfold bind at 1 in R.
      rewrite P in R.
      match type of R with
      | context [Sha.getChecksums ?paths] =>
          match type of R with
          | _ ?s2 = _ =>
              assert (G : exists s3, Sha.getChecksums paths s2 = (Throw e, s3))
          end
      end.
      { rewrite getChecksums_unfold. unfold bind at 1. rewrite core_run.
        unfold bind at 1. erewrite checksum_loop_unreadable by exact F. eauto. }
      destruct G as [s3 G]. rewrite (bind_Throw _ _ _ G) in R. now inversion R. }
  intros R. exact (finds_at _ _ _ F R T Hx N).
Qed.


(** The [try] block at the first opening of the group that determines the
    release tags. *)
Lemma main_try_at_tags (s : Store World) args s1 r s' ev1 x ev2 :
  Main.getAndValidateArgs s = (Ok args, s1) ->
  Main.main_try s = (r, s') ->
  trace s' = (trace s ++ ev1 ++ x :: ev2)%list ->
  opens "Determining release tags" x ->
  Forall (fun e => ~ opens "Determining release tags" e) ev1 ->
  tag_decides args (replay (world s) ev1) r.
Proof.
  intros GA R T Hx N.
  destruct (getAndValidateArgs_tag _ GA) as [-> _].
  unfold Main.main_try in R. unfold bind at 1 in R. rewrite GA in R. revert R.
  match goal with
  | |- ?m s = _ -> _ =>
      assert (F : finds (opens "Determining release tags")
                        (fun w ev1 _ _ r => tag_decides args (replay w ev1) r) m)
  end.
  { skip_with miss; [stable_here|].
    clear. intros s r s' R.
    unfold bind at 1, request at 1 in R.
    destruct (perform DumpGitHubEventPayload (world s)) as [[[]|e] w1] eqn:D.
    - unfold bind at 1, read at 1 in R. cbn [world] in R.
      unfold bind at 1, read at 1 in R. cbn [world] in R.
      unfold bind at 1 in R. rewrite core_run in R.
      unfold bind at 1 in R. rewrite core_run in R.
      unfold bind at 1 in R. rewrite core_run in R.
      cbn [world trace] in R. cbv zeta in R.
      match type of R with
      | ?k ?s1 = _ => assert (E : all (fun _ => True) k)
      end.
      { unfold_main. solve [trace_all_with ltac:(exact I)]. }
      destruct (E _ _ _ R) as (ev2 & T & _). cbn [trace] in T.
      repeat rewrite <- app_assoc in T. cbn [app] in T.
      eexists. split; [exact T|]. right.
      exists [Called DumpGitHubEventPayload;
              Core (Debug ("Github context: "
                           ++ JSON_stringify (context_ref w1, context_sha w1)));
              Core EndGroup],
             (Core (StartGroup "Determining release tags")), ev2.
      split; [reflexivity|]. split; [reflexivity|].
      split; [repeat constructor; intro X; discriminate X|].
      assert (W : replay (world s)
                    [Called DumpGitHubEventPayload;
                     Core (Debug ("Github context: "
                                  ++ JSON_stringify (context_ref w1, context_sha w1)));
                     Core EndGroup] = w1).
      { cbn [replay fold_left]. now rewrite D. }
      rewrite W. clear E T W D.
      unfold tag_decides. cbv zeta.
      destruct (truthy_string
                  (if truthy_string (Main.automaticReleaseTag args)
                   then Main.automaticReleaseTag args
                   else parseGitTag (context_ref w1))) eqn:TT.
      + split; [intros Z; rewrite Z in TT; discriminate TT|].
        unfold bind at 1, ret at 1 in R.
        unfold bind at 1, read_result at 1 in R. cbn [world] in R.
        destruct (context_repo w1) as [repoInfo|e] eqn:CR.
        * split; [intros _ e X; discriminate X|].
          intros _ _ ST SV. rewrite ST in R.
          unfold bind at 1 in R.
          unfold Main.searchForPreviousReleaseTag at 1 in R. rewrite SV in R.
          unfold throw at 1 in R. now inversion R.
        * split; [intros _ e' X; inversion X; subst; now inversion R|].
          intros _ [repoInfo X]. discriminate X.
      + apply truthy_string_false in TT.
        split; [intros _; unfold bind at 1, throw at 1 in R; now inversion R|].
        split; intros X; contradiction.
    - inversion R; subst. cbn [trace]. eexists. split; [reflexivity|]. left.
      repeat constructor; intro X; discriminate X. }
  intros R. exact (finds_at _ _ _ F R T Hx N).
Qed.

(** [getChangelog] returns only when every message is parsed; when it
    raises, a lookup was rejected or the parser refused a message, those
    before it being accepted. *)
Lemma getChangelog_raises owner repo commits (s : Store World) r s' :
  Main.getChangelog owner repo commits s = (r, s') ->
  exists ev,
    trace s' = (trace s ++ ev)%list
    /\ (forall changelog, r = Ok changelog -> Forall parses commits)
    /\ (forall e, r = Throw e ->
          (exists p e', In (Rejected (Repos_listPullRequestsAssociatedWithCommit p) e') ev)
          \/ exists before failing after,
               commits = (before ++ failing :: after)%list
               /\ Forall parses before
               /\ commitParser (commit_message failing) getChangelogOptions = Throw e).
Proof.
  unfold Main.getChangelog. intros R.
  unfold bind at 1 in R. rewrite core_run in R. unfold bind at 1 in R.
  match type of R with
  | context [match ?m ?s1 with _ => _ end] =>
      destruct (m s1) as [[parsed|e1] s2] eqn:L
  end.
  - apply (getChangelog_loop owner repo commits) in L. destruct L as (ev & T & OK & _).
    destruct (OK _ eq_refl) as (_ & PA & _).
    cbv zeta in R. unfold bind, core, ret in R. cbn [world trace] in R.
    inversion R; subst. cbn [trace] in *. rewrite T. cbn [trace].
    eexists. split; [repeat rewrite <- app_assoc; reflexivity|].
    split; [intros _ _; exact PA | discriminate].
  - inversion R; subst.
    apply (getChangelog_loop owner repo commits) in L. destruct L as (ev & T & _ & KO).
    destruct (KO _ eq_refl) as (before & failing & after & -> & _ & PB & I).
    rewrite T. cbn [trace]. eexists. split; [rewrite <- app_assoc; reflexivity|].
    split; [discriminate|].
    intros e E. inversion E; subst. destruct I as [I|[I _]].
    + left. eexists _, _. apply in_or_app. right. exact I.
    + right. exists before, failing, after. auto.
Qed.

Ltac miss2 := split; [ intros [] | exact I ].

(** The [try] block at the first comparison of commits. *)
Lemma main_try_at_compare (s : Store World) args s1 r s' ev1 x ev2 :
  Main.getAndValidateArgs s = (Ok args, s1) ->
  Main.main_try s = (r, s') ->
  trace s' = (trace s ++ ev1 ++ x :: ev2)%list ->
  compares x ->
  Forall (fun e => ~ compares e) ev1 ->
  parser_decides (replay (world s) ev1) x ev2 r.
Proof.
  intros GA R T Hx N.
  destruct (getAndValidateArgs_tag _ GA) as [-> _].
  unfold Main.main_try in R. unfold bind at 1 in R. rewrite GA in R. revert R.
  match goal with
  | |- ?m s = _ -> _ =>
      assert (F : finds compares
                        (fun w ev1 x ev2 r => parser_decides (replay w ev1) x ev2 r) m)
  end.
  { do 11 (skip_with miss2; [stable_here|]).
    unfold Main.getCommitsSinceRelease at 1.
    do 3 (apply finds_assoc; skip_with miss2; [stable_here|]).
    apply finds_assoc; skip_with miss2; [stable_here|].
    match goal with a : (option Main.Response * string)%type |- _ => destruct a as [resp ref] end.
    apply finds_assoc; skip_with miss2; [stable_here|].
    apply finds_assoc.
    apply finds_call_first;
      [ exact I
      | intros ?; unfold_main; solve [trace_all_with ltac:(exact I)]
      | intros ?; unfold_main; solve [trace_all_with ltac:(exact I)] |].
    clear. intros s r s' ev2 R T q commits before failing after e Ex P C PB PF NR.
    cbn [replay fold_left] in P. inversion Ex; subst q. clear Ex.
    rewrite run_try_call in R.
    destruct (perform (Repos_compareCommits _) (world s)) as [[commits'|e0] w1];
      cbn [fst] in P; [|discriminate P].
    inversion P; subst commits'. clear P.
    rewrite run_try_core, run_try_ret in R. cbv beta in R. cbn [Main.data_commits] in R.
    repeat (first [rewrite run_assoc in R | rewrite run_core in R | rewrite run_ret in R];
            cbv beta in R).
    cbn [world trace] in R.
    unfold bind at 1 in R.
    match type of R with
    | context [Main.getChangelog ?o ?rp ?cs ?s5] =>
        destruct (Main.getChangelog o rp cs s5) as [[changelog|e1] s6] eqn:G;
        destruct (getChangelog_raises _ _ _ _ G) as (ev & Tg & OK & KO)
    end.
    - exfalso. specialize (OK _ eq_refl). rewrite C in OK.
      apply Forall_app in OK. destruct OK as [_ OK]. inversion OK as [|? ? [parsed X] _]; subst.
      rewrite PF in X. discriminate X.
    - inversion R; subst r s'. f_equal.
      destruct (KO _ eq_refl) as [(p & e' & I)|(before' & failing' & after' & C' & PB' & PF')].
      + exfalso. apply (NR p e'). rewrite Tg in T. cbn [trace] in T.
        repeat rewrite <- app_assoc in T. apply app_inv_head in T. cbn [app] in T.
        inversion T; subst ev2. right. right. right. exact I.
      + rewrite C in C'.
        destruct (@first_hit _ (fun c => ~ parses c) _ _ _ _ _ _ C') as (_ & <- & _).
        * eapply Forall_impl; [|exact PB]. tauto.
        * intros [parsed X]. rewrite PF in X. discriminate X.
        * eapply Forall_impl; [|exact PB']. tauto.
        * intros [parsed X]. rewrite PF' in X. discriminate X.
        * rewrite PF in PF'. now inversion PF'. }
  intros R. exact (finds_at _ _ _ F R T Hx N).
Qed.





(** Either every pattern expands, or there is a first one that does not. *)
Lemma expands_or_first (w : World) files :
  expands w files
  \/ exists before fileGlob after e,
       files = (before ++ fileGlob :: after)%list
       /\ expands w before /\ globby fileGlob w = Throw e.
Proof.
  induction files as [|g files IH].
  - left. intros g [].
  - destruct (globby g w) as [gpaths|e] eqn:G.
    + destruct IH as [E|(before & g' & after & e & -> & E & G')].
      * left. intros g' [<-|I]; eauto.
      * right. exists (g :: before), g', after, e. split; [reflexivity|].
        split; [|exact G']. intros g0 [<-|I]; eauto.
    + right. exists [], g, files, e. split; [reflexivity|]. split; [intros g' []|exact G].
Qed.

(** When [getPaths] returns, every pattern expanded and the paths are the
    matches, each at its first occurrence. *)
Lemma getPaths_returns files (s : Store World) paths s' :
  Files.getPaths files s = (Ok paths, s') ->
  expands (world s) files
  /\ paths = first_seen (flat_map (glob_matches (world s)) files)
  /\ exists rest,
       trace s' = (trace s ++ Core (StartGroup "Getting artifact paths from file globs")
                   :: rest)%list.
Proof.
  intros R. destruct (expands_or_first (world s) files)
    as [E|(before & g & after & e & -> & E & G)].
  - rewrite (getPaths_run _ E) in R. inversion R; subst. cbn [trace].
    split; [exact E|]. split; [reflexivity|]. eexists. reflexivity.
  - exfalso. unfold Files.getPaths in R.
    unfold bind at 1 in R. rewrite core_run in R.
    unfold bind at 1 in R. erewrite getPaths_loop_rejected in R by eassumption.
    discriminate R.
Qed.

(** [uploads] and [uploads_paths] move over any events. *)
Lemma stable_uploads files :
  stable (World := World) (fun _ => True) (uploads files).
Proof.
  intros w ev ev1 x ev2 r _ U u p url paths rest Er Ex E2.
  destruct (U u p url paths rest Er Ex E2) as (P & ev_a & ev_b & E1 & X & Ep).
  split; [now rewrite replay_app|].
  exists (ev ++ ev_a)%list, ev_b. split; [rewrite E1; now rewrite <- app_assoc|].
  now rewrite replay_app.
Qed.

Lemma stable_uploads_paths artifactPaths :
  stable (World := World) (fun _ => True) (uploads_paths artifactPaths).
Proof.
  intros w ev ev1 x ev2 r _ U u p url paths rest Er Ex E2.
  destruct (U u p url paths rest Er Ex E2) as (P & Ep).
  split; [now rewrite replay_app | exact Ep].
Qed.

(** The [try] block at the first creation of a release, in a run that
    returns. *)
Lemma main_try_uploads (s : Store World) args s1 r s' ev1 x ev2 :
  Main.getAndValidateArgs s = (Ok args, s1) ->
  Main.main_try s = (r, s') ->
  trace s' = (trace s ++ ev1 ++ x :: ev2)%list ->
  creates_release x ->
  Forall (fun e => ~ creates_release e) ev1 ->
  uploads (Main.files args) (world s) ev1 x ev2 r.
Proof.
  intros GA R T Hx N.
  destruct (getAndValidateArgs_tag _ GA) as [-> _].
  unfold Main.main_try in R. unfold bind at 1 in R. rewrite GA in R. revert R.
  match goal with
  | |- ?m s = _ -> _ =>
      assert (F : finds creates_release (uploads (Main.files args)) m)
  end.
  { do 13 (skip_with miss2; [apply stable_uploads|]).
    apply (@finds_bind _ _ _ _ creates_release (fun _ => True)
             (fun w ev paths =>
                expands w (Main.files args)
                /\ paths = first_seen (flat_map (glob_matches w) (Main.files args))
                /\ exists rest,
                     ev = Core (StartGroup "Getting artifact paths from file globs") :: rest)
             uploads_paths).
    - unfold_main; solve [trace_all_with miss2].
    - unfold_main; solve [track_all].
    - intros s0 paths s0' ev R0 T0.
      destruct (getPaths_returns _ _ R0) as (E & P & rest & T').
      split; [exact E|]. split; [exact P|]. exists rest.
      rewrite T0 in T'. now apply app_inv_head in T'.
    - intros artifactPaths.
      do 2 (skip_with miss2; [apply stable_uploads_paths|]).
      unfold Main.generateNewGitHubRelease at 1.
      clear. intros s r s' R.
      repeat (first [rewrite run_assoc in R | rewrite run_core in R]; cbv beta in R).
      rewrite run_request in R. cbn [world trace] in R.
      match type of R with
      | context [perform (Repos_createRelease ?p) _] => set (c := Repos_createRelease p) in *
      end.
      destruct (perform c (world s)) as [[url|e] w'] eqn:P.
      + repeat (first [rewrite run_assoc in R | rewrite run_core in R | rewrite run_ret in R];
                cbv beta in R).
        rewrite run_request in R. cbn [world trace] in R.
        destruct (perform (UploadReleaseArtifacts url artifactPaths) w') as [[[]|e] w''].
        * unfold bind, core in R. cbn [world trace] in R. inversion R; subst r s'.
          cbn [trace]. eexists. split; [repeat rewrite <- app_assoc; reflexivity|].
          right. cbn [app]. eexists [_; _], (Called c), _.
          split; [reflexivity|]. split; [exact I|].
          split; [repeat constructor; intros []|].
          intros u p url' paths rest _ Ex E2. subst c. inversion Ex; subst p.
          inversion E2; subst url' paths rest.
          split; [exact (f_equal fst P) | reflexivity].
        * inversion R; subst r s'.
          cbn [trace]. eexists. split; [repeat rewrite <- app_assoc; reflexivity|].
          right. cbn [app]. eexists [_; _], (Called c), _.
          split; [reflexivity|]. split; [exact I|].
          split; [repeat constructor; intros []|].
          intros u p url' paths rest Er. discriminate Er.
      + inversion R; subst r s'.
        cbn [trace]. eexists. split; [repeat rewrite <- app_assoc; reflexivity|].
        right. cbn [app]. eexists [_; _], (Called c), _.
        split; [reflexivity|]. split; [exact I|].
        split; [repeat constructor; intros []|].
        intros u p url' paths rest Er. discriminate Er.
    - intros w ev paths0 ev1' x' ev2' r' _ (E & P & rest & Ev) U u p url paths rest' Er Ex E2.
      destruct (U u p url paths rest' Er Ex E2) as (Pu & ->).
      split; [now rewrite replay_app|].
      exists [], (rest ++ ev1')%list. rewrite Ev. split; [reflexivity|].
      cbn [replay fold_left]. split; [exact E | exact P]. }
  intros R. exact (finds_at _ _ _ F R T Hx N).
Qed.

(** The events of [main] that come before a first hit are events of its
    [try] block. *)
Lemma main_inv (s : Store World) r s' ev1 x ev2 :
  Main.main s = (r, s') ->
  trace s' = (trace s ++ ev1 ++ x :: ev2)%list ->
  (forall msg, x <> Core (SetFailed msg)) ->
  exists s0 ev2',
    Main.main_try s = (r, s0)
    /\ trace s0 = (trace s ++ ev1 ++ x :: ev2')%list
    /\ (ev2 = ev2' \/ exists e, r = Throw e
                                /\ ev2 = (ev2' ++ [Core (SetFailed (err_message e))])%list).
Proof.
  intros R T X. rewrite main_run in R.
  destruct (Main.main_try s) as [[a|e] s0] eqn:MT; inversion R; subst.
  - exists s', ev2. auto.
  - cbn [trace] in T. destruct (unfailed_main_try _ MT) as (ev0 & T0 & _).
    rewrite T0, <- app_assoc in T. apply app_inv_head in T.
    destruct (@exists_last _ (x :: ev2)) as (l & y & E); [discriminate|].
    change (ev1 ++ x :: ev2)%list with (ev1 ++ (x :: ev2))%list in T.
    rewrite E, app_assoc in T. apply app_inj_tail in T. destruct T as [-> <-].
    destruct l as [|x' l]; simpl in E; inversion E; subst.
    + exfalso. exact (X _ eq_refl).
    + exists s0, l. split; [reflexivity|]. split; [now rewrite T0|]. right. eauto.
Qed.

(** The first input that cannot be read makes [getAndValidateArgs] raise. *)
Lemma inputs_refused (s : Store World) e :
  first_error (input_reads (world s)) = Some e ->
  Main.getAndValidateArgs s = (Throw e, s).
Proof.
  unfold input_reads, json_input, void, Main.getAndValidateArgs, bind, read_result, lift, ret.
  cbn [first_error].
  repeat match goal with
         | |- context [core_getInput ?n ?b ?w] =>
             destruct (core_getInput n b w); cbn [first_error]
         | |- context [JSON_parse ?t] =>
             destruct (JSON_parse t); cbn [first_error]
         end; intros E; first [discriminate E | now inversion E].
Qed.









(** [handled] holds of traces without a recoverable rejection, and of the
    concatenation of traces it holds of. *)
Lemma handled_settled ev : Forall settled ev -> handled ev.
Proof.
  induction 1 as [|x l Sx _ IH]; [exact I|].
  destruct x as [e|c|c e]; simpl; try exact IH.
  split; [|exact IH]. simpl in Sx. intros Rc. rewrite Sx in Rc. discriminate Rc.
Qed.

Lemma handled_app ev1 ev2 : handled ev1 -> handled ev2 -> handled (ev1 ++ ev2).
Proof.
  induction ev1 as [|x l IH]; intros Ha Hb; [exact Hb|].
  destruct x as [e|c|c e]; simpl in *; try (apply IH; assumption).
  destruct Ha as [N Ha]. split; [|apply IH; assumption].
  intros Rc. specialize (N Rc). destruct l as [|y l']; [destruct N | exact N].
Qed.

(** What [handled] says of one rejection. *)
Lemma handled_at ev1 c e ev2 :
  handled (ev1 ++ Rejected c e :: ev2) -> recoverable c = true ->
  exists x ev3, ev2 = x :: ev3 /\ notes x.
Proof.
  induction ev1 as [|y l IH]; intros Hd Rc.
  - simpl in Hd. destruct Hd as [N _]. specialize (N Rc).
    destruct ev2 as [|x ev3]; [destruct N | eauto].
  - apply IH; [|exact Rc]. destruct y as [e0|c0|c0 e0]; simpl in Hd; tauto.
Qed.

Lemma handled_bind {A B} (m : M World A) (k : A -> M World B) :
  emits (fun _ ev => handled ev) m -> (forall a, emits (fun _ ev => handled ev) (k a)) ->
  emits (fun _ ev => handled ev) (bind m k).
Proof.
  intros E K. eapply emits_bind; [exact E | exact K | |]; cbv beta.
  - auto.
  - intros a ev1 r ev2. apply handled_app.
Qed.

Lemma handled_all {A} (m : M World A) :
  all settled m -> emits (fun _ ev => handled ev) m.
Proof. intros E. eapply emits_weaken; [exact E|]. intros r ev. apply handled_settled. Qed.

Ltac handled_run R :=
  inversion R; subst; cbn [trace]; eexists;
  (split; [repeat rewrite <- app_assoc; reflexivity|]);
  simpl; repeat split; solve [ exact I | discriminate | auto ].

(** The three functions with a [try] block report every rejection they
    take. *)
Lemma handled_createReleaseTag refInfo message :
  emits (fun _ ev => handled ev) (Main.createReleaseTag refInfo message : M World unit).
Proof.
  intros s r s' R. unfold Main.createReleaseTag in R.
  unfold bind, try_catch, request, core in R. cbn [world trace] in R.
  destruct (perform (Git_createTag _) (world s)) as [[tagSha|e] w1].
  - cbn [world trace] in R.
    destruct (perform (Git_createRef _) w1) as [[[]|e] w2].
    + handled_run R.
    + cbn [world trace] in R.
      destruct (perform (Git_updateRef _) w2) as [[[]|e3] w3]; handled_run R.
  - handled_run R.
Qed.

Lemma handled_deletePreviousGitHubRelease releaseInfo :
  emits (fun _ ev => handled ev)
        (Main.deletePreviousGitHubRelease releaseInfo : M World unit).
Proof.
  intros s r s' R. unfold Main.deletePreviousGitHubRelease in R.
  unfold bind, try_catch, request, core in R. cbn [world trace] in R.
  destruct (perform (Repos_getReleaseByTag _) (world s)) as [[id|e] w1].
  - cbn [world trace] in R.
    destruct (perform (Repos_deleteRelease _) w1) as [[[]|e] w2]; handled_run R.
  - handled_run R.
Qed.

Lemma handled_getCommitsSinceRelease tagInfo currentSha :
  emits (fun _ ev => handled ev)
        (Main.getCommitsSinceRelease tagInfo currentSha : M World (list Commit)).
Proof.
  intros s r s' R. unfold Main.getCommitsSinceRelease in R.
  unfold bind, try_catch, request, core, ret in R. cbn [world trace] in R.
  destruct (perform (Git_getRef _) (world s)) as [[[]|e] w1]; cbn [world trace] in R.
  - destruct (perform (Repos_compareCommits _) w1) as [[commits|e] w2]; handled_run R.
  - destruct (perform (Repos_compareCommits _) w1) as [[commits|e2] w2]; handled_run R.
Qed.

Ltac unfold_quiet :=
  unfold Main.getAndValidateArgs, Main.searchForPreviousReleaseTag,
    Main.tagList, Main.getChangelog, Files.getPaths,
    Sha.getChecksums, Main.generateNewGitHubRelease.

Ltac handled_leaf :=
  first [ apply handled_createReleaseTag
        | apply handled_deletePreviousGitHubRelease
        | apply handled_getCommitsSinceRelease
        | apply handled_all; unfold_quiet;
          solve [ trace_all_with ltac:(first [exact I | reflexivity]) ] ].

Ltac handled_step := apply handled_bind; [ handled_leaf | intros ? ].

(** So does every run of [main]. *)
Lemma handled_main (s : Store World) r s' :
  Main.main s = (r, s') ->
  exists ev, trace s' = (trace s ++ ev)%list /\ handled ev.
Proof.
  intros R.
  assert (F : emits (fun _ ev => handled ev) (Main.main_try : M World unit)).
  { unfold Main.main_try. do 16 handled_step.
    apply handled_bind.
    - destruct (truthy_string (Main.automaticReleaseTag a)).
      + handled_step. handled_leaf.
      + apply handled_all, all_ret.
    - intros _. handled_leaf. }
  rewrite main_run in R.
  destruct (Main.main_try s) as [[a|e] s0] eqn:MT;
    destruct (F _ _ _ MT) as (ev & T & B); inversion R; subst.
  - eauto.
  - exists (ev ++ [Core (SetFailed (err_message e))])%list. cbn [trace].
    split; [now rewrite T, app_assoc|]. apply handled_app; [exact B|]. exact I.
Qed.

(** A trace that ends with two events, split at an event that is neither. *)
Lemma app_two_inv {T} (l : list T) a b l1 x l2 :
  (l ++ [a; b] = l1 ++ x :: l2)%list -> x <> a -> x <> b ->
  exists l2', l2 = (l2' ++ [a; b])%list /\ l = (l1 ++ x :: l2')%list.
Proof.
  revert l1. induction l as [|h l IH]; intros l1 E Xa Xb.
  - destruct l1 as [|h1 [|h2 l1]]; simpl in E; inversion E; subst; try congruence.
    destruct l1; discriminate.
  - destruct l1 as [|h1 l1]; simpl in E; injection E as Eh Et; subst.
    + exists l. auto.
    + destruct (IH l1 Et Xa Xb) as (l2' & -> & ->). exists l2'. auto.
Qed.

Lemma not_in_opens name ev :
  ~ In (Core (StartGroup name)) ev -> Forall (fun e => ~ opens name e) ev.
Proof.
  intros N. rewrite Forall_forall. intros e I O. unfold opens in O. subst e. contradiction.
Qed.

(** When the inputs are refused, [main] only reports the failure. *)
Lemma main_try_refused (s : Store World) e s1 r s' :
  Main.getAndValidateArgs s = (Throw e, s1) ->
  Main.main s = (r, s') ->
  trace s' = (trace s ++ [Core (SetFailed (err_message e))])%list.
Proof.
  intros GA R. assert (E := getAndValidateArgs_reads _ GA). subst s1.
  rewrite main_run in R. unfold Main.main_try in R. rewrite (bind_Throw _ _ _ GA) in R.
  now inversion R.
Qed.

(** ** src/main.ts: which errors are raised, and which are recovered *)

(** C3, as the code has it.  In every run of [main]: the rejection of a
    platform call other than the five made inside a [try] block (the
    creation of the tag reference, the lookup and the deletion of the
    previous release, the lookup of the previous tag's reference, the
    commit comparison) is the error [main] raises; an error [main] raises
    was reported with [setFailed] last, and a run that returns reported
    none.  The errors that are no rejections are raised as well: the first
    input that cannot be read (a required input missing, or text that is
    no JSON) is raised before anything else is done; at the opening of the
    group that determines the release tags, an empty release tag, a
    repository that is not known, and a tag that is no version when the
    previous tag is searched for; at the first comparison of commits, the
    first message its answer holds that the parser refuses (unless a lookup
    of pull requests is rejected, whose error is then the one raised); at
    the opening of the group of the artifact paths, the first pattern that
    cannot be expanded and, when all expand, the first path that cannot be
    read.
    The recoveries hold whatever the error: the phase deleting the previous
    release and the retrieval of the commits never raise, a rejected
    creation of the tag reference gives way to the force-update, whose
    outcome is that of [createReleaseTag], and in a run of [main] the
    rejection of any of the five calls is followed at once by the report
    of the [catch] block that took it. *)
Theorem errors_propagate_to_the_top_level :
  (forall (s : Store World) r s',
     Main.main s = (r, s') ->
     exists ev,
       trace s' = (trace s ++ ev)%list
       /\ (forall c e, In (Rejected c e) ev -> recoverable c = false -> r = Throw e)
       /\ (forall e, r = Throw e ->
             exists ev0, ev = (ev0 ++ [Core (SetFailed (err_message e))])%list)
       /\ (forall a, r = Ok a -> forall msg, ~ In (Core (SetFailed msg)) ev))
  /\ (forall (s : Store World) e,
        first_error (input_reads (world s)) = Some e ->
        Main.main s
        = (Throw e, mkStore (world s) (trace s ++ [Core (SetFailed (err_message e))])))
  /\ (forall (s : Store World) args s1 r s' ev1 ev2,
        Main.getAndValidateArgs s = (Ok args, s1) ->
        Main.main s = (r, s') ->
        trace s' = (trace s ++ ev1 ++ Core (StartGroup "Determining release tags") :: ev2)%list ->
        ~ In (Core (StartGroup "Determining release tags")) ev1 ->
        tag_decides args (replay (world s) ev1) r)
  /\ (forall (s : Store World) r s' ev1 q ev2,
        Main.main s = (r, s') ->
        trace s' = (trace s ++ ev1 ++ Called (Repos_compareCommits q) :: ev2)%list ->
        Forall (fun e => ~ compares e) ev1 ->
        parser_decides (replay (world s) ev1) (Called (Repos_compareCommits q)) ev2 r)
  /\ (forall (s : Store World) args s1 r s' ev1 ev2,
        Main.getAndValidateArgs s = (Ok args, s1) ->
        Main.main s = (r, s') ->
        trace s' = (trace s ++ ev1
                    ++ Core (StartGroup "Getting artifact paths from file globs") :: ev2)%list ->
        ~ In (Core (StartGroup "Getting artifact paths from file globs")) ev1 ->
        files_decide (Main.files args) (replay (world s) ev1) r)
  /\ (forall releaseInfo (s : Store World),
        exists s', Main.deletePreviousGitHubRelease releaseInfo s = (Ok tt, s'))
  /\ (forall tagInfo currentSha (s : Store World),
        exists commits s',
          Main.getCommitsSinceRelease tagInfo currentSha s = (Ok commits, s'))
  /\ (forall refInfo message (s : Store World) tagSha w1 e w2,
        perform (tag_object_request refInfo message) (world s) = (Ok tagSha, w1) ->
        perform (ref_request refInfo tagSha) w1 = (Throw e, w2) ->
        fst (Main.createReleaseTag refInfo message s)
        = fst (perform (ref_update refInfo tagSha) w2))
  /\ (forall (s : Store World) r s' ev1 c e ev2,
        Main.main s = (r, s') ->
        trace s' = (trace s ++ ev1 ++ Rejected c e :: ev2)%list ->
        recoverable c = true ->
        exists x ev3, ev2 = x :: ev3 /\ notes x).
Proof.
  split; [|split; [|split; [|split; [|split; [|split; [|split; [|split]]]]]]].
  - intros s r s' R. destruct (propagates_main _ R) as (ev & T & F).
    exists ev. split; [exact T|]. split; [exact F|].
    rewrite main_run in R. destruct (Main.main_try s) as [r0 s0] eqn:MT.
    destruct (unfailed_main_try _ MT) as (ev0 & T0 & U).
    destruct r0 as [a|e0]; inversion R; subst.
    + rewrite T0 in T. apply app_inv_head in T. subst ev0.
      split; [discriminate|]. intros _ _ msg I.
      rewrite Forall_forall in U. exact (U _ I).
    + cbn [trace] in T. rewrite T0, <- app_assoc in T. apply app_inv_head in T. subst ev.
      split; [|discriminate]. intros e E. inversion E; subst. eauto.
  - intros s e F. pose proof F as GA. apply inputs_refused in GA.
    rewrite main_run. unfold Main.main_try. rewrite (bind_Throw _ _ _ GA). reflexivity.
  - intros s args s1 r s' ev1 ev2 GA R T N.
    edestruct main_inv as (s0 & ev2' & MT & T0 & _); [exact R | exact T | discriminate |].
    eapply main_try_at_tags; [exact GA | exact MT | exact T0 | reflexivity | apply not_in_opens; exact N].
  - intros s r s' ev1 q ev2 R T N.
    destruct (Main.getAndValidateArgs s) as [[args|e] s1] eqn:GA.
    + edestruct main_inv as (s0 & ev2' & MT & T0 & E2); [exact R | exact T | discriminate |].
      assert (P : parser_decides (replay (world s) ev1) (Called (Repos_compareCommits q)) ev2' r)
        by (eapply main_try_at_compare; [exact GA | exact MT | exact T0 | exact I | exact N]).
      intros q0 commits before failing after e Ex Pc C PB PF NR.
      apply (P q0 commits before failing after e Ex Pc C PB PF).
      intros p e' J. apply (NR p e').
      destruct E2 as [->|(e0 & _ & ->)]; [exact J | apply in_or_app; now left].
    + exfalso. pose proof R as T'. eapply main_try_refused in T'; [|exact GA]. rewrite T in T'.
      apply app_inv_head in T'. destruct ev1 as [|? [|? ?]]; discriminate T'.
  - intros s args s1 r s' ev1 ev2 GA R T N.
    edestruct main_inv as (s0 & ev2' & MT & T0 & _); [exact R | exact T | discriminate |].
    eapply main_try_at_paths; [exact GA | exact MT | exact T0 | reflexivity | apply not_in_opens; exact N].
  - intros releaseInfo s.
    destruct (deletePreviousGitHubRelease_run releaseInfo s) as (s' & ev & R & _). eauto.
  - intros tagInfo currentSha s.
    destruct (perform (Git_getRef tagInfo) (world s)) as [found w1] eqn:G.
    destruct (perform (Repos_compareCommits
                         (mkReposCompareCommitsParams (gr_repo tagInfo)
                            (comparison_base tagInfo found) currentSha)) w1)
      as [compared w2] eqn:C.
    destruct (getCommitsSinceRelease_run s G C) as (ev & R & _). eauto.
  - intros refInfo message s tagSha w1 e w2 P1 P2.
    destruct (createReleaseTag_run refInfo message s) as (r & s' & ev & R & _ & O).
    unfold tag_outcome in O. rewrite P1, P2 in O. rewrite R. now destruct O.
  - intros s r s' ev1 c e ev2 R T Rc.
    destruct (handled_main _ R) as (ev & T' & Hd). rewrite T in T'.
    apply app_inv_head in T'. subst ev. exact (handled_at _ _ _ _ Hd Rc).
Qed.

(** ** src/main.ts: the tag, the previous release, the new release *)

Lemma quiet_not_release e : quiet e -> ~ creates_release e.
Proof.
  destruct e as [c|c|c e]; [intros _ [] | | intros _ []].
  destruct c; first [ solve [intros []] | intros _ [] ].
Qed.


(** X9: a run of [main] that returns ends with the events of [published]:
    the creation of one release, whose tag and name are not empty, the
    upload of the artifacts, and the outputs, which carry the tag of that
    release and the upload URL the artifacts were sent to; nothing before
    creates a release or sets an output.  The upload URL is the one the
    platform answered the creation of the release with, and the paths
    uploaded are the matches of the patterns of the [files] input, each at
    its first occurrence, in the world as it was when the group of the
    artifact paths was opened. *)
Theorem main_success (s s' : Store World) u :
  Main.main s = (Ok u, s') ->
  exists args ev0 p uploadUrl paths,
    Main.getAndValidateArgs s = (Ok args, s)
    /\ trace s' = (trace s ++ ev0 ++ published p uploadUrl paths)%list
    /\ Forall quiet ev0
    /\ nr_tag_name p <> EmptyString /\ nr_name p <> EmptyString
    /\ fst (perform (Repos_createRelease p) (replay (world s) ev0)) = Ok uploadUrl
    /\ exists ev_a ev_b,
         ev0 = (ev_a ++ Core (StartGroup "Getting artifact paths from file globs") :: ev_b)%list
         /\ expands (replay (world s) ev_a) (Main.files args)
         /\ paths = first_seen (flat_map (glob_matches (replay (world s) ev_a))
                                         (Main.files args)).
Proof.
  intros R. rewrite main_run in R.
  destruct (Main.main_try s) as [[a|e] s0] eqn:MT; [|discriminate].
  inversion R; subst.
  destruct (outcome_main_try _ MT) as (ev & T & _ & ev0 & p & url & paths & -> & Q & N1 & N2).
  destruct (Main.getAndValidateArgs s) as [[args|e] s1] eqn:GA.
  2: { exfalso. unfold Main.main_try in MT. rewrite (bind_Throw _ _ _ GA) in MT.
       discriminate MT. }
  destruct (getAndValidateArgs_tag _ GA) as [-> _].
  exists args, ev0, p, url, paths. split; [reflexivity|]. split; [exact T|].
  split; [exact Q|]. split; [exact N1|]. split; [exact N2|].
  assert (U : uploads (Main.files args) (world s)
                (ev0 ++ [Core (StartGroup ("Generating new GitHub release for the " ++ dquote
                                           ++ nr_tag_name p ++ dquote ++ " tag"));
                         Core (Info "Creating new release")])
                (Called (Repos_createRelease p))
                [Core EndGroup;
                 Called (UploadReleaseArtifacts url paths);
                 Core (Debug ("Exporting environment variable AUTOMATIC_RELEASES_TAG with value "
                              ++ nr_tag_name p));
                 Core (ExportVariable "AUTOMATIC_RELEASES_TAG" (nr_tag_name p));
                 Core (SetOutput "automatic_releases_tag" (nr_tag_name p));
                 Core (SetOutput "upload_url" url)]
                (Ok u)).
  { eapply main_try_uploads; [exact GA | exact MT | | exact I |].
    - rewrite T. unfold published. now rewrite <- !app_assoc.
    - apply Forall_app. split.
      + eapply Forall_impl; [|exact Q]. apply quiet_not_release.
      + repeat constructor; intros []. }
  destruct (U u p url paths _ eq_refl eq_refl eq_refl) as (P & ev_a & ev_b & E & X & Ep).
  rewrite replay_app in P. cbn [replay fold_left] in P. split; [exact P|].
  apply app_two_inv in E; [| intro Z; inversion Z | discriminate].
  destruct E as (ev_b' & _ & E). exists ev_a, ev_b'. auto.
Qed.
End Walks.

(** ** Runs on the demo repository *)

Lemma split_at_first test ev : forall before x after,
  split_at test ev = Some (before, x, after) ->
  ev = (before ++ x :: after)%list /\ Forall (fun e => test e = false) before.
Proof.
  induction ev as [|e ev IH]; intros before x after E; [discriminate|].
  simpl in E. destruct (test e) eqn:Te.
  - inversion E; subst. auto.
  - destruct (split_at test ev) as [[[b y] a]|]; [|discriminate].
    inversion E; subst. destruct (IH _ _ _ eq_refl) as (-> & F). auto.
Qed.

(** The tests decide their predicates. *)
Lemma no_group name l :
  Forall (fun e => is_group name e = false) l -> ~ In (Core (StartGroup name)) l.
Proof.
  intros F J. rewrite Forall_forall in F. specialize (F _ J). simpl in F.
  rewrite String.eqb_refl in F. discriminate F.
Qed.

Lemma no_compare l :
  Forall (fun e => is_compare e = false) l -> Forall (fun e => ~ compares e) l.
Proof.
  apply Forall_impl. intros [e|c|c e] Z; try (intros []).
  destruct c; try (intros []). discriminate Z.
Qed.


(** Runs of [main] on the demo repository that raise: the creation of
    the release answered 500; the input [draft] missing; the repository not
    known; a commit with a blank message; a directory that cannot be
    listed.  And a run in which the rejected lookup of the previous release
    is taken by its [catch] block. *)
Lemma errors_propagate_to_the_top_level_witness :
  (let run := @Main.main _ Mock.platform RefSemVer.semver RefPackages.packages
                RefHelpers.helpers
                (Mock.start (Demo.world_with [] Demo.release_down)) in
   fst run = Throw Demo.server_error
   /\ exists ev0, trace (snd run) = (ev0 ++ [Core (SetFailed "Internal Server Error")])%list)
  /\ @Main.main _ Mock.platform RefSemVer.semver RefPackages.packages RefHelpers.helpers
       Scenario.no_draft
     = (Throw (new_Error "Input required and not supplied: draft"),
        mkStore (world Scenario.no_draft)
                [Core (SetFailed "Input required and not supplied: draft")])
  /\ (exists s',
        @Main.main _ Mock.platform RefSemVer.semver RefPackages.packages RefHelpers.helpers
          Scenario.unknown_repo
        = (Throw (new_Error "context.repo requires a GITHUB_REPOSITORY environment variable like 'owner/repo'"),
           s'))
  /\ (exists s',
        @Main.main _ Mock.platform RefSemVer.semver RefPackages.packages RefHelpers.helpers
          Scenario.blank_message
        = (Throw (new_Error "Expected a raw commit"), s'))
  /\ (exists s',
        @Main.main _ Scenario.guarded_platform RefSemVer.semver RefPackages.packages
          RefHelpers.helpers Scenario.locked_directory
        = (Throw (new_Error "EACCES: permission denied, scandir 'secrets/*'"), s'))
  /\ (exists s' ev1 q text ev3,
        @Main.main _ Mock.platform RefSemVer.semver RefPackages.packages RefHelpers.helpers
          (Mock.start (Demo.world_with [] Demo.lookup_down))
        = (Ok tt, s')
        /\ trace s' = (ev1 ++ Rejected (Repos_getReleaseByTag q) Demo.server_error
                           :: Core (Info text) :: ev3)%list).
Proof.
  destruct (@errors_propagate_to_the_top_level _ Mock.platform RefSemVer.semver
              RefPackages.packages RefHelpers.helpers)
    as (P1 & P2 & P3 & P4 & _ & _ & _ & _ & P9).
  destruct (@errors_propagate_to_the_top_level _ Scenario.guarded_platform RefSemVer.semver
              RefPackages.packages RefHelpers.helpers)
    as (_ & _ & _ & _ & P5 & _).
  split; [|split; [|split; [|split; [|split]]]].
  - intros run.
    destruct (P1 (Mock.start (Demo.world_with [] Demo.release_down)) (fst run) (snd run))
      as (ev & T & F & S & _).
    + subst run. apply surjective_pairing.
    + assert (E : fst run = Throw Demo.server_error) by (vm_compute; reflexivity).
      split; [exact E|].
      destruct (S _ E) as [ev0 E0]. exists ev0. rewrite T, E0. reflexivity.
  - apply (P2 Scenario.no_draft). vm_compute. reflexivity.
  - assert (X : exists args s1 r s' ev1 ev2,
               @Main.getAndValidateArgs _ Mock.platform RefPackages.packages
                 Scenario.unknown_repo = (Ok args, s1)
               /\ @Main.main _ Mock.platform RefSemVer.semver RefPackages.packages
                    RefHelpers.helpers Scenario.unknown_repo = (r, s')
               /\ split_at (is_group "Determining release tags") (trace s')
                  = Some (ev1, Core (StartGroup "Determining release tags"), ev2)
               /\ Main.automaticReleaseTag args = EmptyString
               /\ @parseGitTag RefHelpers.helpers (@context_ref _ Mock.platform
                                 (@replay _ Mock.platform (world Scenario.unknown_repo) ev1))
                  = "v1.1.0"
               /\ @context_repo _ Mock.platform
                    (@replay _ Mock.platform (world Scenario.unknown_repo) ev1)
                  = Throw (new_Error "context.repo requires a GITHUB_REPOSITORY environment variable like 'owner/repo'")).
    { eexists _, _, _, _, _, _.
      split; [vm_compute; reflexivity|]. split; [vm_compute; reflexivity|].
      split; [vm_compute; reflexivity|]. split; [vm_compute; reflexivity|].
      split; vm_compute; reflexivity. }
    destruct X as (args & s1 & r & s' & ev1 & ev2 & GA & R & Sp & A & Pg & Cr).
    apply split_at_first in Sp. destruct Sp as [T N]. apply no_group in N.
    destruct (P3 _ _ _ _ _ _ _ GA R T N) as (_ & D & _).
    cbv zeta in D. rewrite A, Pg in D. cbn [truthy_string] in D.
    exists s'. rewrite R. f_equal. apply D; [discriminate | exact Cr].
  - assert (X : exists r s' ev1 q ev2,
               @Main.main _ Mock.platform RefSemVer.semver RefPackages.packages
                 RefHelpers.helpers Scenario.blank_message = (r, s')
               /\ split_at is_compare (trace s')
                  = Some (ev1, Called (Repos_compareCommits q), ev2)
               /\ fst (@perform _ Mock.platform (Repos_compareCommits q)
                         (@replay _ Mock.platform (world Scenario.blank_message) ev1))
                  = Ok [mkCommit "c1" "feat: add foo"; mkCommit "c2" " "]
               /\ forallb (fun e => match e with Rejected _ _ => false | _ => true end) ev2
                  = true).
    { eexists _, _, _, _, _.
      split; [vm_compute; reflexivity|]. split; [vm_compute; reflexivity|].
      split; vm_compute; reflexivity. }
    destruct X as (r & s' & ev1 & q & ev2 & R & Sp & C & Q).
    apply split_at_first in Sp. destruct Sp as [T N]. apply no_compare in N.
    exists s'. rewrite R. f_equal.
    apply (P4 _ _ _ _ _ _ R T N q _ [mkCommit "c1" "feat: add foo"] (mkCommit "c2" " ") []
              (new_Error "Expected a raw commit") eq_refl C eq_refl).
    + apply Forall_cons; [|apply Forall_nil]. eexists. vm_compute. reflexivity.
    + vm_compute. reflexivity.
    + intros p e' J. rewrite forallb_forall in Q. specialize (Q _ J). discriminate Q.
  - assert (X : exists args s1 r s' ev1 ev2,
               @Main.getAndValidateArgs _ Scenario.guarded_platform RefPackages.packages
                 Scenario.locked_directory = (Ok args, s1)
               /\ @Main.main _ Scenario.guarded_platform RefSemVer.semver RefPackages.packages
                    RefHelpers.helpers Scenario.locked_directory = (r, s')
               /\ split_at (is_group "Getting artifact paths from file globs") (trace s')
                  = Some (ev1, Core (StartGroup "Getting artifact paths from file globs"), ev2)
               /\ Main.files args = ["missing"; "secrets/*"; "dist/*"]
               /\ @globby _ Scenario.guarded_platform "missing"
                    (@replay _ Scenario.guarded_platform (world Scenario.locked_directory) ev1)
                  = Ok []
               /\ @globby _ Scenario.guarded_platform "secrets/*"
                    (@replay _ Scenario.guarded_platform (world Scenario.locked_directory) ev1)
                  = Throw (new_Error "EACCES: permission denied, scandir 'secrets/*'")).
    { eexists _, _, _, _, _, _.
      split; [vm_compute; reflexivity|]. split; [vm_compute; reflexivity|].
      split; [vm_compute; reflexivity|]. split; [vm_compute; reflexivity|].
      split; vm_compute; reflexivity. }
    destruct X as (args & s1 & r & s' & ev1 & ev2 & GA & R & Sp & F & G1 & G2).
    apply split_at_first in Sp. destruct Sp as [T N]. apply no_group in N.
    destruct (P5 _ _ _ _ _ _ _ GA R T N) as (D & _).
    exists s'. rewrite R. f_equal.
    apply (D ["missing"] "secrets/*" ["dist/*"] _ F); [|exact G2].
    intros g [<-|[]]. exists []. exact G1.
  - assert (X : exists s' ev1 q ev2,
               @Main.main _ Mock.platform RefSemVer.semver RefPackages.packages
                 RefHelpers.helpers (Mock.start (Demo.world_with [] Demo.lookup_down))
               = (Ok tt, s')
               /\ split_at (fun e => match e with Rejected _ _ => true | _ => false end)
                           (trace s')
                  = Some (ev1, Rejected (Repos_getReleaseByTag q) Demo.server_error, ev2)
               /\ match ev2 with Core (Info _) :: _ => true | _ => false end = true).
    { eexists _, _, _, _.
      split; [vm_compute; reflexivity|]. split; vm_compute; reflexivity. }
    destruct X as (s' & ev1 & q & ev2 & R & Sp & Hd).
    apply split_at_first in Sp. destruct Sp as [T _].
    destruct (P9 _ _ _ ev1 _ _ ev2 R T eq_refl) as (x & ev3 & -> & Nx).
    destruct x as [[| | | text | | | | |]| |]; try discriminate Hd.
    exists s', ev1, q, text, ev3. split; [exact R | exact T].
Defined.


(** In the workflow that keeps releasing [latest]: the run returns, the
    artifacts go to the upload URL the creation of the release answered
    with, and they are the matches of [dist/*]. *)
Lemma main_success_witness :
  exists s' args ev0 p ev_a ev_b,
    @Main.main _ Mock.platform RefSemVer.semver RefPackages.packages RefHelpers.helpers
      Scenario.static_run
    = (Ok tt, s')
    /\ trace s'
       = (trace Scenario.static_run ++ ev0
          ++ published p "https://uploads.github.com/releases/8/assets"
                       ["dist/a.txt"; "dist/b.txt"])%list
    /\ nr_tag_name p <> EmptyString
    /\ fst (@perform _ Mock.platform (Repos_createRelease p)
              (@replay _ Mock.platform (world Scenario.static_run) ev0))
       = Ok "https://uploads.github.com/releases/8/assets"
    /\ ev0 = (ev_a ++ Core (StartGroup "Getting artifact paths from file globs") :: ev_b)%list
    /\ Main.files args = ["dist/*"]
    /\ ["dist/a.txt"; "dist/b.txt"]
       = first_seen (flat_map (@glob_matches _ Mock.platform
                                 (@replay _ Mock.platform (world Scenario.static_run) ev_a))
                              (Main.files args)).
Proof.
  assert (R : exists s' args s1,
             @Main.main _ Mock.platform RefSemVer.semver RefPackages.packages
               RefHelpers.helpers Scenario.static_run
             = (Ok tt, s')
             /\ @Main.getAndValidateArgs _ Mock.platform RefPackages.packages
                  Scenario.static_run = (Ok args, s1)
             /\ Main.files args = ["dist/*"]
             /\ nth_error (rev (trace s')) 4
                = Some (Called (UploadReleaseArtifacts
                                  "https://uploads.github.com/releases/8/assets"
                                  ["dist/a.txt"; "dist/b.txt"]))).
  { eexists _, _, _. split; [vm_compute; reflexivity|]. split; [vm_compute; reflexivity|].
    split; vm_compute; reflexivity. }
  destruct R as (s' & args & s1 & R & GA & F & U).
  destruct (@main_success _ Mock.platform RefSemVer.semver RefPackages.packages
              RefHelpers.helpers _ _ _ R)
    as (args' & ev0 & p & url & paths & GA' & T & Q & N & _ & P & ev_a & ev_b & E & _ & Ep).
  rewrite GA in GA'. inversion GA'; subst args'.
  assert (Z : url = "https://uploads.github.com/releases/8/assets"
              /\ paths = ["dist/a.txt"; "dist/b.txt"]).
  { rewrite T in U. change (trace Scenario.static_run) with (@nil Event) in U.
    rewrite app_nil_l, rev_app_distr in U. unfold published in U. simpl in U.
    inversion U. auto. }
  destruct Z as [-> ->].
  exists s', args, ev0, p, ev_a, ev_b. auto 10.
Defined.
